(** * Qbitrr: the reconciler and the search scheduler of [arss.py]

    A shallow embedding of the classes [Arr] and [ArrManager] of
    [src/arss.py].  Python sets are [gset], dictionaries are [gmap], the
    object [self] is a record that is threaded through a small state monad
    together with the supervisor-scoped caches and the trace of calls made
    to the download client, the media manager and the file system. *)

From Stdlib Require Import QArith Ascii String.
From stdpp Require Import gmap strings list fin_maps.

#[local] Set Warnings "-clear-no-such-hyp".

Local Open Scope string_scope.
Local Open Scope Z_scope.
Local Open Scope list_scope.

(** ** Strings and paths *)

(** [str.upper] and [str.lower].  A string holds the UTF-8 bytes of the
    Python string; the two functions change the letters of the ASCII range
    and leave every other byte as it is, so they are the Python functions
    on the strings of ASCII characters (torrent hashes are hexadecimal).
    A letter outside ASCII that Python would lower-case keeps its case
    here. *)
Definition ascii_upper (c : ascii) : ascii :=
  let n := nat_of_ascii c in
  if ((97 <=? n) && (n <=? 122))%nat then ascii_of_nat (n - 32) else c.

Definition ascii_lower (c : ascii) : ascii :=
  let n := nat_of_ascii c in
  if ((65 <=? n) && (n <=? 90))%nat then ascii_of_nat (n + 32) else c.

Fixpoint upper (s : string) : string :=
  match s with
  | EmptyString => EmptyString
  | String c r => String (ascii_upper c) (upper r)
  end.

Fixpoint lower (s : string) : string :=
  match s with
  | EmptyString => EmptyString
  | String c r => String (ascii_lower c) (lower r)
  end.

(** [pathlib.PurePosixPath]: the components of a path, its [name], its
    [suffix] and the names of its [parents]. *)
Module pathlib.

Fixpoint split_sep (cur : string) (s : string) : list string :=
  match s with
  | EmptyString => [cur]
  | String c r =>
      if Ascii.eqb c "/" then cur :: split_sep EmptyString r
      else split_sep (cur +:+ String c EmptyString) r
  end.

(** Empty components and [.] components are dropped by [pathlib]. *)
Definition components (s : string) : list string :=
  filter (λ p, p ≠ "" ∧ p ≠ ".") (split_sep "" s).

Definition name (s : string) : string := List.last (components s) "".

(** The position of the last dot of a name and the text from it on. *)
Fixpoint rfind_dot (s : string) : option (nat * string) :=
  match s with
  | EmptyString => None
  | String c r =>
      match rfind_dot r with
      | Some (i, suf) => Some (S i, suf)
      | None => if Ascii.eqb c "." then Some (O, s) else None
      end
  end.

(** [suffix]: [name[i:]] when [0 < i < len(name) - 1], else empty. *)
Definition suffix (s : string) : string :=
  let n := name s in
  match rfind_dot n with
  | Some (i, suf) =>
      if ((0 <? i) && (i <? String.length n - 1))%nat then suf else ""
  | None => ""
  end.

(** The non-empty names of [parents], nearest ancestor first. *)
Definition parent_names (s : string) : list string :=
  rev (removelast (components s)).

End pathlib.

(** ** Torrent snapshots *)

(** [qbittorrentapi.TorrentStates]. *)
Inductive TorrentStates :=
  | ERROR | MISSING_FILES | UPLOADING | PAUSED_UPLOAD | QUEUED_UPLOAD
  | STALLED_UPLOAD | CHECKING_UPLOAD | FORCED_UPLOAD | ALLOCATING
  | DOWNLOADING | METADATA_DOWNLOAD | PAUSED_DOWNLOAD | QUEUED_DOWNLOAD
  | FORCED_DOWNLOAD | STALLED_DOWNLOAD | CHECKING_DOWNLOAD
  | CHECKING_RESUME_DATA | MOVING | UNKNOWN.

#[global] Instance TorrentStates_eq_dec : EqDecision TorrentStates.
Proof. solve_decision. Defined.

(** The property [TorrentStates.is_downloading] of the client library. *)
Definition is_downloading (s : TorrentStates) : bool :=
  match s with
  | DOWNLOADING | METADATA_DOWNLOAD | STALLED_DOWNLOAD | CHECKING_DOWNLOAD
  | PAUSED_DOWNLOAD | QUEUED_DOWNLOAD | FORCED_DOWNLOAD => true
  | _ => false
  end.

Module TorrentFile.
Record t := mk { id : Z; name : string; priority : Z }.
End TorrentFile.

Module Torrent.
Record t := mk {
  hash : string;
  name : string;
  category : string;
  state_enum : TorrentStates;
  progress : Q;
  availability : Q;
  added_on : Z;
  completion_on : Z;
  last_activity : Z;
  eta : Z;
  seeding_time : Z;
  amount_left : Z;
  content_path : string;
  files : list TorrentFile.t }.
End Torrent.

Definition TorrentDictionary : Type := Torrent.t.

(** Comparisons of Python numbers; floats are read as rationals. *)
Definition Qltb (x y : Q) : bool := negb (Qle_bool y x).
Definition Qgeb (x y : Q) : bool := Qle_bool y x.

(** Modelled from the spec: [utils.ExpiringSet], which is not among the
    sources.  The spec calls it a TTL-keyed membership whose expiry is
    [IgnoreTorrentsYoungerThan] seconds: a member is kept with the time it
    was added at and counts as a member for [age] seconds from then on.
    [now] is the reading of the clock when the operation is made.  A test
    that finds a member too old may also drop it; no later test can tell,
    as long as the clock does not go back. *)
Module ExpiringSet.

Record t := mk {
  age : Z;
  container : gmap string Q }.

Definition empty (max_age_seconds : Z) : t := mk max_age_seconds ∅.

Definition add (now : Q) (value : string) (s : t) : t :=
  mk (age s) (<[value := now]> (container s)).

Definition contains (now : Q) (value : string) (s : t) : bool :=
  match container s !! value with
  | Some added => Qle_bool (now - added) (inject_Z (age s))
  | None => false
  end.

End ExpiringSet.


(** ** The reconciler object *)

(** Members of [sent_to_scan]: the code stores [pathlib.Path] objects in it
    and also tests a [str] (the torrent hash) for membership; a [str] never
    equals a [Path]. *)
Inductive PyObj := Str (s : string) | Path (p : string).

#[global] Instance PyObj_eq_dec : EqDecision PyObj.
Proof. solve_decision. Defined.

#[global] Instance PyObj_countable : Countable PyObj.
Proof.
  refine (inj_countable'
    (λ o, match o with Str s => inl s | Path p => inr p end)
    (λ x, match x with inl s => Str s | inr p => Path p end) _).
  by intros [].
Defined.

Inductive ArrType := sonarr | radarr.

(** The attributes [Arr.__init__] reads from the configuration and never
    changes afterwards.  The two compiled patterns are kept as the test
    they are used for: [folder_exclusion_regex_re.match] and
    [file_name_exclusion_regex_re.search]. *)
Record Config := {
  _name : string;
  uri : string;
  apikey : string;
  category : string;
  completed_folder : string;
  type : ArrType;
  re_search : bool;
  import_mode : string;
  refresh_downloads_timer : Z;
  rss_sync_timer : Z;
  case_sensitive_matches : bool;
  auto_delete : bool;
  file_extension_allowlist : list string;
  folder_exclusion_regex_re : string → bool;
  file_name_exclusion_regex_re : string → bool;
  ignore_torrents_younger_than : Z;
  maximum_eta : Z;
  maximum_deletable_percentage : Q;
  search_specials : bool;
  search_by_year : bool;
  search_in_reverse : bool;
  search_starting_year : Z;
  search_ending_year : Z;
  search_command_limit : Z;
  _delta : Z;
  arr_db_file : string;
  search_db_file : string }.

(** The mutable attributes of [self].  [requeue_cache] is the
    [defaultdict(list)] a Sonarr reconciler builds, [requeue_cache_movie]
    the plain dictionary a Radarr reconciler builds under the same
    attribute name. *)
Module Arr.

Record t := mk {
  config : Config;
  search_missing : bool;
  search_current_year : Z;
  search_setup_completed : bool;
  cache : gmap string Z;
  requeue_cache : gmap Z (list Z);
  requeue_cache_movie : gmap Z Z;
  sent_to_scan : gset PyObj;
  sent_to_scan_hashes : gset string;
  files_probed : gset string;
  import_torrents : list TorrentDictionary;
  change_priority : gmap string (list Z);
  recheck : gset string;
  pause : gset string;
  skip_blacklist : gset string;
  delete : gset string;
  resume : gset string;
  needs_cleanup : bool;
  timed_ignore_cache : ExpiringSet.t;
  timed_skip : ExpiringSet.t }.

Definition set_search_missing (v : bool) (a : t) : t :=
  let 'mk x0 x1 x2 x3 x4 x5 x6 x7 x8 x9 x10 x11 x12 x13 x14 x15 x16 x17 x18 x19 := a in
  mk x0 v x2 x3 x4 x5 x6 x7 x8 x9 x10 x11 x12 x13 x14 x15 x16 x17 x18 x19.

Definition set_search_current_year (v : Z) (a : t) : t :=
  let 'mk x0 x1 x2 x3 x4 x5 x6 x7 x8 x9 x10 x11 x12 x13 x14 x15 x16 x17 x18 x19 := a in
  mk x0 x1 v x3 x4 x5 x6 x7 x8 x9 x10 x11 x12 x13 x14 x15 x16 x17 x18 x19.

Definition set_search_setup_completed (v : bool) (a : t) : t :=
  let 'mk x0 x1 x2 x3 x4 x5 x6 x7 x8 x9 x10 x11 x12 x13 x14 x15 x16 x17 x18 x19 := a in
  mk x0 x1 x2 v x4 x5 x6 x7 x8 x9 x10 x11 x12 x13 x14 x15 x16 x17 x18 x19.

Definition set_cache (v : gmap string Z) (a : t) : t :=
  let 'mk x0 x1 x2 x3 x4 x5 x6 x7 x8 x9 x10 x11 x12 x13 x14 x15 x16 x17 x18 x19 := a in
  mk x0 x1 x2 x3 v x5 x6 x7 x8 x9 x10 x11 x12 x13 x14 x15 x16 x17 x18 x19.

Definition set_requeue_cache (v : gmap Z (list Z)) (a : t) : t :=
  let 'mk x0 x1 x2 x3 x4 x5 x6 x7 x8 x9 x10 x11 x12 x13 x14 x15 x16 x17 x18 x19 := a in
  mk x0 x1 x2 x3 x4 v x6 x7 x8 x9 x10 x11 x12 x13 x14 x15 x16 x17 x18 x19.

Definition set_requeue_cache_movie (v : gmap Z Z) (a : t) : t :=
  let 'mk x0 x1 x2 x3 x4 x5 x6 x7 x8 x9 x10 x11 x12 x13 x14 x15 x16 x17 x18 x19 := a in
  mk x0 x1 x2 x3 x4 x5 v x7 x8 x9 x10 x11 x12 x13 x14 x15 x16 x17 x18 x19.

Definition set_sent_to_scan (v : gset PyObj) (a : t) : t :=
  let 'mk x0 x1 x2 x3 x4 x5 x6 x7 x8 x9 x10 x11 x12 x13 x14 x15 x16 x17 x18 x19 := a in
  mk x0 x1 x2 x3 x4 x5 x6 v x8 x9 x10 x11 x12 x13 x14 x15 x16 x17 x18 x19.

Definition set_sent_to_scan_hashes (v : gset string) (a : t) : t :=
  let 'mk x0 x1 x2 x3 x4 x5 x6 x7 x8 x9 x10 x11 x12 x13 x14 x15 x16 x17 x18 x19 := a in
  mk x0 x1 x2 x3 x4 x5 x6 x7 v x9 x10 x11 x12 x13 x14 x15 x16 x17 x18 x19.

Definition set_files_probed (v : gset string) (a : t) : t :=
  let 'mk x0 x1 x2 x3 x4 x5 x6 x7 x8 x9 x10 x11 x12 x13 x14 x15 x16 x17 x18 x19 := a in
  mk x0 x1 x2 x3 x4 x5 x6 x7 x8 v x10 x11 x12 x13 x14 x15 x16 x17 x18 x19.

Definition set_import_torrents (v : list TorrentDictionary) (a : t) : t :=
  let 'mk x0 x1 x2 x3 x4 x5 x6 x7 x8 x9 x10 x11 x12 x13 x14 x15 x16 x17 x18 x19 := a in
  mk x0 x1 x2 x3 x4 x5 x6 x7 x8 x9 v x11 x12 x13 x14 x15 x16 x17 x18 x19.

Definition set_change_priority (v : gmap string (list Z)) (a : t) : t :=
  let 'mk x0 x1 x2 x3 x4 x5 x6 x7 x8 x9 x10 x11 x12 x13 x14 x15 x16 x17 x18 x19 := a in
  mk x0 x1 x2 x3 x4 x5 x6 x7 x8 x9 x10 v x12 x13 x14 x15 x16 x17 x18 x19.

Definition set_recheck (v : gset string) (a : t) : t :=
  let 'mk x0 x1 x2 x3 x4 x5 x6 x7 x8 x9 x10 x11 x12 x13 x14 x15 x16 x17 x18 x19 := a in
  mk x0 x1 x2 x3 x4 x5 x6 x7 x8 x9 x10 x11 v x13 x14 x15 x16 x17 x18 x19.

Definition set_pause (v : gset string) (a : t) : t :=
  let 'mk x0 x1 x2 x3 x4 x5 x6 x7 x8 x9 x10 x11 x12 x13 x14 x15 x16 x17 x18 x19 := a in
  mk x0 x1 x2 x3 x4 x5 x6 x7 x8 x9 x10 x11 x12 v x14 x15 x16 x17 x18 x19.

Definition set_skip_blacklist (v : gset string) (a : t) : t :=
  let 'mk x0 x1 x2 x3 x4 x5 x6 x7 x8 x9 x10 x11 x12 x13 x14 x15 x16 x17 x18 x19 := a in
  mk x0 x1 x2 x3 x4 x5 x6 x7 x8 x9 x10 x11 x12 x13 v x15 x16 x17 x18 x19.

Definition set_delete (v : gset string) (a : t) : t :=
  let 'mk x0 x1 x2 x3 x4 x5 x6 x7 x8 x9 x10 x11 x12 x13 x14 x15 x16 x17 x18 x19 := a in
  mk x0 x1 x2 x3 x4 x5 x6 x7 x8 x9 x10 x11 x12 x13 x14 v x16 x17 x18 x19.

Definition set_resume (v : gset string) (a : t) : t :=
  let 'mk x0 x1 x2 x3 x4 x5 x6 x7 x8 x9 x10 x11 x12 x13 x14 x15 x16 x17 x18 x19 := a in
  mk x0 x1 x2 x3 x4 x5 x6 x7 x8 x9 x10 x11 x12 x13 x14 x15 v x17 x18 x19.

Definition set_needs_cleanup (v : bool) (a : t) : t :=
  let 'mk x0 x1 x2 x3 x4 x5 x6 x7 x8 x9 x10 x11 x12 x13 x14 x15 x16 x17 x18 x19 := a in
  mk x0 x1 x2 x3 x4 x5 x6 x7 x8 x9 x10 x11 x12 x13 x14 x15 x16 v x18 x19.

Definition set_timed_ignore_cache (v : ExpiringSet.t) (a : t) : t :=
  let 'mk x0 x1 x2 x3 x4 x5 x6 x7 x8 x9 x10 x11 x12 x13 x14 x15 x16 x17 x18 x19 := a in
  mk x0 x1 x2 x3 x4 x5 x6 x7 x8 x9 x10 x11 x12 x13 x14 x15 x16 x17 v x19.

Definition set_timed_skip (v : ExpiringSet.t) (a : t) : t :=
  let 'mk x0 x1 x2 x3 x4 x5 x6 x7 x8 x9 x10 x11 x12 x13 x14 x15 x16 x17 x18 x19 := a in
  mk x0 x1 x2 x3 x4 x5 x6 x7 x8 x9 x10 x11 x12 x13 x14 x15 x16 x17 x18 v.

End Arr.

(** The supervisor-scoped caches of [qBitManager]: [name_cache] maps a
    hash to the last known name, [cache] maps a hash to its category. *)
Module qBitManager.
Record t := mk {
  name_cache : gmap string string;
  cache : gmap string string }.
End qBitManager.

(** What [manager.managed_objects[category]] refers to: this reconciler
    itself, or another one, of which only [sent_to_scan_hashes] is read. *)
Inductive ManagedObject :=
  | this
  | other (sent_to_scan_hashes : gset string).

(** ** Calls to the collaborators *)

(** The body of a [POST /api/v3/command]. *)
Inductive Command :=
  | RssSync
  | RefreshMonitoredDownloads
  | EpisodeSearch (episodeIds : list Z)
  | MoviesSearch (movieIds : list Z)
  | DownloadedEpisodesScan (path downloadClientId importMode : string).

(** One constructor per call that leaves the process, in the order the
    calls are made. *)
Inductive event :=
  (* download client *)
  | torrents_pause (torrent_hashes : gset string)
  | torrents_recheck (torrent_hashes : list string)
  | torrents_resume (torrent_hashes : gset string)
  | torrents_file_priority (torrent_hash : string) (file_ids : list Z)
      (priority : Z)
  | torrents_delete (hashes : gset string) (delete_files : bool)
  (* media manager *)
  | request_del (id_ : Z) (removeFromClient blocklist : bool)
  | request_post (c : Command)
  | client_post_command (c : Command)
  | get_episode_by_episode_id (id_ : Z)
  | get_movie_by_movie_id (id_ : Z)
  (* catalog and local search store *)
  | db_connect (file : string)
  | db_create_tables
  (* file system, clock, log *)
  | unlink (p : string)
  | rmdir (p : string)
  | sleep (seconds : Z)
  | log_error (msg : string).

(** A row of the local pending-search table ([model_queue]). *)
Module QueueModel.
Record t := mk { EntryId : Z; completed : bool }.
End QueueModel.

(** [clock] is what [time.time()] returns while the step at hand runs;
    only the expiring sets read it. *)
Record World := mkWorld {
  self : Arr.t;
  qbit_manager : qBitManager.t;
  managed_objects : gmap string ManagedObject;
  ffprobe_available : bool;
  model_queue : list QueueModel.t;
  trace : list event;
  clock : Q }.

(** ** A state monad over [World] *)

Definition M (A : Type) : Type := World → A * World.

#[global] Instance M_ret : MRet M := λ A x w, (x, w).
#[global] Instance M_bind : MBind M :=
  λ A B f m w, let '(x, w') := m w in f x w'.

Definition get_self : M Arr.t := λ w, (self w, w).
Definition get_world : M World := λ w, (w, w).

Definition modify_self (f : Arr.t → Arr.t) : M unit :=
  λ w, (tt, mkWorld (f (self w)) (qbit_manager w) (managed_objects w)
              (ffprobe_available w) (model_queue w) (trace w) (clock w)).

Definition modify_qbit_manager (f : qBitManager.t → qBitManager.t) : M unit :=
  λ w, (tt, mkWorld (self w) (f (qbit_manager w)) (managed_objects w)
              (ffprobe_available w) (model_queue w) (trace w) (clock w)).

Definition modify_model_queue (f : list QueueModel.t → list QueueModel.t) : M unit :=
  λ w, (tt, mkWorld (self w) (qbit_manager w) (managed_objects w)
              (ffprobe_available w) (f (model_queue w)) (trace w) (clock w)).

Definition emit (e : event) : M unit :=
  λ w, (tt, mkWorld (self w) (qbit_manager w) (managed_objects w)
              (ffprobe_available w) (model_queue w) (trace w ++ [e]) (clock w)).

Definition pass : M unit := mret tt.

(** [for x in xs: body]. *)
Fixpoint for_each {A} (xs : list A) (body : A → M unit) : M unit :=
  match xs with
  | [] => pass
  | x :: xs' => body x ;; for_each xs' body
  end.

Definition exec {A} (m : M A) (w : World) : World := snd (m w).
Definition eval {A} (m : M A) (w : World) : A := fst (m w).

(** ** State predicates ([Arr.is_ignored_state] and its siblings) *)

Definition is_ignored_state (torrent : TorrentDictionary) : bool :=
  match Torrent.state_enum torrent with
  | FORCED_DOWNLOAD | FORCED_UPLOAD | CHECKING_UPLOAD | CHECKING_DOWNLOAD
  | CHECKING_RESUME_DATA | ALLOCATING | MOVING => true
  | _ => false
  end.

Definition is_uploading_state (torrent : TorrentDictionary) : bool :=
  match Torrent.state_enum torrent with
  | UPLOADING | STALLED_UPLOAD | QUEUED_UPLOAD => true
  | _ => false
  end.

Definition is_complete_state (torrent : TorrentDictionary) : bool :=
  match Torrent.state_enum torrent with
  | UPLOADING | STALLED_UPLOAD | PAUSED_UPLOAD | QUEUED_UPLOAD => true
  | _ => false
  end.

Definition is_downloading_state (torrent : TorrentDictionary) : bool :=
  match Torrent.state_enum torrent with
  | DOWNLOADING | PAUSED_DOWNLOAD => true
  | _ => false
  end.

(** Truth value of a Python [str]. *)
Definition truthy (s : string) : bool := negb (String.eqb s "").

(** [manager.managed_objects[category].sent_to_scan_hashes].
    [build_arr_instances] registers every reconciler under its category, so
    the key of a torrent listed for this reconciler is present; the empty
    set stands for the lookup that cannot happen. *)
Definition target_sent_to_scan_hashes (w : World) (category : string)
    : gset string :=
  match managed_objects w !! category with
  | Some this => Arr.sent_to_scan_hashes (self w)
  | Some (other s) => s
  | None => ∅
  end.

(** ** The classifier of [Arr.process_torrents] *)

Section classifier.

Context (FAILED_CATEGORY RECHECK_CATEGORY : string).

(** The three tests that mark a file of priority other than 0: its
    extension is not allow-listed, or one of its folders matches
    [FolderExclusionRegex], or its name matches [FileNameExclusionRegex].
    Each of the three branches does the same: [_remove_files.add(file.id)]
    and [total -= 1]. *)
Definition file_is_excluded (c : Config) (file : TorrentFile.t) : bool :=
  let file_path := TorrentFile.name file in
  if negb (bool_decide (pathlib.suffix file_path ∈ file_extension_allowlist c))
  then true
  else if existsb (λ p, folder_exclusion_regex_re c (lower p))
            (pathlib.parent_names file_path)
  then true
  else if file_name_exclusion_regex_re c (pathlib.name file_path)
  then true
  else false.

(** The loop [for file in torrent.files] with its two locals.  The test
    on [total] and the write to [change_priority] are inside the loop
    body, as in the source. *)
Fixpoint filter_files (torrent : TorrentDictionary)
    (files : list TorrentFile.t) (_remove_files : gset Z) (total : Z)
    : M unit :=
  match files with
  | [] => pass
  | file :: rest =>
      if TorrentFile.priority file =? 0
      then filter_files torrent rest _remove_files (total - 1)
      else
        a ← get_self;
        let excluded := file_is_excluded (Arr.config a) file in
        let _remove_files :=
          if excluded then _remove_files ∪ {[TorrentFile.id file]}
          else _remove_files in
        let total := if excluded then total - 1 else total in
        (if total =? 0
         then modify_self (λ a,
                Arr.set_delete (Arr.delete a ∪ {[Torrent.hash torrent]}) a)
         else if bool_decide (_remove_files ≠ ∅)
                 && bool_decide
                      (Arr.change_priority a !! Torrent.hash torrent = None)
         then modify_self (λ a,
                Arr.set_change_priority
                  (<[Torrent.hash torrent := elements _remove_files]>
                     (Arr.change_priority a)) a)
         else pass) ;;
        filter_files torrent rest _remove_files total
  end.

(** The branches of the [if]/[elif] chain, top to bottom. *)
Inductive rule :=
  | manually_failed        (*  1 *)
  | manually_recheck       (*  2 *)
  | ignored_state          (*  3 *)
  | recently_touched       (*  4 *)
  | maximum_percentage     (*  5 *)
  | sent_to_scan           (*  6 *)
  | errored                (*  7 *)
  | completed              (*  8 *)
  | missing_files          (*  9 *)
  | paused_download        (* 10 *)
  | stalled                (* 11 *)
  | uploading              (* 12 *)
  | slow                   (* 13 *)
  | uncompleted.           (* 14 *)

Definition rules : list rule :=
  [manually_failed; manually_recheck; ignored_state; recently_touched;
   maximum_percentage; sent_to_scan; errored; completed; missing_files;
   paused_download; stalled; uploading; slow; uncompleted].

(** The condition of each branch. *)
Definition guard (r : rule) (w : World) (time_now : Q)
    (torrent : TorrentDictionary) : bool :=
  let a := self w in
  let c := Arr.config a in
  match r with
  | manually_failed =>
      bool_decide (Torrent.category torrent = FAILED_CATEGORY)
  | manually_recheck =>
      bool_decide (Torrent.category torrent = RECHECK_CATEGORY)
  | ignored_state => is_ignored_state torrent
  | recently_touched =>
      ExpiringSet.contains (clock w) (Torrent.hash torrent)
        (Arr.timed_ignore_cache a)
      || ExpiringSet.contains (clock w) (Torrent.hash torrent)
           (Arr.timed_skip a)
  | maximum_percentage =>
      Qgeb (Torrent.progress torrent) (maximum_deletable_percentage c)
      && negb (is_complete_state torrent)
  | sent_to_scan =>
      bool_decide (Torrent.hash torrent
                     ∈ target_sent_to_scan_hashes w (Torrent.category torrent))
  | errored => bool_decide (Torrent.state_enum torrent = ERROR)
  | completed =>
      (0 <? Torrent.added_on torrent)
      && (Torrent.amount_left torrent =? 0)
      && is_complete_state torrent
      && truthy (Torrent.content_path torrent)
      && Qltb (inject_Z (Torrent.completion_on torrent)) (time_now - 30)
  | missing_files => bool_decide (Torrent.state_enum torrent = MISSING_FILES)
  | paused_download =>
      bool_decide (Torrent.state_enum torrent = PAUSED_DOWNLOAD)
      && Qltb (Torrent.progress torrent) 1
  | stalled =>
      bool_decide (Torrent.state_enum torrent = METADATA_DOWNLOAD)
      || bool_decide (Torrent.state_enum torrent = STALLED_DOWNLOAD)
  | uploading =>
      is_uploading_state torrent
      && (1 <? Torrent.seeding_time torrent)
      && (Torrent.amount_left torrent =? 0)
      && (0 <? Torrent.added_on torrent)
      && truthy (Torrent.content_path torrent)
  | slow =>
      negb (bool_decide (Torrent.state_enum torrent = PAUSED_DOWNLOAD))
      && is_downloading (Torrent.state_enum torrent)
      && Qltb (inject_Z (Torrent.added_on torrent))
           (time_now - inject_Z (ignore_torrents_younger_than c))
      && (maximum_eta c <? Torrent.eta torrent)
  | uncompleted => is_downloading (Torrent.state_enum torrent)
  end.

Definition add_delete (h : string) : M unit :=
  modify_self (λ a, Arr.set_delete (Arr.delete a ∪ {[h]}) a).
Definition add_recheck (h : string) : M unit :=
  modify_self (λ a, Arr.set_recheck (Arr.recheck a ∪ {[h]}) a).
Definition add_pause (h : string) : M unit :=
  modify_self (λ a, Arr.set_pause (Arr.pause a ∪ {[h]}) a).
Definition add_resume (h : string) : M unit :=
  modify_self (λ a, Arr.set_resume (Arr.resume a ∪ {[h]}) a).
Definition add_skip_blacklist (h : string) : M unit :=
  modify_self (λ a, Arr.set_skip_blacklist (Arr.skip_blacklist a ∪ {[h]}) a).

(** [self.timed_skip.add(h)]. *)
Definition timed_skip_add (h : string) : M unit :=
  w ← get_world;
  modify_self (λ a,
    Arr.set_timed_skip (ExpiringSet.add (clock w) h (Arr.timed_skip a)) a).

(** The body of each branch; [continue] is [pass]. *)
Definition action (r : rule) (time_now : Q) (torrent : TorrentDictionary)
    : M unit :=
  let h := Torrent.hash torrent in
  match r with
  | manually_failed => add_delete h
  | manually_recheck => add_recheck h
  | ignored_state => pass
  | recently_touched => pass
  | maximum_percentage =>
      a ← get_self;
      if Qltb (inject_Z (Torrent.last_activity torrent))
           (time_now - inject_Z (maximum_eta (Arr.config a)))
      then add_delete h
      else pass
  | sent_to_scan => pass
  | errored => add_recheck h
  | completed =>
      add_pause h ;;
      modify_self (λ a,
        Arr.set_import_torrents (Arr.import_torrents a ++ [torrent]) a)
  | missing_files => add_skip_blacklist h
  | paused_download => add_resume h
  | stalled =>
      timed_skip_add h ;;
      a ← get_self;
      if Qltb (inject_Z (Torrent.added_on torrent))
           (time_now - inject_Z (ignore_torrents_younger_than (Arr.config a)))
      then add_delete h
      else pass
  | uploading => add_pause h
  | slow => add_delete h
  | uncompleted =>
      a ← get_self;
      if Qltb (inject_Z (Torrent.added_on torrent))
           (time_now - inject_Z (ignore_torrents_younger_than (Arr.config a)))
         && Qltb (Torrent.availability torrent) 1
      then add_delete h
      else filter_files torrent (Torrent.files torrent) ∅
             (Z.of_nat (length (Torrent.files torrent)))
  end.

(** The first two statements of the loop body: the supervisor caches
    learn the category and the name of the torrent. *)
Definition refresh_caches (torrent : TorrentDictionary) : M unit :=
  (if negb (bool_decide (Torrent.category torrent = RECHECK_CATEGORY))
   then modify_qbit_manager (λ q,
          qBitManager.mk (qBitManager.name_cache q)
            (<[Torrent.hash torrent := Torrent.category torrent]>
               (qBitManager.cache q)))
   else pass) ;;
  modify_qbit_manager (λ q,
    qBitManager.mk
      (<[Torrent.hash torrent := Torrent.name torrent]>
         (qBitManager.name_cache q))
      (qBitManager.cache q)).

(** The body of [for torrent in torrents]: the caches are refreshed, then
    the chain is walked. *)
Definition classify (time_now : Q) (torrent : TorrentDictionary) : M unit :=
  refresh_caches torrent ;;
  w ← get_world;
  let fires r := guard r w time_now torrent in
  let run r := action r time_now torrent in
  if fires manually_failed then run manually_failed
  else if fires manually_recheck then run manually_recheck
  else if fires ignored_state then run ignored_state
  else if fires recently_touched then run recently_touched
  else if fires maximum_percentage then run maximum_percentage
  else if fires sent_to_scan then run sent_to_scan
  else if fires errored then run errored
  else if fires completed then run completed
  else if fires missing_files then run missing_files
  else if fires paused_download then run paused_download
  else if fires stalled then run stalled
  else if fires uploading then run uploading
  else if fires slow then run slow
  else if fires uncompleted then run uncompleted
  else pass.

Definition classify_all (time_now : Q) (torrents : list TorrentDictionary)
    : M unit :=
  for_each torrents (classify time_now).

End classifier.

(** ** The queue of the manager ([Arr.refresh_download_queue]) *)

(** An entry of the manager's queue: [downloadId] (when present), [id],
    the id of its [episode] (when the key is there) and [movieId] (when
    present). *)
Module QueueEntry.
Record t := mk {
  downloadId : option string;
  id : Z;
  episode : option Z;
  movieId : option Z }.
End QueueEntry.

(** [queue] is what [client.get_queue] answers.  A later entry with the
    same key replaces an earlier one; the episodes of one queue id are
    collected in order. *)
Definition refresh_download_queue (queue : list QueueEntry.t) : M unit :=
  modify_self (Arr.set_cache
    (foldl (λ m entry,
              match QueueEntry.downloadId entry with
              | Some d => if truthy d then <[d := QueueEntry.id entry]> m else m
              | None => m
              end) ∅ queue)) ;;
  a ← get_self;
  match type (Arr.config a) with
  | sonarr =>
      modify_self (Arr.set_requeue_cache
        (foldl (λ m entry,
                  match QueueEntry.episode entry with
                  | Some e =>
                      <[QueueEntry.id entry :=
                          default [] (m !! QueueEntry.id entry) ++ [e]]> m
                  | None => m
                  end) ∅ queue))
  | radarr =>
      modify_self (Arr.set_requeue_cache_movie
        (foldl (λ m entry,
                  match QueueEntry.movieId entry with
                  | Some movie =>
                      if negb (movie =? 0)
                      then <[QueueEntry.id entry := movie]> m
                      else m
                  | None => m
                  end) ∅ queue))
  end.

(** ** Flushing the intents ([Arr.process] and its steps) *)

Definition delete_from_queue (id_ : Z) (remove_from_client blacklist : bool)
    : M unit :=
  emit (request_del id_ remove_from_client blacklist).

Definition post_command (c : Command) : M unit := emit (request_post c).

Definition set_needs_cleanup (b : bool) : M unit :=
  modify_self (Arr.set_needs_cleanup b).

(** [self.timed_ignore_cache.add(k)]. *)
Definition timed_ignore_cache_add (k : string) : M unit :=
  w ← get_world;
  modify_self (λ a,
    Arr.set_timed_ignore_cache
      (ExpiringSet.add (clock w) k (Arr.timed_ignore_cache a)) a).

Definition _process_paused : M unit :=
  a ← get_self;
  if bool_decide (Arr.pause a ≠ ∅)
  then
    set_needs_cleanup true ;;
    emit (torrents_pause (Arr.pause a)) ;;
    modify_self (Arr.set_pause ∅)
  else pass.

Definition _process_errored : M unit :=
  a ← get_self;
  if bool_decide (Arr.recheck a ≠ ∅)
  then
    set_needs_cleanup true ;;
    let updated_recheck := elements (Arr.recheck a) in
    emit (torrents_recheck updated_recheck) ;;
    for_each updated_recheck timed_ignore_cache_add ;;
    modify_self (Arr.set_recheck ∅)
  else pass.

Definition _process_resume : M unit :=
  a ← get_self;
  if bool_decide (Arr.resume a ≠ ∅)
  then
    set_needs_cleanup true ;;
    emit (torrents_resume (Arr.resume a)) ;;
    for_each (elements (Arr.resume a)) timed_ignore_cache_add ;;
    modify_self (Arr.set_resume ∅)
  else pass.

(** One iteration of the loop of [_process_file_priority]. *)
Definition _process_file_priority_entry (entry : string * list Z) : M unit :=
  let '(hash_, files) := entry in
  set_needs_cleanup true ;;
  w ← get_world;
  (match qBitManager.name_cache (qbit_manager w) !! hash_ with
   | Some name =>
       if truthy name
       then emit (torrents_file_priority hash_ files 0)
       else emit (log_error ("Torrent does not exist? " +:+ hash_))
   | None => emit (log_error ("Torrent does not exist? " +:+ hash_))
   end) ;;
  modify_self (λ a,
    Arr.set_change_priority (base.delete hash_ (Arr.change_priority a)) a).

(** The loop runs over a copy of the dictionary taken before it starts. *)
Definition _process_file_priority : M unit :=
  a ← get_self;
  for_each (map_to_list (Arr.change_priority a)) _process_file_priority_entry.

Section imports.

(** [utils.validate_and_return_torrent_file] and [Path.exists]. *)
Context (validate_and_return_torrent_file : string → string).
Context (path_exists : string → bool).

Definition _process_imports_torrent (torrent : TorrentDictionary) : M unit :=
  a ← get_self;
  if bool_decide (Str (Torrent.hash torrent) ∈ Arr.sent_to_scan a)
  then pass
  else
    let path := validate_and_return_torrent_file (Torrent.content_path torrent) in
    if negb (path_exists path)
    then modify_self (λ a,
           Arr.set_skip_blacklist
             (Arr.skip_blacklist a ∪ {[upper (Torrent.hash torrent)]}) a)
    else if bool_decide (Path path ∈ Arr.sent_to_scan a)
    then pass
    else
      modify_self (λ a,
        Arr.set_sent_to_scan_hashes
          (Arr.sent_to_scan_hashes a ∪ {[Torrent.hash torrent]}) a) ;;
      post_command
        (DownloadedEpisodesScan path (upper (Torrent.hash torrent))
           (import_mode (Arr.config a))) ;;
      modify_self (λ a,
        Arr.set_sent_to_scan (Arr.sent_to_scan a ∪ {[Path path]}) a).

Definition _process_imports : M unit :=
  a ← get_self;
  match Arr.import_torrents a with
  | [] => pass
  | _ :: _ =>
      set_needs_cleanup true ;;
      for_each (Arr.import_torrents a) _process_imports_torrent ;;
      modify_self (Arr.set_import_torrents [])
  end.

End imports.

(** [process_entries]: the hashes that resolve through [self.cache], each
    with its queue id; the second component is the set of those hashes. *)
Definition process_entries (a : Arr.t) (hashes : gset string)
    : list (Z * string) * gset string :=
  (omap (λ h, (λ _id, (_id, upper h)) <$> Arr.cache a !! upper h)
        (elements hashes),
   filter (λ h, is_Some (Arr.cache a !! upper h)) hashes).

Definition _process_failed_individual (hash_ : string) (entry : Z)
    (skip_blacklist : gset string) : M unit :=
  (if negb (bool_decide (hash_ ∈ skip_blacklist))
   then delete_from_queue entry true true
   else delete_from_queue entry true false) ;;
  a ← get_self;
  match type (Arr.config a) with
  | sonarr =>
      match Arr.requeue_cache a !! entry with
      | Some ((first :: _) as object_id) =>
          emit (get_episode_by_episode_id first) ;;
          post_command (EpisodeSearch object_id)
      | _ => pass
      end
  | radarr =>
      match Arr.requeue_cache_movie a !! entry with
      | Some object_id =>
          if negb (object_id =? 0)
          then
            emit (get_movie_by_movie_id object_id) ;;
            post_command (MoviesSearch [object_id])
          else pass
      | None => pass
      end
  end.

(** [del d[h]] guarded by [h in d], for both supervisor caches. *)
Definition evict (h : string) : M unit :=
  modify_qbit_manager (λ q,
    qBitManager.mk
      (if bool_decide (is_Some (qBitManager.name_cache q !! h))
       then base.delete h (qBitManager.name_cache q)
       else qBitManager.name_cache q)
      (if bool_decide (is_Some (qBitManager.cache q !! h))
       then base.delete h (qBitManager.cache q)
       else qBitManager.cache q)).

Definition _process_failed : M unit :=
  a ← get_self;
  let to_delete_all := Arr.delete a ∪ Arr.skip_blacklist a in
  let skip_blacklist : gset string := set_map upper (Arr.skip_blacklist a) in
  (if bool_decide (to_delete_all ≠ ∅)
   then
     set_needs_cleanup true ;;
     let '(payload, hashes) := process_entries a to_delete_all in
     for_each payload (λ '(entry, hash_),
       _process_failed_individual hash_ entry skip_blacklist) ;;
     emit (torrents_delete to_delete_all true) ;;
     for_each (elements to_delete_all) evict
   else pass) ;;
  modify_self (Arr.set_skip_blacklist ∅) ;;
  modify_self (Arr.set_delete ∅).

(** ** Folder cleanup *)

(** What the file system shows during one cleanup.  The helper
    [utils.absolute_file_paths], [Path.is_dir] and [ffmpeg.probe] are
    outside this file; their answers are taken as given. *)
Inductive ProbeResult := probe_output | probe_no_output | probe_error.

Module DirEntry.
Record t := mk {
  path : string;
  is_dir : bool;
  probe : ProbeResult;          (* [ffmpeg.probe(path)] *)
  listing_empty : bool }.       (* [not len(list(absolute_file_paths(path)))] *)
End DirEntry.

Module FolderView.
Record t := mk {
  (* [absolute_file_paths(folder)] in [folder_cleanup] *)
  walk : list DirEntry.t;
  (* [absolute_file_paths(self.completed_folder)] in [_remove_empty_folders] *)
  walk_after_unlink : list DirEntry.t;
  (* [not len(list(absolute_file_paths(self.completed_folder)))] at its end *)
  completed_folder_empty : bool }.
End FolderView.

Definition file_is_probeable (file : DirEntry.t) : M bool :=
  w ← get_world;
  if negb (ffprobe_available w) then mret true
  else if bool_decide (DirEntry.path file ∈ Arr.files_probed (self w))
  then mret true
  else if DirEntry.is_dir file then mret false
  else
    match DirEntry.probe file with
    | probe_error => mret false
    | probe_no_output => mret false
    | probe_output =>
        modify_self (λ a,
          Arr.set_files_probed (Arr.files_probed a ∪ {[DirEntry.path file]}) a) ;;
        mret true
    end.

Definition _remove_empty_folders_entry (entry : DirEntry.t)
    (new_sent_to_scan : gset PyObj) : M (gset PyObj) :=
  if DirEntry.is_dir entry && DirEntry.listing_empty entry
  then
    emit (rmdir (DirEntry.path entry)) ;;
    a ← get_self;
    if bool_decide (Path (DirEntry.path entry) ∈ Arr.sent_to_scan a)
    then
      modify_self (λ a,
        Arr.set_sent_to_scan
          (Arr.sent_to_scan a ∖ {[Path (DirEntry.path entry)]}) a) ;;
      mret new_sent_to_scan
    else mret (new_sent_to_scan ∪ {[Path (DirEntry.path entry)]})
  else mret new_sent_to_scan.

Fixpoint _remove_empty_folders_loop (entries : list DirEntry.t)
    (new_sent_to_scan : gset PyObj) : M (gset PyObj) :=
  match entries with
  | [] => mret new_sent_to_scan
  | entry :: rest =>
      new_sent_to_scan ← _remove_empty_folders_entry entry new_sent_to_scan;
      _remove_empty_folders_loop rest new_sent_to_scan
  end.

Definition _remove_empty_folders (view : FolderView.t) : M unit :=
  new_sent_to_scan ← _remove_empty_folders_loop (FolderView.walk_after_unlink view) ∅;
  modify_self (Arr.set_sent_to_scan new_sent_to_scan) ;;
  if FolderView.completed_folder_empty view
  then
    modify_self (Arr.set_sent_to_scan ∅) ;;
    modify_self (Arr.set_sent_to_scan_hashes ∅)
  else pass.

Definition folder_cleanup_file (file : DirEntry.t) : M unit :=
  let name := pathlib.name (DirEntry.path file) in
  if bool_decide (name = "desktop.ini") || bool_decide (name = ".DS_Store")
  then pass
  else if DirEntry.is_dir file then pass
  else
    a ← get_self;
    keep ← (if bool_decide (pathlib.suffix (DirEntry.path file)
                              ∈ file_extension_allowlist (Arr.config a))
            then file_is_probeable file
            else mret false);
    if keep : bool then pass else emit (unlink (DirEntry.path file)).

Definition folder_cleanup (view : FolderView.t) : M unit :=
  a ← get_self;
  if negb (auto_delete (Arr.config a)) then pass
  else if negb (Arr.needs_cleanup a) then pass
  else
    for_each (FolderView.walk view) folder_cleanup_file ;;
    _remove_empty_folders view ;;
    set_needs_cleanup false.

Section process.

Context (validate_and_return_torrent_file : string → string).
Context (path_exists : string → bool).

Definition process (view : FolderView.t) : M unit :=
  _process_paused ;;
  _process_errored ;;
  _process_file_priority ;;
  _process_imports validate_and_return_torrent_file path_exists ;;
  _process_failed ;;
  folder_cleanup view.

(** [process_torrents] once the manager has answered the health probe:
    the queue is fetched, every torrent of the snapshot is classified,
    then the intents are flushed.  ([api_calls] and the two delay checks
    before it touch none of the attributes modelled here.) *)
Definition process_torrents (FAILED_CATEGORY RECHECK_CATEGORY : string)
    (queue : list QueueEntry.t) (time_now : Q)
    (torrents : list TorrentDictionary) (view : FolderView.t) : M unit :=
  refresh_download_queue queue ;;
  classify_all FAILED_CATEGORY RECHECK_CATEGORY time_now torrents ;;
  process view.

End process.

(** ** The search scheduler *)

(** A row of the manager's [Commands] table. *)
Module CommandsModel.
Record t := mk { Name : string; EndedAt : option Z }.
End CommandsModel.

(** A row of the manager's [Episodes] or [Movies] table as [db_update]
    reads it: its id and its [EpisodeFileId] or [MovieFileId]. *)
Module ArrFile.
Record t := mk { Id : Z; FileId : Z }.
End ArrFile.

(** A row of the local [Files] table as [maybe_do_search] reads it. *)
Module FilesModel.
Record t := mk { EntryId : Z }.
End FilesModel.

Definition endswith (s suffix : string) : bool :=
  let n := String.length s in
  let k := String.length suffix in
  (k <=? n)%nat && String.eqb (substring (n - k) k s) suffix.

Definition register_search_mode (arr_db_file_exists : bool) : M unit :=
  a ← get_self;
  if Arr.search_setup_completed a then pass
  else if negb (Arr.search_missing a)
  then modify_self (Arr.set_search_setup_completed true)
  else if negb arr_db_file_exists
  then modify_self (Arr.set_search_missing false)
  else
    emit (db_connect (arr_db_file (Arr.config a))) ;;
    emit (db_connect (search_db_file (Arr.config a))) ;;
    emit db_create_tables ;;
    modify_self (Arr.set_search_setup_completed true).

(** [Name.endswith("Search")] in a query: the database runs it as
    [Name LIKE '%Search'], and [LIKE] does not tell an ASCII capital from
    its small letter. *)
Definition like_endswith (s suffix : string) : bool :=
  endswith (lower s) (lower suffix).

(** The rows of the [Commands] table with [EndedAt IS NULL] and a name
    that ends in [Search], counted. *)
Definition active_search_commands (commands : list CommandsModel.t) : Z :=
  Z.of_nat (length
    (filter (λ c, CommandsModel.EndedAt c = None
                  ∧ like_endswith (CommandsModel.Name c) "Search" = true)
            commands)).

(** [commands] is the [Commands] table of the catalog at the time of the
    call. *)
Definition arr_db_query_commands_count (commands : list CommandsModel.t)
    : M Z :=
  a ← get_self;
  if negb (Arr.search_missing a) then mret 0
  else mret (active_search_commands commands).

(** The rows [model_queue.select().where(completed == False, EntryId == id)]. *)
Definition pending_rows (id : Z) (rows : list QueueModel.t)
    : list QueueModel.t :=
  filter (λ r, QueueModel.completed r = false ∧ QueueModel.EntryId r = id) rows.

Definition queue_insert (id : Z) : M unit :=
  modify_model_queue (λ rows, (rows ++ [QueueModel.mk id false])%list).

Definition client_post (c : Command) : M unit := emit (client_post_command c).

(** [maybe_do_search]: [None], [True] or [False] as in the source. *)
Definition maybe_do_search (commands : list CommandsModel.t)
    (file_model : FilesModel.t) : M (option bool) :=
  w ← get_world;
  let a := self w in
  let id := FilesModel.EntryId file_model in
  if negb (Arr.search_missing a) then mret None
  else
    match type (Arr.config a) with
    | sonarr =>
        let queue := pending_rows id (model_queue w) in
        if bool_decide (queue ≠ []) then mret (Some true)
        else
          active_commands ← arr_db_query_commands_count commands;
          if search_command_limit (Arr.config a) <=? active_commands
          then mret (Some false)
          else
            queue_insert id ;;
            client_post (EpisodeSearch [id]) ;;
            mret (Some true)
    | radarr =>
        let queue := pending_rows id (model_queue w) in
        active_commands ← arr_db_query_commands_count commands;
        if bool_decide (queue ≠ []) then mret (Some true)
        else if search_command_limit (Arr.config a) <=? active_commands
        then mret (Some false)
        else
          queue_insert id ;;
          client_post (MoviesSearch [id]) ;;
          mret (Some true)
    end.

(** [while self.maybe_do_search(entry) is False: time.sleep(30)].  Each
    call sees the [Commands] table of its moment; the list of those
    tables bounds the number of calls.  The result tells whether the loop
    was left ([true]) or is still waiting when the list ends. *)
Fixpoint search_entry (observations : list (list CommandsModel.t))
    (entry : FilesModel.t) : M bool :=
  match observations with
  | [] => mret false
  | commands :: later =>
      r ← maybe_do_search commands entry;
      match r with
      | Some false => emit (sleep 30) ;; search_entry later entry
      | _ => mret true
      end
  end.

(** [for entry in self.db_get_files(): ...]; stops where an entry is
    still waiting. *)
Fixpoint search_entries
    (entries : list (FilesModel.t * list (list CommandsModel.t))) : M bool :=
  match entries with
  | [] => mret true
  | (entry, observations) :: rest =>
      left_loop ← search_entry observations entry;
      if left_loop : bool then search_entries rest else mret false
  end.

Definition db_update_single_series (db_entry : ArrFile.t) : M unit :=
  a ← get_self;
  if negb (Arr.search_missing a) then pass
  else
    (if negb (ArrFile.FileId db_entry =? 0)
     then modify_model_queue
            (map (λ r, if QueueModel.EntryId r =? ArrFile.Id db_entry
                       then QueueModel.mk (QueueModel.EntryId r) true
                       else r))
     else pass) ;;
    match type (Arr.config a) with
    | sonarr => emit (get_episode_by_episode_id (ArrFile.Id db_entry))
    | radarr => pass
    end.

(** [no_files] is [not len(list(self.db_get_files()))]. *)
Definition _update_current_year (no_files : bool) : M unit :=
  a ← get_self;
  if negb (Arr.search_missing a) then pass
  else if no_files
  then modify_self (λ a,
         Arr.set_search_current_year
           (Arr.search_current_year a + _delta (Arr.config a)) a)
  else pass.

Definition db_update (selected : list ArrFile.t) (no_files : bool) : M unit :=
  a ← get_self;
  if negb (Arr.search_missing a) then pass
  else
    for_each selected db_update_single_series ;;
    _update_current_year no_files.

(** What one turn of [while True] meets: the catalog rows [db_update]
    selects; the local [Files] table as it is once the update is done,
    given by what [db_get_files] yields from it for a year, each
    candidate with the [Commands] tables seen while it is tried; and, when
    the [try] block is left by an exception, the number of candidates that
    were worked off before it. *)
Module Pass.
Record t := mk {
  selected : list ArrFile.t;
  files : Z → list (FilesModel.t * list (list CommandsModel.t));
  raises : option nat }.

(** [db_get_files] as [_update_current_year] calls it, for the year of
    that moment. *)
Definition no_files (p : t) (a : Arr.t) : bool :=
  bool_decide (files p (Arr.search_current_year a) = []).

(** The candidates the [for] loop gets through: [db_get_files] for the
    year [db_update] has left, up to the exception if there is one. *)
Definition entries (p : t) (a : Arr.t)
    : list (FilesModel.t * list (list CommandsModel.t)) :=
  let found := files p (Arr.search_current_year a) in
  match raises p with
  | Some n => take n found
  | None => found
  end.

End Pass.

(** [self.search_current_year += self._delta]. *)
Definition step_year : M unit :=
  modify_self (λ a,
    Arr.set_search_current_year
      (Arr.search_current_year a + _delta (Arr.config a)) a).

(** The test that follows: past the stopping year the year is set back. *)
Definition wrap_year (count_start stopping_year : Z) : M unit :=
  a ← get_self;
  if search_in_reverse (Arr.config a)
  then
    if stopping_year <? Arr.search_current_year a
    then modify_self (Arr.set_search_current_year count_start) ;;
         emit (sleep 60)
    else pass
  else
    if Arr.search_current_year a <? stopping_year
    then modify_self (Arr.set_search_current_year count_start) ;;
         emit (sleep 60)
    else pass.

(** The end of the [try] block: the year moves by [_delta] and wraps. *)
Definition advance_year (count_start stopping_year : Z) : M unit :=
  step_year ;; wrap_year count_start stopping_year.

(** One turn of [while True]; [false] when it is still waiting inside. *)
Definition search_pass (count_start stopping_year : Z) (p : Pass.t) : M bool :=
  a ← get_self;
  db_update (Pass.selected p) (Pass.no_files p a) ;;
  a ← get_self;
  left_loop ← search_entries (Pass.entries p a);
  if left_loop : bool
  then
    match Pass.raises p with
    | Some _ => emit (log_error "exception in search loop")
    | None => advance_year count_start stopping_year
    end ;;
    mret true
  else mret false.

(** The turns of [while True] the environment offers, one after the
    other; [false] when one of them is still waiting inside. *)
Fixpoint search_passes (count_start stopping_year : Z) (passes : list Pass.t)
    : M bool :=
  match passes with
  | [] => mret true
  | p :: later =>
      left_loop ← search_pass count_start stopping_year p;
      if left_loop : bool
      then search_passes count_start stopping_year later
      else mret false
  end.

(** Where [run_search_loop] stands after those turns: it has returned, it
    is at the head of [while True], or it waits in the inner loop. *)
Inductive LoopStatus := returned | looping | waiting.

(** [run_search_loop]; [now_year] is [datetime.now().year] at its start. *)
Definition run_search_loop (arr_db_file_exists : bool) (now_year : Z)
    (passes : list Pass.t) : M LoopStatus :=
  register_search_mode arr_db_file_exists ;;
  a ← get_self;
  if negb (Arr.search_missing a) then mret returned
  else
    let count_start := Arr.search_current_year a in
    let stopping_year :=
      if search_in_reverse (Arr.config a) then now_year else 1900 in
    at_head ← search_passes count_start stopping_year passes;
    mret (if at_head : bool then looping else waiting).

Inductive Process := process_search_loop | process_torrent_loop.

(** The processes [spawn_child_processes] starts, in order. *)
Definition spawn_child_processes (a : Arr.t) : list Process :=
  (if Arr.search_missing a then [process_search_loop] else [])
  ++ [process_torrent_loop].

(** ** The supervisor: [Arr.__init__] and [ArrManager.build_arr_instances] *)

(** A key of the configuration file read through a converter
    ([getboolean], [getint], [getfloat], [getyear]): it is absent, or its
    text is one the converter refuses, or it gives a value. *)
Module Setting.
Inductive t (A : Type) :=
  | absent
  | malformed
  | value (a : A).
Arguments absent {A}.
Arguments malformed {A}.
Arguments value {A} a.
End Setting.

(** A section of the configuration file; [None] is a key that is absent. *)
Module ConfigSection.
Record t := mk {
  key : string;
  Managed : Setting.t bool;
  URI : option string;
  Category : option string;
  APIKey : option string;
  Research : Setting.t bool;
  importMode : option string;
  RefreshDownloadsTimer : Setting.t Z;
  RssSyncTimer : Setting.t Z;
  CaseSensitiveMatches : Setting.t bool;
  FolderExclusionRegex : option (list string);
  FileNameExclusionRegex : option (list string);
  FileExtensionAllowlist : option (list string);
  AutoDelete : Setting.t bool;
  IgnoreTorrentsYoungerThan : Setting.t Z;
  MaximumETA : Setting.t Z;
  MaximumDeletablePercentage : Setting.t Q;
  SearchMissing : Setting.t bool;
  AlsoSearchSpecials : Setting.t bool;
  SearchByYear : Setting.t bool;
  SearchInReverse : Setting.t bool;
  StartYear : Setting.t Z;
  LastYear : Setting.t Z;
  SearchLimit : Setting.t Z;
  DatabaseFile : option string }.
End ConfigSection.

(** The exceptions that leave [Arr.__init__] or [PlaceHolderArr.__init__]:
    the three kinds [build_arr_instances] has an [except] clause for, and
    four it has none for: [ValueError] from a converter, [re.error] from
    [re.compile], [TypeError] from calling a client class that is [None],
    and the [AssertionError] of an expiring set whose age is not
    positive. *)
Inductive Exception :=
  | EnvironmentError (msg : string)
  | SkipException
  | NoOptionError (option_ : string)
  | ValueError (option_ : string)
  | re_error (pattern : string)
  | TypeError
  | AssertionError.

(** A reconciler registered in [managed_objects]. *)
Inductive ManagedArr :=
  | RealArr (a : Arr.t)
  | PlaceHolderArr (name : string).

Module ArrManager.
Record t := mk {
  groups : gset string;
  uris : gset string;
  managed_objects : gmap string ManagedArr;
  logged : list Exception }.
End ArrManager.

(** A constructor that raises leaves through [inl]. *)
#[global] Instance Exception_bind : MBind (sum Exception) :=
  λ A B f m, match m with inl e => inl e | inr x => f x end.

(** [CONFIG.get(name, option)] without [fallback]. *)
Definition required {A} (option_ : string) (v : option A)
    : Exception + A :=
  match v with
  | Some x => inr x
  | None => inl (NoOptionError option_)
  end.

Definition fallback {A} (v : option A) (d : A) : A := default d v.

(** [CONFIG.getboolean(name, option)] and the other converters: a text
    the converter refuses raises [ValueError], with [fallback] or not; the
    fallback stands in for an absent key only. *)
Definition converted {A} (option_ : string) (v : Setting.t A)
    : Exception + A :=
  match v with
  | Setting.value x => inr x
  | Setting.malformed => inl (ValueError option_)
  | Setting.absent => inl (NoOptionError option_)
  end.

Definition converted_or {A} (option_ : string) (v : Setting.t A) (d : A)
    : Exception + A :=
  match v with
  | Setting.value x => inr x
  | Setting.malformed => inl (ValueError option_)
  | Setting.absent => inr d
  end.

Definition raise_if {A} (b : bool) (e : Exception) (k : Exception + A)
    : Exception + A :=
  if b then inl e else k.

Section supervisor.

(** Global settings, the two tests of [re] on a compiled pattern (with
    the flag [IGNORECASE] or not), [Path.exists], whether [re.compile]
    takes a pattern, and the key [IgnoreTorrentsYoungerThan] of the
    section [Settings]. *)
Context (FAILED_CATEGORY RECHECK_CATEGORY : string).
Context (COMPLETED_DOWNLOAD_FOLDER APPDATA_FOLDER : string).
Context (re_match re_search_ : bool → string → string → bool).
Context (path_exists : string → bool).
Context (re_compiles : string → bool).
Context (IGNORE_TORRENTS_YOUNGER_THAN : Setting.t Z).

Definition joinpath (folder child : string) : string :=
  folder +:+ "/" +:+ child.

(** [re.compile("|".join(patterns), flags)]. *)
Definition re_compile {A} (patterns : list string) (k : Exception + A)
    : Exception + A :=
  let pattern := String.concat "|" patterns in
  raise_if (negb (re_compiles pattern)) (re_error pattern) k.

(** [Arr.__init__]: the new object, or the exception it raises.
    [client_cls] is [None] when [build_arr_instances] found no class. *)
Definition Arr__init__ (name : string) (s : ConfigSection.t)
    (manager : ArrManager.t) (client_cls : option ArrType)
    : Exception + Arr.t :=
  raise_if (bool_decide (name ∈ ArrManager.groups manager))
    (EnvironmentError "Group has already been registered.") (
  managed ← converted "Managed" (ConfigSection.Managed s);
  raise_if (negb managed) SkipException (
  uri ← required "URI" (ConfigSection.URI s);
  raise_if (bool_decide (uri ∈ ArrManager.uris manager))
    (EnvironmentError "URI has already been registered.") (
  let category := fallback (ConfigSection.Category s) name in
  let completed_folder := joinpath COMPLETED_DOWNLOAD_FOLDER category in
  raise_if (negb (path_exists completed_folder))
    (EnvironmentError "completed folder is a requirement") (
  apikey ← required "APIKey" (ConfigSection.APIKey s);
  re_search ← converted "Research" (ConfigSection.Research s);
  let import_mode := fallback (ConfigSection.importMode s) "Move" in
  refresh_downloads_timer ←
    converted_or "RefreshDownloadsTimer"
      (ConfigSection.RefreshDownloadsTimer s) 1;
  rss_sync_timer ←
    converted_or "RssSyncTimer" (ConfigSection.RssSyncTimer s) 15;
  case_sensitive_matches ←
    converted "CaseSensitiveMatches" (ConfigSection.CaseSensitiveMatches s);
  folder_exclusion_regex ←
    required "FolderExclusionRegex" (ConfigSection.FolderExclusionRegex s);
  file_name_exclusion_regex ←
    required "FileNameExclusionRegex" (ConfigSection.FileNameExclusionRegex s);
  file_extension_allowlist ←
    required "FileExtensionAllowlist" (ConfigSection.FileExtensionAllowlist s);
  auto_delete ←
    converted_or "AutoDelete" (ConfigSection.AutoDelete s) false;
  ignore_torrents_younger_than ←
    converted_or "IgnoreTorrentsYoungerThan"
      (ConfigSection.IgnoreTorrentsYoungerThan s) 600;
  maximum_eta ← converted_or "MaximumETA" (ConfigSection.MaximumETA s) 86400;
  maximum_deletable_percentage ←
    converted_or "MaximumDeletablePercentage"
      (ConfigSection.MaximumDeletablePercentage s) (95 # 100)%Q;
  search_missing ← converted "SearchMissing" (ConfigSection.SearchMissing s);
  search_specials ←
    converted "AlsoSearchSpecials" (ConfigSection.AlsoSearchSpecials s);
  search_by_year ← converted "SearchByYear" (ConfigSection.SearchByYear s);
  search_in_reverse ←
    converted "SearchInReverse" (ConfigSection.SearchInReverse s);
  search_starting_year ← converted "StartYear" (ConfigSection.StartYear s);
  search_ending_year ← converted "LastYear" (ConfigSection.LastYear s);
  search_command_limit ←
    converted_or "SearchLimit" (ConfigSection.SearchLimit s) 5;
  let '(search_current_year, _delta) :=
    if search_in_reverse : bool
    then (search_ending_year, 1)
    else (search_starting_year, -1) in
  arr_db_file ← required "DatabaseFile" (ConfigSection.DatabaseFile s);
  let search_db_file := joinpath APPDATA_FOLDER (name +:+ ".db") in
  let flags := negb case_sensitive_matches in
  re_compile folder_exclusion_regex (
  re_compile file_name_exclusion_regex (
  type ← match client_cls with
         | Some cls => inr cls
         | None => inl TypeError
         end;
  let config := {|
    _name := name; uri := uri; apikey := apikey; category := category;
    completed_folder := completed_folder; type := type;
    re_search := re_search; import_mode := import_mode;
    refresh_downloads_timer := refresh_downloads_timer;
    rss_sync_timer := rss_sync_timer;
    case_sensitive_matches := case_sensitive_matches;
    auto_delete := auto_delete;
    file_extension_allowlist := file_extension_allowlist;
    folder_exclusion_regex_re :=
      re_match flags (String.concat "|" folder_exclusion_regex);
    file_name_exclusion_regex_re :=
      re_search_ flags (String.concat "|" file_name_exclusion_regex);
    ignore_torrents_younger_than := ignore_torrents_younger_than;
    maximum_eta := maximum_eta;
    maximum_deletable_percentage := maximum_deletable_percentage;
    search_specials := search_specials; search_by_year := search_by_year;
    search_in_reverse := search_in_reverse;
    search_starting_year := search_starting_year;
    search_ending_year := search_ending_year;
    search_command_limit := search_command_limit;
    _delta := _delta; arr_db_file := arr_db_file;
    search_db_file := search_db_file |} in
  raise_if (negb (0 <? ignore_torrents_younger_than)) AssertionError (
  inr {|
    Arr.config := config;
    Arr.search_missing := search_missing;
    Arr.search_current_year := search_current_year;
    Arr.search_setup_completed := false;
    Arr.cache := ∅; Arr.requeue_cache := ∅; Arr.requeue_cache_movie := ∅;
    Arr.sent_to_scan := ∅; Arr.sent_to_scan_hashes := ∅;
    Arr.files_probed := ∅; Arr.import_torrents := [];
    Arr.change_priority := ∅; Arr.recheck := ∅; Arr.pause := ∅;
    Arr.skip_blacklist := ∅; Arr.delete := ∅; Arr.resume := ∅;
    Arr.needs_cleanup := false;
    Arr.timed_ignore_cache := ExpiringSet.empty ignore_torrents_younger_than;
    Arr.timed_skip := ExpiringSet.empty ignore_torrents_younger_than |}))))))).

(** The long s (U+017F) as the configuration file holds it, in UTF-8. *)
Definition long_s : string :=
  String (ascii_of_nat 197) (String (ascii_of_nat 191) "").

(** [re.match("(rad|son)arr.*", key, re.IGNORECASE)] and the choice of
    the client class from the first group; the matched text is the section
    name (a name holds no line break).  With [IGNORECASE] the [s] of the
    pattern also matches the long s, which [lower()] leaves as it is: the
    group is then neither [son] nor [rad], and the class is [None]. *)
Definition section_match (key : string) : option (option ArrType) :=
  let head := lower (substring 0 6 key) in
  if String.eqb head "sonarr" then Some (Some sonarr)
  else if String.eqb head "radarr" then Some (Some radarr)
  else if String.eqb (substring 0 2 key) long_s
          && String.eqb (lower (substring 2 5 key)) "onarr"
  then Some None
  else None.

(** [logger.exception(e)] in a handler of [build_arr_instances]. *)
Definition log_exception (e : Exception) (manager : ArrManager.t)
    : ArrManager.t :=
  ArrManager.mk (ArrManager.groups manager) (ArrManager.uris manager)
    (ArrManager.managed_objects manager) (ArrManager.logged manager ++ [e]).

(** The [try] statement in the loop of [build_arr_instances]: the manager
    after it, or the exception no clause catches. *)
Definition build_arr_instance (manager : ArrManager.t) (s : ConfigSection.t)
    : Exception + ArrManager.t :=
  match section_match (ConfigSection.key s) with
  | None => inr manager
  | Some call_cls =>
      let name := ConfigSection.key s in
      match Arr__init__ name s manager call_cls with
      | inr managed_object =>
          inr (ArrManager.mk
                 (ArrManager.groups manager ∪ {[name]})
                 (ArrManager.uris manager ∪ {[uri (Arr.config managed_object)]})
                 (<[category (Arr.config managed_object) := RealArr managed_object]>
                    (ArrManager.managed_objects manager))
                 (ArrManager.logged manager))
      | inl (NoOptionError option_) =>
          inr (log_exception (NoOptionError option_) manager)
      | inl SkipException => inr manager
      | inl (EnvironmentError msg) =>
          inr (log_exception (EnvironmentError msg) manager)
      | inl e => inl e
      end
  end.

(** [for key in CONFIG.sections()]. *)
Fixpoint build_arr_instances_loop (CONFIG : list ConfigSection.t)
    (manager : ArrManager.t) : Exception + ArrManager.t :=
  match CONFIG with
  | [] => inr manager
  | s :: rest =>
      manager ← build_arr_instance manager s;
      build_arr_instances_loop rest manager
  end.

(** [PlaceHolderArr.__init__] raises on a name that is a group, on a
    global [IgnoreTorrentsYoungerThan] that is no number, and on one that
    is not positive. *)
Definition PlaceHolderArr__init__ (name : string) (manager : ArrManager.t)
    : Exception + ManagedArr :=
  raise_if (bool_decide (name ∈ ArrManager.groups manager))
    (EnvironmentError "Group has already been registered.") (
  ignore_torrents_younger_than ←
    converted_or "IgnoreTorrentsYoungerThan" IGNORE_TORRENTS_YOUNGER_THAN 600;
  raise_if (negb (0 <? ignore_torrents_younger_than)) AssertionError (
  inr (PlaceHolderArr name))).

Fixpoint build_placeholders (cats : list string) (manager : ArrManager.t)
    : Exception + ArrManager.t :=
  match cats with
  | [] => inr manager
  | cat :: rest =>
      managed_object ← PlaceHolderArr__init__ cat manager;
      build_placeholders rest
        (ArrManager.mk (ArrManager.groups manager)
           (ArrManager.uris manager)
           (<[cat := managed_object]> (ArrManager.managed_objects manager))
           (ArrManager.logged manager))
  end.

Definition special_categories : gset string :=
  {[FAILED_CATEGORY; RECHECK_CATEGORY]}.

(** [build_arr_instances]: the manager it returns, or the exception
    that leaves it. *)
Definition build_arr_instances (CONFIG : list ConfigSection.t)
    (manager : ArrManager.t) : Exception + ArrManager.t :=
  manager ← build_arr_instances_loop CONFIG manager;
  build_placeholders (elements special_categories) manager.

End supervisor.

(** * Properties *)

(** ** Reasoning about computations in [M] *)

Lemma exec_bind {A B} (m : M A) (f : A → M B) (w : World) :
  exec (m ≫= f) w = exec (f (eval m w)) (exec m w).
Proof.
  unfold exec, eval, mbind, M_bind. by destruct (m w).
Qed.

Lemma eval_bind {A B} (m : M A) (f : A → M B) (w : World) :
  eval (m ≫= f) w = eval (f (eval m w)) (exec m w).
Proof.
  unfold exec, eval, mbind, M_bind. by destruct (m w).
Qed.

Lemma exec_for_each_cons {A} (x : A) (xs : list A) (body : A → M unit) w :
  exec (for_each (x :: xs) body) w = exec (for_each xs body) (exec (body x) w).
Proof. simpl. by rewrite exec_bind. Qed.

Lemma exec_for_each_app {A} (xs ys : list A) (body : A → M unit) w :
  exec (for_each (xs ++ ys) body) w
  = exec (for_each ys body) (exec (for_each xs body) w).
Proof.
  revert w. induction xs as [|x xs IH]; intros w; [done|].
  rewrite <- app_comm_cons, !exec_for_each_cons. apply IH.
Qed.

(** Runs a computation on a world given by its fields. *)
Ltac unfold_M :=
  unfold exec, eval, mbind, M_bind, mret, M_ret, pass, get_self, get_world,
    modify_self, modify_qbit_manager, modify_model_queue, emit in *;
  simpl in *.

(** A relation between the world before and after that every step of a
    computation keeps. *)
Definition preserves {A} (R : relation World) (m : M A) : Prop :=
  ∀ w, R w (exec m w).

Section preserves.

Context (R : relation World) `{!Reflexive R, !Transitive R}.

Lemma preserves_mret {A} (x : A) : preserves R (mret x).
Proof. intros w. reflexivity. Qed.

Lemma preserves_pass : preserves R pass.
Proof. apply preserves_mret. Qed.

Lemma preserves_get_self : preserves R get_self.
Proof. intros w. reflexivity. Qed.

Lemma preserves_get_world : preserves R get_world.
Proof. intros w. reflexivity. Qed.

Lemma preserves_bind {A B} (m : M A) (f : A → M B) :
  preserves R m → (∀ x, preserves R (f x)) → preserves R (m ≫= f).
Proof.
  intros Hm Hf w. rewrite exec_bind.
  transitivity (exec m w); [apply Hm | apply Hf].
Qed.

Lemma preserves_for_each {A} (xs : list A) (body : A → M unit) :
  (∀ x, preserves R (body x)) → preserves R (for_each xs body).
Proof.
  intros Hbody. induction xs as [|x xs IH]; simpl.
  - apply preserves_pass.
  - apply preserves_bind; auto.
Qed.

End preserves.

(** Breaks a computation down to its [modify_self], [modify_qbit_manager],
    [modify_model_queue] and [emit] steps. *)
Ltac preserves_step :=
  match goal with
  | |- ∀ _, _ => intros ?
  | |- preserves _ (_ ≫= _) => apply preserves_bind; try solve [apply _]
  | |- preserves _ (for_each _ _) =>
      apply preserves_for_each; try solve [apply _]
  | |- preserves _ (mret _) => apply preserves_mret; apply _
  | |- preserves _ pass => apply preserves_pass; apply _
  | |- preserves _ get_self => apply preserves_get_self; apply _
  | |- preserves _ get_world => apply preserves_get_world; apply _
  | |- preserves _ (if ?b then _ else _) => destruct b
  | |- preserves _ (match ?x with _ => _ end) => destruct x
  end.

(** What a computation leaves as it found it. *)
Definition keeps {B} (F : World → B) (w w' : World) : Prop := F w' = F w.

#[local] Instance keeps_refl {B} (F : World → B) : Reflexive (keeps F).
Proof. by intros w. Qed.

#[local] Instance keeps_trans {B} (F : World → B) : Transitive (keeps F).
Proof. unfold keeps. intros w1 w2 w3 ? ?. congruence. Qed.

Ltac keeps_leaf :=
  solve [ unfold preserves, keeps; intros [[] ? ? ? ? ? ?]; reflexivity ].

Ltac keeps_tac := repeat first [ preserves_step | keeps_leaf ].

(** ** The flush never resumes *)

(** The arguments of the [torrents_resume] calls of a trace. *)
Definition resumed (t : list event) : list (gset string) :=
  omap (λ e, match e with torrents_resume s => Some s | _ => None end) t.

Definition keeps_resume (w w' : World) : Prop :=
  Arr.resume (self w') = Arr.resume (self w)
  ∧ resumed (trace w') = resumed (trace w).

#[local] Instance keeps_resume_refl : Reflexive keeps_resume.
Proof. by intros w. Qed.

#[local] Instance keeps_resume_trans : Transitive keeps_resume.
Proof. intros w1 w2 w3 [? ?] [? ?]. split; congruence. Qed.

Lemma keeps_resume_emit e :
  (∀ s, e ≠ torrents_resume s) → preserves keeps_resume (emit e).
Proof.
  intros He w. split; [done|]. unfold exec, emit, resumed. simpl.
  rewrite omap_app. simpl. destruct e; try by rewrite app_nil_r.
  by edestruct He.
Qed.

Lemma keeps_resume_modify_self f :
  (∀ a, Arr.resume (f a) = Arr.resume a) →
  preserves keeps_resume (modify_self f).
Proof. intros Hf w. split; [apply Hf|done]. Qed.

Lemma keeps_resume_modify_qbit_manager f :
  preserves keeps_resume (modify_qbit_manager f).
Proof. by intros w. Qed.

Ltac keeps_resume_leaf :=
  first
    [ apply keeps_resume_modify_qbit_manager
    | apply keeps_resume_modify_self; by intros []
    | apply keeps_resume_emit; by intros ? ].

Ltac keeps_resume_tac :=
  repeat first [ preserves_step | keeps_resume_leaf ].

Lemma _process_paused_keeps_resume : preserves keeps_resume _process_paused.
Proof. unfold _process_paused, set_needs_cleanup. keeps_resume_tac. Qed.

Lemma _process_errored_keeps_resume : preserves keeps_resume _process_errored.
Proof.
  unfold _process_errored, set_needs_cleanup, timed_ignore_cache_add.
  keeps_resume_tac.
Qed.

Lemma _process_file_priority_keeps_resume :
  preserves keeps_resume _process_file_priority.
Proof.
  unfold _process_file_priority. keeps_resume_tac.
  unfold _process_file_priority_entry, set_needs_cleanup. keeps_resume_tac.
Qed.

Lemma _process_imports_keeps_resume validate path_exists :
  preserves keeps_resume (_process_imports validate path_exists).
Proof.
  unfold _process_imports, set_needs_cleanup. keeps_resume_tac.
  unfold _process_imports_torrent, post_command. keeps_resume_tac.
Qed.

Lemma _process_failed_individual_keeps_resume hash_ entry skip :
  preserves keeps_resume (_process_failed_individual hash_ entry skip).
Proof.
  unfold _process_failed_individual, delete_from_queue, post_command.
  keeps_resume_tac.
Qed.

Lemma _process_failed_keeps_resume : preserves keeps_resume _process_failed.
Proof.
  unfold _process_failed, set_needs_cleanup, evict. keeps_resume_tac.
  apply _process_failed_individual_keeps_resume.
Qed.

Lemma _remove_empty_folders_loop_keeps_resume entries acc :
  preserves keeps_resume (_remove_empty_folders_loop entries acc).
Proof.
  revert acc. induction entries as [|entry rest IH]; intros acc; simpl.
  - keeps_resume_tac.
  - apply preserves_bind; [apply _| |done].
    unfold _remove_empty_folders_entry. keeps_resume_tac.
Qed.

Lemma folder_cleanup_keeps_resume view :
  preserves keeps_resume (folder_cleanup view).
Proof.
  unfold folder_cleanup, set_needs_cleanup. keeps_resume_tac.
  - unfold folder_cleanup_file, file_is_probeable. keeps_resume_tac.
  - unfold _remove_empty_folders.
    apply preserves_bind;
      [apply _|apply _remove_empty_folders_loop_keeps_resume|].
    keeps_resume_tac.
Qed.

(** C2: whatever the intents are, [process] leaves the set [resume] as it
    found it and makes no [torrents_resume] call, although the classifier
    fills that set and [_process_resume] exists: the step is missing from
    the flush. *)
Theorem process_never_resumes validate path_exists view w :
  let w' := exec (process validate path_exists view) w in
  Arr.resume (self w') = Arr.resume (self w)
  ∧ resumed (trace w') = resumed (trace w).
Proof.
  revert w. change (preserves keeps_resume (process validate path_exists view)).
  unfold process.
  repeat (apply preserves_bind; [apply _| |intros _]);
    auto using _process_paused_keeps_resume, _process_errored_keeps_resume,
      _process_file_priority_keeps_resume, _process_imports_keeps_resume,
      _process_failed_keeps_resume, folder_cleanup_keeps_resume.
Qed.

(** ** File priorities of hashes without a name *)

(** The call or log line one entry of [change_priority] leads to. *)
Definition file_priority_event (name_cache : gmap string string)
    (entry : string * list Z) : event :=
  match name_cache !! entry.1 with
  | Some name =>
      if truthy name then torrents_file_priority entry.1 entry.2 0
      else log_error ("Torrent does not exist? " +:+ entry.1)
  | None => log_error ("Torrent does not exist? " +:+ entry.1)
  end.

Lemma _process_file_priority_entry_spec entry w :
  let w' := exec (_process_file_priority_entry entry) w in
  trace w' = trace w ++ [file_priority_event (qBitManager.name_cache (qbit_manager w)) entry]
  ∧ qbit_manager w' = qbit_manager w
  ∧ Arr.change_priority (self w')
    = base.delete entry.1 (Arr.change_priority (self w)).
Proof.
  destruct entry as [hash_ files], w as [a q mo ff mq tr ck].
  unfold _process_file_priority_entry, file_priority_event, set_needs_cleanup.
  unfold_M.
  destruct (qBitManager.name_cache q !! hash_) as [name|]; simpl;
    [destruct (truthy name)|]; simpl; by destruct a.
Qed.

Lemma _process_file_priority_loop_spec entries w :
  let w' := exec (for_each entries _process_file_priority_entry) w in
  trace w' = trace w ++ map (file_priority_event (qBitManager.name_cache (qbit_manager w))) entries
  ∧ qbit_manager w' = qbit_manager w
  ∧ Arr.change_priority (self w')
    = foldl (λ m e, base.delete e.1 m) (Arr.change_priority (self w)) entries.
Proof.
  revert w. induction entries as [|entry rest IH]; intros w.
  - simpl. by rewrite app_nil_r.
  - cbv zeta. rewrite exec_for_each_cons.
    destruct (_process_file_priority_entry_spec entry w) as (Ht & Hq & Hc).
    destruct (IH (exec (_process_file_priority_entry entry) w)) as (Ht' & Hq' & Hc').
    rewrite Ht', Hq', Hc', Ht, Hq, Hc. simpl.
    by rewrite <- app_assoc.
Qed.

Lemma lookup_foldl_delete {V} (m : gmap string V) (l : list (string * V)) k :
  foldl (λ m e, base.delete e.1 m) m l !! k
  = if bool_decide (k ∈ l.*1) then None else m !! k.
Proof.
  revert m. induction l as [|[k' v] l IH]; intros m; [done|].
  rewrite fmap_cons. cbn [foldl fst]. rewrite IH.
  destruct (decide (k = k')) as [->|Hne].
  - rewrite lookup_delete_eq.
    rewrite (bool_decide_eq_true_2 (k' ∈ k' :: l.*1)) by (apply elem_of_cons; by left).
    by case_bool_decide.
  - rewrite lookup_delete_ne by done.
    apply (f_equal (λ b : bool, if b then None else m !! k)).
    apply bool_decide_ext. rewrite elem_of_cons.
    split; [by right | by intros [?|?]].
Qed.

Lemma foldl_delete_all {V} (m : gmap string V) :
  foldl (λ m e, base.delete e.1 m) m (map_to_list m) = ∅.
Proof.
  apply map_eq. intros k. rewrite lookup_foldl_delete, lookup_empty.
  case_bool_decide as Hk; [done|].
  destruct (m !! k) as [v|] eqn:Hm; [|done].
  exfalso. apply Hk. apply list_elem_of_fmap. exists (k, v). split; [done|].
  by apply elem_of_map_to_list.
Qed.

(** C10: an entry of [change_priority] whose hash has no name in
    [name_cache] leads to no [torrents_file_priority] call, only to an
    error line, and is removed from [change_priority] all the same. *)
Theorem file_priority_without_name_is_dropped w hash_ files :
  Arr.change_priority (self w) !! hash_ = Some files →
  qBitManager.name_cache (qbit_manager w) !! hash_ = None →
  let w' := exec _process_file_priority w in
  ∃ calls,
    trace w' = trace w ++ calls
    ∧ (∀ file_ids priority,
         torrents_file_priority hash_ file_ids priority ∉ calls)
    ∧ log_error ("Torrent does not exist? " +:+ hash_) ∈ calls
    ∧ Arr.change_priority (self w') = ∅.
Proof.
  intros Hentry Hname w'.
  pose proof (_process_file_priority_loop_spec
                (map_to_list (Arr.change_priority (self w))) w)
    as (Ht & _ & Hc).
  assert (Hw' : w' = exec (for_each (map_to_list (Arr.change_priority (self w)))
                             _process_file_priority_entry) w).
  { subst w'. unfold _process_file_priority. by rewrite exec_bind. }
  rewrite Hw'. eexists. split; [exact Ht|]. split; [|split].
  - intros file_ids priority Hin.
    apply list_elem_of_fmap in Hin as ([h fs] & Hev & _).
    unfold file_priority_event in Hev. simpl in Hev.
    destruct (qBitManager.name_cache (qbit_manager w) !! h) as [name|] eqn:Hh;
      [destruct (truthy name)|]; try discriminate.
    injection Hev as -> _ _. congruence.
  - apply list_elem_of_fmap. exists (hash_, files). split.
    + unfold file_priority_event. simpl. by rewrite Hname.
    + by apply elem_of_map_to_list.
  - rewrite Hc. apply foldl_delete_all.
Qed.

(** ** Deleting failed torrents *)

(** The [DELETE /queue/{id}] requests of a trace: id, [removeFromClient],
    [blocklist]. *)
Definition queue_deletions (t : list event) : list (Z * bool * bool) :=
  omap (λ e, match e with
             | request_del id_ r b => Some (id_, r, b)
             | _ => None
             end) t.

(** The [blocklist] flag sent for a hash: hashes are compared upper-cased,
    against the upper-cased members of [skip_blacklist]. *)
Definition blocklist_flag (skip_blacklist : gset string) (h : string) : bool :=
  bool_decide (upper h ∉ (set_map upper skip_blacklist : gset string)).

(** The queue deletion a hash leads to, if it resolves through [cache]. *)
Definition queue_deletion_of (a : Arr.t) (h : string) : option (Z * bool * bool) :=
  (λ id_, (id_, true, blocklist_flag (Arr.skip_blacklist a) h))
    <$> Arr.cache a !! upper h.

Lemma queue_deletions_app t1 t2 :
  queue_deletions (t1 ++ t2) = queue_deletions t1 ++ queue_deletions t2.
Proof. apply omap_app. Qed.

Lemma _process_failed_individual_spec hash_ entry skip w :
  let w' := exec (_process_failed_individual hash_ entry skip) w in
  self w' = self w ∧ qbit_manager w' = qbit_manager w
  ∧ ∃ calls, trace w' = trace w ++ calls
      ∧ queue_deletions calls = [(entry, true, bool_decide (hash_ ∉ skip))].
Proof.
  destruct w as [a q mo ff mq tr ck].
  unfold _process_failed_individual, delete_from_queue, post_command.
  unfold_M.
  destruct (decide (hash_ ∈ skip)) as [Hin|Hin].
  - rewrite (bool_decide_eq_true_2 _ Hin), (bool_decide_eq_false_2 (hash_ ∉ skip))
      by auto. simpl.
    destruct (type (Arr.config a)).
    + destruct (Arr.requeue_cache a !! entry) as [[|first object_id]|]; simpl;
        (split; [done|split; [done|]]); eexists;
        (split; [try rewrite <- !app_assoc; reflexivity|done]).
    + destruct (Arr.requeue_cache_movie a !! entry) as [object_id|]; simpl;
        [destruct (object_id =? 0)|]; simpl;
        (split; [done|split; [done|]]); eexists;
        (split; [try rewrite <- !app_assoc; reflexivity|done]).
  - rewrite (bool_decide_eq_false_2 _ Hin), (bool_decide_eq_true_2 (hash_ ∉ skip))
      by auto. simpl.
    destruct (type (Arr.config a)).
    + destruct (Arr.requeue_cache a !! entry) as [[|first object_id]|]; simpl;
        (split; [done|split; [done|]]); eexists;
        (split; [try rewrite <- !app_assoc; reflexivity|done]).
    + destruct (Arr.requeue_cache_movie a !! entry) as [object_id|]; simpl;
        [destruct (object_id =? 0)|]; simpl;
        (split; [done|split; [done|]]); eexists;
        (split; [try rewrite <- !app_assoc; reflexivity|done]).
Qed.

Lemma _process_failed_payload_spec payload skip w :
  let w' := exec (for_each payload (λ '(entry, hash_),
                    _process_failed_individual hash_ entry skip)) w in
  self w' = self w ∧ qbit_manager w' = qbit_manager w
  ∧ ∃ calls, trace w' = trace w ++ calls
      ∧ queue_deletions calls
        = map (λ p, (p.1, true, bool_decide (p.2 ∉ skip))) payload.
Proof.
  revert w. induction payload as [|[entry hash_] rest IH]; intros w.
  - simpl. repeat split. exists []. by rewrite app_nil_r.
  - cbv zeta. rewrite exec_for_each_cons.
    destruct (_process_failed_individual_spec hash_ entry skip w)
      as (Hs & Hq & calls & Ht & Hd).
    destruct (IH (exec (_process_failed_individual hash_ entry skip) w))
      as (Hs' & Hq' & calls' & Ht' & Hd').
    rewrite Hs', Hq', Ht', Hs, Hq, Ht. repeat split.
    exists (calls ++ calls'). rewrite app_assoc. split; [done|].
    by rewrite queue_deletions_app, Hd, Hd'.
Qed.

Lemma evict_loop_spec hashes w :
  let w' := exec (for_each hashes evict) w in
  self w' = self w ∧ trace w' = trace w
  ∧ ∀ k,
      qBitManager.name_cache (qbit_manager w') !! k
      = (if bool_decide (k ∈ hashes) then None
         else qBitManager.name_cache (qbit_manager w) !! k)
      ∧ qBitManager.cache (qbit_manager w') !! k
        = (if bool_decide (k ∈ hashes) then None
           else qBitManager.cache (qbit_manager w) !! k).
Proof.
  revert w. induction hashes as [|h rest IH]; intros w.
  - simpl. repeat split.
  - cbv zeta. rewrite exec_for_each_cons.
    destruct (IH (exec (evict h) w)) as (Hs & Ht & Hk).
    rewrite Hs, Ht. split; [done|]. split; [done|]. intros k.
    destruct (Hk k) as [-> ->]. clear IH Hk Hs Ht.
    destruct w as [a [nc c] mo ff mq tr ck]. unfold evict. unfold_M.
    destruct (decide (k = h)) as [->|Hne].
    + rewrite (bool_decide_eq_true_2 (h ∈ h :: rest)) by (apply elem_of_cons; by left).
      split; repeat case_bool_decide; try done; try apply lookup_delete_eq.
      all: match goal with
           | H : ¬ is_Some ?x |- _ => by apply eq_None_not_Some
           end.
    + assert (bool_decide (k ∈ h :: rest) = bool_decide (k ∈ rest)) as ->.
      { apply bool_decide_ext. rewrite elem_of_cons. by split; [intros [?|?]|right]. }
      split; repeat case_bool_decide; try done; by rewrite lookup_delete_ne.
Qed.

Lemma payload_queue_deletions (a : Arr.t) (hashes : list string) :
  map (λ p : Z * string,
         (p.1, true,
          bool_decide (p.2 ∉ (set_map upper (Arr.skip_blacklist a) : gset string))))
      (omap (λ h, (λ _id, (_id, upper h)) <$> Arr.cache a !! upper h) hashes)
  = omap (queue_deletion_of a) hashes.
Proof.
  induction hashes as [|h rest IH]; [done|]. cbn [omap list_omap].
  rewrite <- IH. unfold queue_deletion_of, blocklist_flag.
  by destruct (Arr.cache a !! upper h) as [id_|].
Qed.

Lemma blocklist_flag_literal (skip : gset string) (h : string) :
  (∀ s, s ∈ skip → upper s = upper h → s = h) →
  blocklist_flag skip h = bool_decide (h ∉ skip).
Proof.
  intros Hcase. unfold blocklist_flag. apply bool_decide_ext.
  rewrite elem_of_map. split.
  - intros Hn Hin. apply Hn. by exists h.
  - intros Hn (s & Heq & Hin). apply Hn.
    by rewrite <- (Hcase s Hin (eq_sym Heq)).
Qed.

(** C3: [_process_failed] sends, for every hash of [delete ∪
    skip_blacklist] that resolves through [cache], one queue deletion with
    [removeFromClient=true] and the [blocklist] flag of that hash, and no
    other queue deletion; afterwards both sets are empty and neither
    supervisor cache holds a hash of the input.  The flag is decided on
    upper-cased hashes; where no member of [skip_blacklist] differs from
    the hash by case only, it is the truth of "the hash is not in
    [skip_blacklist]". *)
Theorem _process_failed_deletes_each_resolved_hash w :
  let a := self w in
  let T := Arr.delete a ∪ Arr.skip_blacklist a in
  let w' := exec _process_failed w in
  (∃ calls,
     trace w' = trace w ++ calls
     ∧ queue_deletions calls = omap (queue_deletion_of a) (elements T))
  ∧ Arr.delete (self w') = ∅
  ∧ Arr.skip_blacklist (self w') = ∅
  ∧ (∀ h, h ∈ T →
       qBitManager.name_cache (qbit_manager w') !! h = None
       ∧ qBitManager.cache (qbit_manager w') !! h = None)
  ∧ (∀ h, h ∈ T →
       (∀ s, s ∈ Arr.skip_blacklist a → upper s = upper h → s = h) →
       blocklist_flag (Arr.skip_blacklist a) h
       = bool_decide (h ∉ Arr.skip_blacklist a)).
Proof.
  intros a T w'.
  assert (Hclear : ∀ v : World,
    let v' := exec (modify_self (Arr.set_skip_blacklist ∅) ;;
                    modify_self (Arr.set_delete ∅)) v in
    trace v' = trace v ∧ qbit_manager v' = qbit_manager v
    ∧ Arr.delete (self v') = ∅ ∧ Arr.skip_blacklist (self v') = ∅).
  { intros [[] ? ? ? ? ? ?]. by unfold_M. }
  split; [|split; [|split; [|split]]].
  5: { intros h _. apply blocklist_flag_literal. }
  all: subst w'; unfold _process_failed; rewrite exec_bind;
    change (eval get_self w) with (self w); change (exec get_self w) with w;
    fold a; fold T; rewrite exec_bind;
    match goal with
    | |- context [exec (modify_self _ ≫= _) ?v] =>
        destruct (Hclear v) as (Ht & Hq & Hd & Hs)
    end; rewrite ?Ht, ?Hq; try done.
  all: case_bool_decide as HT.
  2: { exists []. rewrite app_nil_r. split; [done|].
       by rewrite HT, elements_empty. }
  3: { intros h Hh. rewrite HT in Hh. set_solver. }
  all: unfold process_entries; cbv beta iota zeta;
    rewrite !exec_bind;
    set (w1 := exec (set_needs_cleanup true) w);
    set (payload := omap _ (elements T));
    set (skip := set_map upper (Arr.skip_blacklist a));
    destruct (_process_failed_payload_spec payload skip w1)
      as (Hs1 & Hq1 & calls & Ht1 & Hd1);
    match goal with
    | |- context [exec (for_each ?hashes evict) ?v] =>
        destruct (evict_loop_spec hashes v) as (Hs2 & Ht2 & Hk2)
    end.
  - rewrite Ht2. unfold_M. rewrite Ht1.
    exists (calls ++ [torrents_delete T true]). split.
    + subst w1. destruct w as [[] ? ? ? ? ? ?]. simpl. by rewrite app_assoc.
    + rewrite queue_deletions_app, Hd1. simpl. rewrite app_nil_r.
      subst payload skip. apply payload_queue_deletions.
  - intros h Hh. destruct (Hk2 h) as [-> ->].
    by rewrite bool_decide_eq_true_2 by (by apply elem_of_elements).
Qed.

(** ** The classifier fires at most one branch *)

(** The first rule, top to bottom, whose condition holds. *)
Definition fired (FAILED_CATEGORY RECHECK_CATEGORY : string) (w : World)
    (time_now : Q) (torrent : TorrentDictionary) : option rule :=
  List.find (λ r, guard FAILED_CATEGORY RECHECK_CATEGORY r w time_now torrent)
    rules.

#[global] Instance rule_eq_dec : EqDecision rule.
Proof. solve_decision. Defined.

(** The four intents a hash is to appear in at most once. *)
Inductive intent := Pause | Resume | Recheck | Delete.

#[global] Instance intent_eq_dec : EqDecision intent.
Proof. solve_decision. Defined.

Definition intent_set (i : intent) (a : Arr.t) : gset string :=
  match i with
  | Pause => Arr.pause a
  | Resume => Arr.resume a
  | Recheck => Arr.recheck a
  | Delete => Arr.delete a ∪ Arr.skip_blacklist a
  end.

(** [h] was added to the set of intent [o], if any, and to no other. *)
Definition adds_to (o : option intent) (h : string) (a a' : Arr.t) : Prop :=
  ∀ i, intent_set i a'
       = if decide (o = Some i) then intent_set i a ∪ {[h]} else intent_set i a.

Lemma adds_to_none h a a' :
  Arr.pause a' = Arr.pause a → Arr.resume a' = Arr.resume a →
  Arr.recheck a' = Arr.recheck a → Arr.delete a' = Arr.delete a →
  Arr.skip_blacklist a' = Arr.skip_blacklist a →
  adds_to None h a a'.
Proof. intros ? ? ? ? ? []; simpl; congruence. Qed.

Lemma adds_to_delete h a a' :
  Arr.pause a' = Arr.pause a → Arr.resume a' = Arr.resume a →
  Arr.recheck a' = Arr.recheck a → Arr.delete a' = Arr.delete a ∪ {[h]} →
  Arr.skip_blacklist a' = Arr.skip_blacklist a →
  adds_to (Some Delete) h a a'.
Proof.
  intros Hp Hr Hc Hd Hs []; case_decide; try congruence; simpl;
    rewrite ?Hp, ?Hr, ?Hc, ?Hd, ?Hs; set_solver.
Qed.

(** The file scan touches [delete] and [change_priority] only, and
    [delete] by nothing but the hash of the torrent. *)
Lemma filter_files_intents torrent files _remove_files total w :
  let a := self w in
  let a' := self (exec (filter_files torrent files _remove_files total) w) in
  Arr.pause a' = Arr.pause a ∧ Arr.resume a' = Arr.resume a
  ∧ Arr.recheck a' = Arr.recheck a
  ∧ Arr.skip_blacklist a' = Arr.skip_blacklist a
  ∧ (Arr.delete a' = Arr.delete a
     ∨ Arr.delete a' = Arr.delete a ∪ {[Torrent.hash torrent]}).
Proof.
  revert _remove_files total w.
  induction files as [|file rest IH]; intros rf total w; [by repeat split; auto|].
  cbn [filter_files]. destruct (TorrentFile.priority file =? 0); [apply IH|].
  rewrite exec_bind. change (eval get_self w) with (self w).
  change (exec get_self w) with w. cbv zeta. rewrite exec_bind.
  match goal with
  | |- context [exec (filter_files _ _ ?rf' ?total') (exec ?m w)] =>
      destruct (IH rf' total' (exec m w)) as (Hp & Hr & Hc & Hs & Hd);
      assert (Hm : Arr.pause (self (exec m w)) = Arr.pause (self w)
                   ∧ Arr.resume (self (exec m w)) = Arr.resume (self w)
                   ∧ Arr.recheck (self (exec m w)) = Arr.recheck (self w)
                   ∧ Arr.skip_blacklist (self (exec m w))
                     = Arr.skip_blacklist (self w)
                   ∧ (Arr.delete (self (exec m w)) = Arr.delete (self w)
                      ∨ Arr.delete (self (exec m w))
                        = Arr.delete (self w) ∪ {[Torrent.hash torrent]}))
  end.
  { destruct w as [[] ? ? ? ? ? ?].
    repeat match goal with |- context [if ?b then _ else _] => destruct b end;
      unfold_M; auto 10. }
  destruct Hm as (Hp' & Hr' & Hc' & Hs' & Hd').
  rewrite Hp, Hr, Hc, Hs, Hp', Hr', Hc', Hs'. repeat split.
  destruct Hd as [->| ->], Hd' as [->| ->]; auto. right. set_solver.
Qed.

Lemma action_adds_to_at_most_one r time_now torrent w :
  ∃ o, adds_to o (Torrent.hash torrent) (self w)
         (self (exec (action r time_now torrent) w)).
Proof.
  destruct r; cbn [action]; unfold add_delete, add_recheck, add_pause,
    add_resume, add_skip_blacklist.
  14: { rewrite exec_bind. change (eval get_self w) with (self w).
        change (exec get_self w) with w.
        match goal with |- context [if ?b then _ else _] => destruct b end.
        - exists (Some Delete). destruct w as [[] ? ? ? ? ? ?].
          by apply adds_to_delete.
        - destruct (filter_files_intents torrent (Torrent.files torrent) ∅
                      (Z.of_nat (length (Torrent.files torrent))) w)
            as (Hp & Hr & Hc & Hs & [Hd|Hd]).
          + exists None. by apply adds_to_none.
          + exists (Some Delete). by apply adds_to_delete. }
  all: destruct w as [[] ? ? ? ? ? ?]; unfold_M;
    repeat match goal with |- context [if ?b then _ else _] => destruct b end;
    simpl.
  all: first
    [ by (exists None; apply adds_to_none)
    | by (exists (Some Delete); apply adds_to_delete)
    | (exists (Some Delete); intros []; case_decide; try congruence; simpl;
       set_solver)
    | (exists (Some Recheck); intros []; case_decide; try congruence; simpl;
       set_solver)
    | (exists (Some Pause); intros []; case_decide; try congruence; simpl;
       set_solver)
    | (exists (Some Resume); intros []; case_decide; try congruence; simpl;
       set_solver) ].
Qed.

Lemma find_first_match {A} (f : A → bool) (l : list A) (x : A) :
  List.find f l = Some x →
  ∃ n : nat, l !! n = Some x ∧ f x = true
    ∧ ∀ (m : nat) y, (m < n)%nat → l !! m = Some y → f y = false.
Proof.
  induction l as [|y l IH]; [done|]. simpl.
  destruct (f y) eqn:Hy.
  - intros [= ->]. exists 0%nat. repeat split; [done|]. intros; lia.
  - intros Hfind. destruct (IH Hfind) as (n & Hn & Hx & Hbefore).
    exists (S n). repeat split; [done..|].
    intros [|m] z Hm; simpl; [by intros [= <-]|].
    apply Hbefore. lia.
Qed.

Lemma refresh_caches_self RECHECK_CATEGORY torrent w :
  let w1 := exec (refresh_caches RECHECK_CATEGORY torrent) w in
  self w1 = self w ∧ managed_objects w1 = managed_objects w
  ∧ trace w1 = trace w.
Proof.
  destruct w. unfold refresh_caches.
  by destruct (negb _); unfold_M.
Qed.

Lemma refresh_caches_clock RECHECK_CATEGORY torrent w :
  clock (exec (refresh_caches RECHECK_CATEGORY torrent) w) = clock w.
Proof.
  destruct w. unfold refresh_caches.
  by destruct (negb _); unfold_M.
Qed.

Lemma guard_refresh_caches FAILED_CATEGORY RECHECK_CATEGORY r torrent' w
    time_now torrent :
  guard FAILED_CATEGORY RECHECK_CATEGORY r
    (exec (refresh_caches RECHECK_CATEGORY torrent') w) time_now torrent
  = guard FAILED_CATEGORY RECHECK_CATEGORY r w time_now torrent.
Proof.
  destruct (refresh_caches_self RECHECK_CATEGORY torrent' w) as (Hs & Hm & _).
  unfold guard, target_sent_to_scan_hashes.
  by rewrite Hs, Hm, refresh_caches_clock.
Qed.

(** The chain written out is the search for the first rule that holds. *)
Lemma classify_runs_fired FAILED_CATEGORY RECHECK_CATEGORY time_now torrent w :
  exec (classify FAILED_CATEGORY RECHECK_CATEGORY time_now torrent) w
  = match fired FAILED_CATEGORY RECHECK_CATEGORY w time_now torrent with
    | Some r =>
        exec (action r time_now torrent)
          (exec (refresh_caches RECHECK_CATEGORY torrent) w)
    | None => exec (refresh_caches RECHECK_CATEGORY torrent) w
    end.
Proof.
  unfold classify. rewrite exec_bind.
  set (w1 := exec (refresh_caches RECHECK_CATEGORY torrent) w).
  rewrite exec_bind. change (eval get_world w1) with w1.
  change (exec get_world w1) with w1. cbv zeta.
  unfold fired, rules. cbn [List.find].
  subst w1. rewrite !guard_refresh_caches.
  repeat match goal with
         | |- context [if ?b then _ else _] => destruct b; [reflexivity|]
         end.
  reflexivity.
Qed.

(** C1, as the code has it: [classify] runs the body of the first rule,
    top to bottom, whose condition holds, and of no other; when no
    condition holds it runs none.  Whatever it runs, the hash of the
    torrent is added to at most one of [pause], [resume], [recheck] and
    [delete ∪ skip_blacklist], and the others are left as they were. *)
Theorem classify_first_match_only FAILED_CATEGORY RECHECK_CATEGORY
    time_now torrent w :
  let w1 := exec (refresh_caches RECHECK_CATEGORY torrent) w in
  let w' := exec (classify FAILED_CATEGORY RECHECK_CATEGORY time_now torrent) w in
  let holds r := guard FAILED_CATEGORY RECHECK_CATEGORY r w time_now torrent in
  w' = match fired FAILED_CATEGORY RECHECK_CATEGORY w time_now torrent with
       | Some r => exec (action r time_now torrent) w1
       | None => w1
       end
  ∧ (∀ r, fired FAILED_CATEGORY RECHECK_CATEGORY w time_now torrent = Some r →
       ∃ n : nat, rules !! n = Some r ∧ holds r = true
         ∧ ∀ (m : nat) r', (m < n)%nat → rules !! m = Some r' → holds r' = false)
  ∧ (fired FAILED_CATEGORY RECHECK_CATEGORY w time_now torrent = None →
       ∀ r, holds r = false)
  ∧ ∃ o, adds_to o (Torrent.hash torrent) (self w) (self w').
Proof.
  intros w1 w' holds.
  pose proof (classify_runs_fired FAILED_CATEGORY RECHECK_CATEGORY time_now
                torrent w) as Hrun.
  fold w1 w' in Hrun.
  split; [exact Hrun|]. split; [|split].
  - intros r. apply find_first_match.
  - intros Hnone r. unfold fired in Hnone.
    assert (Hin : In r rules) by (destruct r; simpl; tauto).
    exact (find_none _ _ Hnone r Hin).
  - rewrite Hrun.
    destruct (refresh_caches_self RECHECK_CATEGORY torrent w) as (Hs & _ & _).
    fold w1 in Hs.
    destruct (fired _ _ _ _ _) as [r|].
    + destruct (action_adds_to_at_most_one r time_now torrent w1) as [o Ho].
      exists o. by rewrite <- Hs.
    + exists None. apply adds_to_none; by rewrite Hs.
Qed.

(** ** Sample data *)

(** A Radarr reconciler with the settings of the file-priority scenario:
    allowlist [.mkv], folder pattern [sample] (as [re.match] tests it);
    [AutoDelete] and the file-name test are left open. *)
Definition sample_config (auto_delete : bool)
    (file_name_test : string → bool) : Config := {|
  _name := "radarr-movies"; uri := "http://localhost:7878"; apikey := "key";
  category := "radarr-movies"; completed_folder := "/downloads/radarr-movies";
  type := radarr; re_search := true; import_mode := "Move";
  refresh_downloads_timer := 1; rss_sync_timer := 15;
  case_sensitive_matches := false; auto_delete := auto_delete;
  file_extension_allowlist := [".mkv"];
  folder_exclusion_regex_re := String.prefix "sample";
  file_name_exclusion_regex_re := file_name_test;
  ignore_torrents_younger_than := 600; maximum_eta := 86400;
  maximum_deletable_percentage := (95 # 100)%Q;
  search_specials := false; search_by_year := true;
  search_in_reverse := true; search_starting_year := 2000;
  search_ending_year := 2020; search_command_limit := 5; _delta := 1;
  arr_db_file := "/config/radarr.db";
  search_db_file := "/appdata/radarr-movies.db" |}.

Definition sample_arr (c : Config) : Arr.t := {|
  Arr.config := c;
  Arr.search_missing := true;
  Arr.search_current_year := search_ending_year c;
  Arr.search_setup_completed := false;
  Arr.cache := ∅; Arr.requeue_cache := ∅; Arr.requeue_cache_movie := ∅;
  Arr.sent_to_scan := ∅; Arr.sent_to_scan_hashes := ∅;
  Arr.files_probed := ∅; Arr.import_torrents := [];
  Arr.change_priority := ∅; Arr.recheck := ∅; Arr.pause := ∅;
  Arr.skip_blacklist := ∅; Arr.delete := ∅; Arr.resume := ∅;
  Arr.needs_cleanup := false;
  Arr.timed_ignore_cache := ExpiringSet.empty (ignore_torrents_younger_than c);
  Arr.timed_skip := ExpiringSet.empty (ignore_torrents_younger_than c) |}.

Definition sample_world (a : Arr.t) : World := {|
  self := a;
  qbit_manager := qBitManager.mk ∅ ∅;
  managed_objects := {[category (Arr.config a) := this]};
  ffprobe_available := true;
  model_queue := [];
  trace := []; clock := 0 |}.

(** The torrent of the scenario: downloading, added 100 seconds ago. *)
Definition sample_torrent : TorrentDictionary := {|
  Torrent.hash := "abc"; Torrent.name := "Movie";
  Torrent.category := "radarr-movies"; Torrent.state_enum := DOWNLOADING;
  Torrent.progress := (1 # 10)%Q; Torrent.availability := 1%Q;
  Torrent.added_on := 1000; Torrent.completion_on := 0;
  Torrent.last_activity := 1090; Torrent.eta := 120;
  Torrent.seeding_time := 0; Torrent.amount_left := 900;
  Torrent.content_path := "/downloads/radarr-movies/Movie";
  Torrent.files :=
    [TorrentFile.mk 0 ".../Sample/clip.mkv" 1;
     TorrentFile.mk 1 "movie.mkv" 1;
     TorrentFile.mk 2 "notes.txt" 1] |}.

(** A torrent that completed a minute ago. *)
Definition completed_torrent : TorrentDictionary := {|
  Torrent.hash := "abc"; Torrent.name := "Movie";
  Torrent.category := "radarr-movies"; Torrent.state_enum := PAUSED_UPLOAD;
  Torrent.progress := 1%Q; Torrent.availability := 1%Q;
  Torrent.added_on := 1000; Torrent.completion_on := 1040;
  Torrent.last_activity := 1040; Torrent.eta := 0;
  Torrent.seeding_time := 60; Torrent.amount_left := 0;
  Torrent.content_path := "/downloads/radarr-movies/Movie";
  Torrent.files := [TorrentFile.mk 0 "movie.mkv" 1] |}.

(** Another torrent, still downloading. *)
Definition downloading_torrent : TorrentDictionary := {|
  Torrent.hash := "def"; Torrent.name := "Other";
  Torrent.category := "radarr-movies"; Torrent.state_enum := DOWNLOADING;
  Torrent.progress := (1 # 2)%Q; Torrent.availability := 1%Q;
  Torrent.added_on := 1000; Torrent.completion_on := 0;
  Torrent.last_activity := 1090; Torrent.eta := 120;
  Torrent.seeding_time := 0; Torrent.amount_left := 500;
  Torrent.content_path := "/downloads/radarr-movies/Other";
  Torrent.files := [TorrentFile.mk 0 "other.mkv" 1] |}.

(** ** The file scan records a prefix *)

(** Once a list is recorded for the hash, the rest of the scan leaves it
    as it is: the write is guarded by [hash not in change_priority]. *)
Lemma filter_files_keeps_recorded torrent files _remove_files total w l :
  Arr.change_priority (self w) !! Torrent.hash torrent = Some l →
  Arr.change_priority
    (self (exec (filter_files torrent files _remove_files total) w))
    !! Torrent.hash torrent = Some l.
Proof.
  revert _remove_files total w.
  induction files as [|file rest IH]; intros rf total w Hl; [done|].
  cbn [filter_files]. destruct (TorrentFile.priority file =? 0); [by apply IH|].
  rewrite exec_bind. change (eval get_self w) with (self w).
  change (exec get_self w) with w. cbv zeta. rewrite exec_bind.
  apply IH. rewrite (bool_decide_eq_false_2 (_ = None)) by (by rewrite Hl).
  rewrite andb_false_r.
  destruct w as [[] ? ? ? ? ? ?].
  by repeat match goal with |- context [if ?b then _ else _] => destruct b end.
Qed.

(** C6, the code at the scenario's input (the file-name pattern matches
    no name): the folder rule marks file 0, the list is written to
    [change_priority] at once, and the guard keeps the later mark of
    file 2 out of it.  The hash is not put in [delete]. *)
Theorem file_priority_mask_records_first_mark_only :
  let w' := exec (classify "failed" "recheck" 1100%Q sample_torrent)
              (sample_world (sample_arr (sample_config false (λ _, false)))) in
  Arr.change_priority (self w') !! "abc" = Some [0]
  ∧ Arr.change_priority (self w') !! "abc" ≠ Some [0; 2]
  ∧ "abc" ∉ Arr.delete (self w').
Proof.
  cbv zeta. split; [|split].
  - vm_compute. reflexivity.
  - vm_compute. discriminate.
  - apply (bool_decide_unpack _). vm_compute. exact I.
Qed.

(** ** [sent_to_scan_hashes] between folder cleanups *)

(** The configuration is kept and [sent_to_scan_hashes] loses no member. *)
Definition scan_hashes_grow (w w' : World) : Prop :=
  Arr.config (self w') = Arr.config (self w)
  ∧ Arr.sent_to_scan_hashes (self w) ⊆ Arr.sent_to_scan_hashes (self w').

#[local] Instance scan_hashes_grow_refl : Reflexive scan_hashes_grow.
Proof. by intros w. Qed.

#[local] Instance scan_hashes_grow_trans : Transitive scan_hashes_grow.
Proof.
  intros w1 w2 w3 [Hc1 Hs1] [Hc2 Hs2]. split; [congruence|set_solver].
Qed.

Lemma scan_hashes_grow_modify_self f :
  (∀ a, Arr.config (f a) = Arr.config a
        ∧ Arr.sent_to_scan_hashes a ⊆ Arr.sent_to_scan_hashes (f a)) →
  preserves scan_hashes_grow (modify_self f).
Proof. intros Hf w. apply Hf. Qed.

Lemma scan_hashes_grow_other {A} (m : M A) :
  (∀ w, self (exec m w) = self w) → preserves scan_hashes_grow m.
Proof. intros Hm w. unfold scan_hashes_grow. by rewrite Hm. Qed.

Ltac scan_hashes_grow_leaf :=
  first
    [ apply scan_hashes_grow_other; by intros []
    | apply scan_hashes_grow_modify_self; intros []; simpl; split;
      [done|set_solver] ].

Ltac scan_hashes_grow_tac :=
  repeat first [ preserves_step | scan_hashes_grow_leaf ].

Lemma filter_files_scan_hashes_grow torrent files _remove_files total :
  preserves scan_hashes_grow (filter_files torrent files _remove_files total).
Proof.
  revert _remove_files total.
  induction files as [|file rest IH]; intros rf total; cbn [filter_files].
  - scan_hashes_grow_tac.
  - destruct (TorrentFile.priority file =? 0); [apply IH|].
    apply preserves_bind; [apply _|scan_hashes_grow_tac|intros a].
    cbv zeta. apply preserves_bind; [apply _| |intros _; apply IH].
    scan_hashes_grow_tac.
Qed.

Lemma classify_scan_hashes_grow FAILED_CATEGORY RECHECK_CATEGORY time_now torrent :
  preserves scan_hashes_grow
    (classify FAILED_CATEGORY RECHECK_CATEGORY time_now torrent).
Proof.
  unfold classify, refresh_caches.
  apply preserves_bind; [apply _|scan_hashes_grow_tac|intros _].
  apply preserves_bind; [apply _|scan_hashes_grow_tac|intros w0].
  cbv zeta.
  repeat match goal with
         | |- preserves _ (if ?b then _ else _) => destruct b
         end;
    cbn [action]; unfold add_delete, add_recheck, add_pause, add_resume,
      add_skip_blacklist, timed_skip_add; scan_hashes_grow_tac.
  apply filter_files_scan_hashes_grow.
Qed.

Lemma _process_paused_scan_hashes_grow :
  preserves scan_hashes_grow _process_paused.
Proof. unfold _process_paused, set_needs_cleanup. scan_hashes_grow_tac. Qed.

Lemma _process_errored_scan_hashes_grow :
  preserves scan_hashes_grow _process_errored.
Proof.
  unfold _process_errored, set_needs_cleanup, timed_ignore_cache_add.
  scan_hashes_grow_tac.
Qed.

Lemma _process_resume_scan_hashes_grow :
  preserves scan_hashes_grow _process_resume.
Proof.
  unfold _process_resume, set_needs_cleanup, timed_ignore_cache_add.
  scan_hashes_grow_tac.
Qed.

Lemma _process_file_priority_scan_hashes_grow :
  preserves scan_hashes_grow _process_file_priority.
Proof.
  unfold _process_file_priority. scan_hashes_grow_tac.
  unfold _process_file_priority_entry, set_needs_cleanup. scan_hashes_grow_tac.
Qed.

Lemma _process_imports_scan_hashes_grow validate path_exists :
  preserves scan_hashes_grow (_process_imports validate path_exists).
Proof.
  unfold _process_imports, set_needs_cleanup. scan_hashes_grow_tac.
  unfold _process_imports_torrent, post_command. scan_hashes_grow_tac.
Qed.

Lemma _process_failed_scan_hashes_grow :
  preserves scan_hashes_grow _process_failed.
Proof.
  unfold _process_failed, set_needs_cleanup, evict. scan_hashes_grow_tac.
  unfold _process_failed_individual, delete_from_queue, post_command.
  scan_hashes_grow_tac.
Qed.

Lemma _remove_empty_folders_loop_scan_hashes_grow entries acc :
  preserves scan_hashes_grow (_remove_empty_folders_loop entries acc).
Proof.
  revert acc. induction entries as [|entry rest IH]; intros acc; simpl.
  - scan_hashes_grow_tac.
  - apply preserves_bind; [apply _| |done].
    unfold _remove_empty_folders_entry. scan_hashes_grow_tac.
Qed.

(** The cleanup keeps the set unless it runs and finds the completed
    folder empty. *)
Lemma folder_cleanup_scan_hashes_grow view w :
  FolderView.completed_folder_empty view = false
  ∨ auto_delete (Arr.config (self w)) = false
  ∨ Arr.needs_cleanup (self w) = false →
  scan_hashes_grow w (exec (folder_cleanup view) w).
Proof.
  intros [Hview|[Hauto|Hdue]].
  - revert w. change (preserves scan_hashes_grow (folder_cleanup view)).
    unfold folder_cleanup, set_needs_cleanup. scan_hashes_grow_tac.
    + unfold folder_cleanup_file, file_is_probeable. scan_hashes_grow_tac.
    + unfold _remove_empty_folders. rewrite Hview.
      apply preserves_bind;
        [apply _|apply _remove_empty_folders_loop_scan_hashes_grow|].
      scan_hashes_grow_tac.
  - unfold folder_cleanup. rewrite exec_bind.
    change (eval get_self w) with (self w). by rewrite Hauto.
  - unfold folder_cleanup. rewrite exec_bind.
    change (eval get_self w) with (self w). rewrite Hdue.
    by destruct (negb (auto_delete _)).
Qed.

Lemma _remove_empty_folders_resets view w :
  FolderView.completed_folder_empty view = true →
  Arr.sent_to_scan_hashes (self (exec (_remove_empty_folders view) w)) = ∅
  ∧ Arr.sent_to_scan (self (exec (_remove_empty_folders view) w)) = ∅.
Proof.
  intros Hview. unfold _remove_empty_folders. rewrite Hview.
  rewrite exec_bind.
  generalize (exec (_remove_empty_folders_loop (FolderView.walk_after_unlink view) ∅) w).
  generalize (eval (_remove_empty_folders_loop (FolderView.walk_after_unlink view) ∅) w).
  by intros acc [[] ? ? ? ? ? ?].
Qed.

Lemma folder_cleanup_resets view w :
  auto_delete (Arr.config (self w)) = true →
  Arr.needs_cleanup (self w) = true →
  FolderView.completed_folder_empty view = true →
  Arr.sent_to_scan_hashes (self (exec (folder_cleanup view) w)) = ∅
  ∧ Arr.sent_to_scan (self (exec (folder_cleanup view) w)) = ∅.
Proof.
  intros Hauto Hdue Hview. unfold folder_cleanup. rewrite exec_bind.
  change (eval get_self w) with (self w). change (exec get_self w) with w.
  rewrite Hauto, Hdue. cbn [negb]. rewrite !exec_bind.
  destruct (_remove_empty_folders_resets view
              (exec (for_each (FolderView.walk view) folder_cleanup_file) w)
              Hview) as [Hh Hs].
  revert Hh Hs.
  generalize (exec (_remove_empty_folders view)
                (exec (for_each (FolderView.walk view) folder_cleanup_file) w)).
  by intros [[] ? ? ? ? ? ?].
Qed.

(** The [downloadClientId] of the scan commands of a trace. *)
Definition scans (t : list event) : list string :=
  omap (λ e, match e with
             | request_post (DownloadedEpisodesScan _ id_ _) => Some id_
             | _ => None
             end) t.

(** Steps that post no scan and leave the import list, the set of sent
    hashes and the registry alone. *)
Definition no_scan (w w' : World) : Prop :=
  scans (trace w') = scans (trace w)
  ∧ Arr.import_torrents (self w') = Arr.import_torrents (self w)
  ∧ Arr.sent_to_scan_hashes (self w') = Arr.sent_to_scan_hashes (self w)
  ∧ managed_objects w' = managed_objects w.

#[local] Instance no_scan_refl : Reflexive no_scan.
Proof. by intros w. Qed.

#[local] Instance no_scan_trans : Transitive no_scan.
Proof.
  intros w1 w2 w3 (? & ? & ? & ?) (? & ? & ? & ?).
  repeat split; congruence.
Qed.

Lemma no_scan_emit e :
  (∀ p i m, e ≠ request_post (DownloadedEpisodesScan p i m)) →
  preserves no_scan (emit e).
Proof.
  intros He w. split; [|done]. unfold exec, emit, scans. simpl.
  rewrite omap_app. simpl.
  destruct e as [| | | | | |[]| | | | | | | | |]; try by rewrite app_nil_r.
  by edestruct He.
Qed.

Lemma no_scan_modify_self f :
  (∀ a, Arr.import_torrents (f a) = Arr.import_torrents a
        ∧ Arr.sent_to_scan_hashes (f a) = Arr.sent_to_scan_hashes a) →
  preserves no_scan (modify_self f).
Proof. intros Hf w. destruct (Hf (self w)). by repeat split. Qed.

Lemma no_scan_modify_qbit_manager f : preserves no_scan (modify_qbit_manager f).
Proof. by intros w. Qed.

Ltac no_scan_leaf :=
  first
    [ apply no_scan_modify_qbit_manager
    | apply no_scan_modify_self; by intros []
    | apply no_scan_emit; by intros ? ? ? ].

Ltac no_scan_tac := repeat first [ preserves_step | no_scan_leaf ].

Lemma filter_files_no_scan torrent files _remove_files total :
  preserves no_scan (filter_files torrent files _remove_files total).
Proof.
  revert _remove_files total.
  induction files as [|file rest IH]; intros rf total; cbn [filter_files].
  - no_scan_tac.
  - destruct (TorrentFile.priority file =? 0); [apply IH|].
    apply preserves_bind; [apply _|no_scan_tac|intros a].
    cbv zeta. apply preserves_bind; [apply _| |intros _; apply IH].
    no_scan_tac.
Qed.

Lemma action_no_scan r time_now torrent :
  r ≠ completed → preserves no_scan (action r time_now torrent).
Proof.
  intros Hr. destruct r; try done; cbn [action];
    unfold add_delete, add_recheck, add_pause, add_resume, add_skip_blacklist, timed_skip_add;
    no_scan_tac.
  apply filter_files_no_scan.
Qed.

(** One torrent: the import list is left alone, or the torrent is
    appended to it, and then its hash is not in the set its category's
    reconciler has sent to scan. *)
Lemma classify_import FAILED_CATEGORY RECHECK_CATEGORY time_now torrent w :
  let w' := exec (classify FAILED_CATEGORY RECHECK_CATEGORY time_now torrent) w in
  scans (trace w') = scans (trace w)
  ∧ Arr.sent_to_scan_hashes (self w') = Arr.sent_to_scan_hashes (self w)
  ∧ managed_objects w' = managed_objects w
  ∧ (Arr.import_torrents (self w') = Arr.import_torrents (self w)
     ∨ Arr.import_torrents (self w') = Arr.import_torrents (self w) ++ [torrent]
       ∧ Torrent.hash torrent
           ∉ target_sent_to_scan_hashes w (Torrent.category torrent)).
Proof.
  cbv zeta. rewrite classify_runs_fired.
  pose proof (λ r, find_first_match
                (λ r, guard FAILED_CATEGORY RECHECK_CATEGORY r w time_now torrent)
                rules r) as Hfirst.
  fold (fired FAILED_CATEGORY RECHECK_CATEGORY w time_now torrent) in Hfirst.
  destruct (refresh_caches_self RECHECK_CATEGORY torrent w) as (Hs & Hm & Ht).
  set (w1 := exec (refresh_caches RECHECK_CATEGORY torrent) w) in *.
  destruct (fired _ _ _ _ _) as [r|] eqn:Hfired.
  - destruct (decide (r = completed)) as [->|Hr].
    + destruct (Hfirst completed eq_refl) as (n & Hn & _ & Hbefore).
      assert (n = 7%nat) as ->.
      { do 14 (destruct n as [|n]; [by inversion Hn|]). done. }
      pose proof (Hbefore 5%nat sent_to_scan ltac:(lia) eq_refl) as Hg.
      cbn [guard] in Hg. apply bool_decide_eq_false_1 in Hg.
      cbn [action]. unfold add_pause.
      destruct w1 as [[] ? ? ? ? ? ?]. unfold_M.
      rewrite <- Hs, <- Hm, <- Ht. simpl. repeat split; auto.
    + destruct (action_no_scan r time_now torrent Hr w1) as (? & ? & ? & ?).
      repeat split; [congruence..|left; congruence].
  - rewrite Hs, Hm, Ht. repeat split; auto.
Qed.

Lemma classify_all_imports FAILED_CATEGORY RECHECK_CATEGORY time_now torrents w :
  let w' := exec (classify_all FAILED_CATEGORY RECHECK_CATEGORY time_now torrents) w in
  scans (trace w') = scans (trace w)
  ∧ Arr.sent_to_scan_hashes (self w') = Arr.sent_to_scan_hashes (self w)
  ∧ ∃ queued,
      Arr.import_torrents (self w') = Arr.import_torrents (self w) ++ queued
      ∧ ∀ t, t ∈ queued →
          t ∈ torrents
          ∧ Torrent.hash t ∉ target_sent_to_scan_hashes w (Torrent.category t).
Proof.
  unfold classify_all. revert w.
  induction torrents as [|torrent rest IH]; intros w.
  - simpl. repeat split. exists []. rewrite app_nil_r. split; [done|].
    intros t Ht. by apply elem_of_nil in Ht.
  - cbv zeta. rewrite exec_for_each_cons.
    destruct (classify_import FAILED_CATEGORY RECHECK_CATEGORY time_now torrent w)
      as (Hsc & Hsh & Hmo & Himp).
    set (w1 := exec (classify FAILED_CATEGORY RECHECK_CATEGORY time_now torrent) w) in *.
    destruct (IH w1) as (Hsc' & Hsh' & queued & Hq & Hall).
    rewrite Hsc', Hsh', Hsc, Hsh. repeat split.
    assert (Hrest : ∀ t, t ∈ queued →
              t ∈ torrent :: rest
              ∧ Torrent.hash t
                  ∉ target_sent_to_scan_hashes w (Torrent.category t)).
    { intros t Ht. destruct (Hall t Ht) as [? Hnot]. split.
      - by apply elem_of_cons; right.
      - unfold target_sent_to_scan_hashes in *. by rewrite <- Hmo, <- Hsh. }
    destruct Himp as [Himp|[Himp Hnot]].
    + exists queued. by rewrite Hq, Himp.
    + exists (torrent :: queued). rewrite Hq, Himp, <- app_assoc.
      split; [done|]. intros t [->|Ht]%elem_of_cons; [|by apply Hrest].
      split; [by apply elem_of_cons; left|done].
Qed.

Lemma _process_paused_no_scan : preserves no_scan _process_paused.
Proof. unfold _process_paused, set_needs_cleanup. no_scan_tac. Qed.

Lemma _process_errored_no_scan : preserves no_scan _process_errored.
Proof.
  unfold _process_errored, set_needs_cleanup, timed_ignore_cache_add.
  no_scan_tac.
Qed.

Lemma _process_file_priority_no_scan : preserves no_scan _process_file_priority.
Proof.
  unfold _process_file_priority. no_scan_tac.
  unfold _process_file_priority_entry, set_needs_cleanup. no_scan_tac.
Qed.

(** Steps that post no scan. *)
Definition same_scans (w w' : World) : Prop :=
  scans (trace w') = scans (trace w).

#[local] Instance same_scans_refl : Reflexive same_scans.
Proof. by intros w. Qed.

#[local] Instance same_scans_trans : Transitive same_scans.
Proof. unfold same_scans. intros w1 w2 w3 ? ?. congruence. Qed.

Lemma same_scans_emit e :
  (∀ p i m, e ≠ request_post (DownloadedEpisodesScan p i m)) →
  preserves same_scans (emit e).
Proof. intros He w. by destruct (no_scan_emit e He w). Qed.

Lemma same_scans_silent {A} (m : M A) :
  (∀ w, trace (exec m w) = trace w) → preserves same_scans m.
Proof. intros Hm w. unfold same_scans. by rewrite Hm. Qed.

Ltac same_scans_leaf :=
  first
    [ apply same_scans_silent; by intros []
    | apply same_scans_emit; by intros ? ? ? ].

Ltac same_scans_tac := repeat first [ preserves_step | same_scans_leaf ].

Lemma _process_failed_same_scans : preserves same_scans _process_failed.
Proof.
  unfold _process_failed, set_needs_cleanup, evict. same_scans_tac.
  unfold _process_failed_individual, delete_from_queue, post_command.
  same_scans_tac.
Qed.

Lemma _remove_empty_folders_loop_same_scans entries acc :
  preserves same_scans (_remove_empty_folders_loop entries acc).
Proof.
  revert acc. induction entries as [|entry rest IH]; intros acc; simpl.
  - same_scans_tac.
  - apply preserves_bind; [apply _| |done].
    unfold _remove_empty_folders_entry. same_scans_tac.
Qed.

Lemma folder_cleanup_same_scans view : preserves same_scans (folder_cleanup view).
Proof.
  unfold folder_cleanup, set_needs_cleanup. same_scans_tac.
  - unfold folder_cleanup_file, file_is_probeable. same_scans_tac.
  - unfold _remove_empty_folders.
    apply preserves_bind;
      [apply _|apply _remove_empty_folders_loop_same_scans|].
    same_scans_tac.
Qed.

(** The scans [_process_imports] posts are for torrents of the list. *)
Lemma _process_imports_torrent_scans validate path_exists torrent w :
  let w' := exec (_process_imports_torrent validate path_exists torrent) w in
  scans (trace w') = scans (trace w)
  ∨ scans (trace w') = scans (trace w) ++ [upper (Torrent.hash torrent)].
Proof.
  destruct w as [a ? ? ? ? tr ?]. unfold _process_imports_torrent, post_command.
  unfold_M.
  repeat match goal with |- context [if ?b then _ else _] => destruct b end;
    simpl; auto.
  right. unfold scans. rewrite omap_app. by destruct a.
Qed.

Lemma _process_imports_loop_scans validate path_exists torrents w :
  let w' := exec (for_each torrents
                    (_process_imports_torrent validate path_exists)) w in
  ∃ posted,
    scans (trace w') = scans (trace w) ++ posted
    ∧ ∀ id_, id_ ∈ posted →
        ∃ t, t ∈ torrents ∧ id_ = upper (Torrent.hash t).
Proof.
  revert w. induction torrents as [|torrent rest IH]; intros w.
  - exists []. simpl. rewrite app_nil_r. split; [done|].
    intros id_ Hid. by apply elem_of_nil in Hid.
  - cbv zeta. rewrite exec_for_each_cons.
    destruct (IH (exec (_process_imports_torrent validate path_exists torrent) w))
      as (posted & Hp & Hall).
    assert (Hrest : ∀ id_, id_ ∈ posted →
              ∃ t, t ∈ torrent :: rest ∧ id_ = upper (Torrent.hash t)).
    { intros id_ Hid. destruct (Hall id_ Hid) as (t & Ht & ->).
      exists t. split; [by apply elem_of_cons; right|done]. }
    destruct (_process_imports_torrent_scans validate path_exists torrent w)
      as [Hsame|Hone]; rewrite Hp.
    + exists posted. by rewrite Hsame.
    + exists (upper (Torrent.hash torrent) :: posted).
      rewrite Hone, <- app_assoc. split; [done|].
      intros id_ [->|Hid]%elem_of_cons; [|by apply Hrest].
      exists torrent. split; [by apply elem_of_cons; left|done].
Qed.

Lemma _process_imports_scans validate path_exists w :
  let w' := exec (_process_imports validate path_exists) w in
  ∃ posted,
    scans (trace w') = scans (trace w) ++ posted
    ∧ ∀ id_, id_ ∈ posted →
        ∃ t, t ∈ Arr.import_torrents (self w) ∧ id_ = upper (Torrent.hash t).
Proof.
  cbv zeta. unfold _process_imports. rewrite exec_bind.
  change (eval get_self w) with (self w). change (exec get_self w) with w.
  destruct (Arr.import_torrents (self w)) as [|t ts] eqn:Himp.
  - exists []. rewrite app_nil_r. split; [done|].
    intros id_ Hid. by apply elem_of_nil in Hid.
  - rewrite !exec_bind.
    destruct (_process_imports_loop_scans validate path_exists (t :: ts)
                (exec (set_needs_cleanup true) w)) as (posted & Hp & Hall).
    exists posted. split; [|done].
    etransitivity; [|etransitivity; [exact Hp|]].
    + by generalize (exec (for_each (t :: ts)
                             (_process_imports_torrent validate path_exists))
                          (exec (set_needs_cleanup true) w)); intros [].
    + by destruct w.
Qed.

Lemma refresh_download_queue_frame queue w :
  let w' := exec (refresh_download_queue queue) w in
  Arr.config (self w') = Arr.config (self w)
  ∧ Arr.sent_to_scan_hashes (self w') = Arr.sent_to_scan_hashes (self w)
  ∧ Arr.import_torrents (self w') = Arr.import_torrents (self w)
  ∧ managed_objects w' = managed_objects w
  ∧ trace w' = trace w.
Proof.
  destruct w as [[] ? ? ? ? ? ?]. unfold refresh_download_queue. unfold_M.
  by destruct (type _).
Qed.

(** The tick up to the folder cleanup. *)
Definition before_folder_cleanup (validate : string → string)
    (path_exists : string → bool) (FAILED_CATEGORY RECHECK_CATEGORY : string)
    (queue : list QueueEntry.t) (time_now : Q)
    (torrents : list TorrentDictionary) : M unit :=
  refresh_download_queue queue ;;
  classify_all FAILED_CATEGORY RECHECK_CATEGORY time_now torrents ;;
  _process_paused ;;
  _process_errored ;;
  _process_file_priority ;;
  _process_imports validate path_exists ;;
  _process_failed.

Lemma process_torrents_before_folder_cleanup validate path_exists
    FAILED_CATEGORY RECHECK_CATEGORY queue time_now torrents view w :
  exec (process_torrents validate path_exists FAILED_CATEGORY RECHECK_CATEGORY
          queue time_now torrents view) w
  = exec (folder_cleanup view)
      (exec (before_folder_cleanup validate path_exists FAILED_CATEGORY
               RECHECK_CATEGORY queue time_now torrents) w).
Proof.
  unfold process_torrents, process, before_folder_cleanup.
  by rewrite !exec_bind.
Qed.

(** C4, as the code has it.  Over a tick [sent_to_scan_hashes] loses no
    member, except that [_remove_empty_folders], which [folder_cleanup]
    runs when [AutoDelete] is on and a cleanup is due, empties it
    together with [sent_to_scan] when the completed folder has no entry
    left.  A scan is posted only for a torrent that was on the import list
    when the tick began, or for a torrent of the snapshot whose hash was
    not, when the tick began, in the [sent_to_scan_hashes] rule 6 looks
    in: the one of the reconciler registered for the torrent's category,
    which is this reconciler's own for a category it is registered
    for. *)
Theorem sent_to_scan_hashes_grows_between_resets validate path_exists
    FAILED_CATEGORY RECHECK_CATEGORY queue time_now torrents view w :
  let due := exec (before_folder_cleanup validate path_exists FAILED_CATEGORY
                     RECHECK_CATEGORY queue time_now torrents) w in
  let w' := exec (process_torrents validate path_exists FAILED_CATEGORY
                    RECHECK_CATEGORY queue time_now torrents view) w in
  w' = exec (folder_cleanup view) due
  ∧ (if auto_delete (Arr.config (self w)) && Arr.needs_cleanup (self due)
        && FolderView.completed_folder_empty view
     then Arr.sent_to_scan_hashes (self w') = ∅
          ∧ Arr.sent_to_scan (self w') = ∅
     else Arr.sent_to_scan_hashes (self w)
            ⊆ Arr.sent_to_scan_hashes (self w'))
  ∧ (∃ posted,
       scans (trace w') = scans (trace w) ++ posted
       ∧ ∀ id_, id_ ∈ posted →
           ∃ t, id_ = upper (Torrent.hash t)
                ∧ (t ∈ Arr.import_torrents (self w)
                   ∨ t ∈ torrents
                     ∧ Torrent.hash t
                         ∉ target_sent_to_scan_hashes w (Torrent.category t)))
  ∧ (∀ category,
       managed_objects w !! category = Some this →
       target_sent_to_scan_hashes w category
       = Arr.sent_to_scan_hashes (self w)).
Proof.
  cbv zeta. rewrite process_torrents_before_folder_cleanup.
  split; [done|].
  unfold before_folder_cleanup. rewrite !exec_bind.
  destruct (refresh_download_queue_frame queue w)
    as (Hc0 & Hs0 & Hi0 & Hm0 & Ht0).
  set (w0 := exec (refresh_download_queue queue) w) in *.
  set (w1 := exec (classify_all FAILED_CATEGORY RECHECK_CATEGORY time_now torrents) w0).
  set (w2 := exec _process_paused w1).
  set (w3 := exec _process_errored w2).
  set (w4 := exec _process_file_priority w3).
  set (w5 := exec (_process_imports validate path_exists) w4).
  set (w6 := exec _process_failed w5).
  assert (Hgrow : scan_hashes_grow w0 w6).
  { transitivity w1.
    { apply (preserves_for_each scan_hashes_grow).
      intros t. apply classify_scan_hashes_grow. }
    transitivity w2; [apply _process_paused_scan_hashes_grow|].
    transitivity w3; [apply _process_errored_scan_hashes_grow|].
    transitivity w4; [apply _process_file_priority_scan_hashes_grow|].
    transitivity w5; [apply _process_imports_scan_hashes_grow|].
    apply _process_failed_scan_hashes_grow. }
  destruct Hgrow as [Hc Hs].
  split; [|split].
  - rewrite <- Hc0, <- Hc.
    destruct (auto_delete (Arr.config (self w6))) eqn:Hauto;
      [destruct (Arr.needs_cleanup (self w6)) eqn:Hdue;
       [destruct (FolderView.completed_folder_empty view) eqn:Hview|]|];
      cbn [andb].
    + by apply folder_cleanup_resets.
    + destruct (folder_cleanup_scan_hashes_grow view w6) as [_ Hs'];
        [by left|].
      rewrite <- Hs0. etransitivity; [exact Hs|exact Hs'].
    + destruct (folder_cleanup_scan_hashes_grow view w6) as [_ Hs'];
        [by right; right|].
      rewrite <- Hs0. etransitivity; [exact Hs|exact Hs'].
    + destruct (folder_cleanup_scan_hashes_grow view w6) as [_ Hs'];
        [by right; left|].
      rewrite <- Hs0. etransitivity; [exact Hs|exact Hs'].
  - destruct (classify_all_imports FAILED_CATEGORY RECHECK_CATEGORY time_now
                torrents w0) as (Hsc1 & _ & queued & Hq & Hall).
    fold w1 in Hsc1, Hq. rewrite Hi0 in Hq.
    assert (Hflush : no_scan w1 w4).
    { transitivity w2; [apply _process_paused_no_scan|].
      transitivity w3; [apply _process_errored_no_scan|].
      apply _process_file_priority_no_scan. }
    destruct Hflush as (Hsc4 & Himp4 & _ & _).
    destruct (_process_imports_scans validate path_exists w4)
      as (posted & Hp & Hposted).
    fold w5 in Hp.
    assert (Hafter : same_scans w5 (exec (folder_cleanup view) w6)).
    { transitivity w6; [apply _process_failed_same_scans|].
      apply folder_cleanup_same_scans. }
    exists posted. split.
    + by rewrite Hafter, Hp, Hsc4, Hsc1, Ht0.
    + intros id_ Hid. destruct (Hposted id_ Hid) as (t & Ht & ->).
      exists t. split; [done|].
      rewrite Himp4, Hq in Ht. apply elem_of_app in Ht as [Ht|Ht]; [by left|].
      right. destruct (Hall t Ht) as [? Hnot]. split; [done|].
      unfold target_sent_to_scan_hashes in *. by rewrite <- Hm0, <- Hs0.
  - intros category Hthis. unfold target_sent_to_scan_hashes.
    by rewrite Hthis.
Qed.

(** C4, the claim as stated fails: [old] was sent to scan in an earlier
    tick; in this tick a completed torrent is paused, which makes a cleanup
    due, its files are gone and the completed folder is empty: the flush
    removes [old] from [sent_to_scan_hashes]. *)
Lemma sent_to_scan_hashes_is_reset :
  let a := Arr.set_sent_to_scan_hashes {["old"]}
             (sample_arr (sample_config true (λ _, false))) in
  let view := FolderView.mk [] [] true in
  let w' := exec (process_torrents id (λ _, false) "failed" "recheck" []
                    1100%Q [completed_torrent] view) (sample_world a) in
  "old" ∈ Arr.sent_to_scan_hashes a
  ∧ "old" ∉ Arr.sent_to_scan_hashes (self w').
Proof.
  cbv zeta. split.
  - apply (bool_decide_unpack _). vm_compute. exact I.
  - apply (bool_decide_unpack _). vm_compute. exact I.
Qed.

(** ** What a reconciler is built with *)

(** One statement of [Arr.__init__] that did not raise. *)
Ltac init_step :=
  lazymatch goal with
  | |- raise_if ?b _ _ = inr _ → _ =>
      unfold raise_if at 1; destruct b eqn:?; [discriminate|]
  | |- re_compile _ _ _ = inr _ → _ =>
      unfold re_compile at 1
  | |- mbind _ ?m = inr _ → _ =>
      unfold mbind at 1, Exception_bind at 1;
      destruct m eqn:?; [discriminate|]
  | |- (let '(_, _) := if ?b then _ else _ in _) = inr _ → _ =>
      destruct b eqn:?
  end.

Lemma Arr__init__inr COMPLETED_DOWNLOAD_FOLDER APPDATA_FOLDER re_match
    re_search_ path_exists re_compiles name s manager client_cls a :
  Arr__init__ COMPLETED_DOWNLOAD_FOLDER APPDATA_FOLDER re_match re_search_
    path_exists re_compiles name s manager client_cls = inr a →
  let c := Arr.config a in
  (name ∉ ArrManager.groups manager)
  ∧ ConfigSection.URI s = Some (uri c)
  ∧ (uri c ∉ ArrManager.uris manager)
  ∧ _name c = name
  ∧ category c = fallback (ConfigSection.Category s) name
  ∧ client_cls = Some (type c)
  ∧ 0 < ignore_torrents_younger_than c
  ∧ _delta c = (if search_in_reverse c then 1 else -1)
  ∧ Arr.search_current_year a
    = (if search_in_reverse c then search_ending_year c
       else search_starting_year c)
  ∧ Arr.search_setup_completed a = false.
Proof.
  unfold Arr__init__. repeat init_step.
  all: intros [= <-]; cbn.
  all: repeat match goal with
       | H : bool_decide _ = false |- _ => apply bool_decide_eq_false_1 in H
       | H : negb _ = false |- _ => apply negb_false_iff in H
       | H : required _ ?v = inr _ |- _ =>
           destruct v; [injection H as <-|discriminate]; clear H
       | H : (_ <? _) = true |- _ => apply Z.ltb_lt in H
       | H : inr _ = inr _ |- _ => injection H as <-
       | H : match ?x with Some _ => _ | None => _ end = inr _ |- _ =>
           destruct x; [injection H as <-|discriminate]
       end.
  all: split_and!; done.
Qed.

(** ** The year of the search scheduler *)

Definition same_year (w w' : World) : Prop :=
  Arr.config (self w') = Arr.config (self w)
  ∧ Arr.search_current_year (self w') = Arr.search_current_year (self w).

#[local] Instance same_year_refl : Reflexive same_year.
Proof. by intros w. Qed.

#[local] Instance same_year_trans : Transitive same_year.
Proof. intros w1 w2 w3 [? ?] [? ?]. split; congruence. Qed.

Lemma same_year_modify_self f :
  (∀ a, Arr.config (f a) = Arr.config a
        ∧ Arr.search_current_year (f a) = Arr.search_current_year a) →
  preserves same_year (modify_self f).
Proof. intros Hf w. apply Hf. Qed.

Lemma same_year_other {A} (m : M A) :
  (∀ w, self (exec m w) = self w) → preserves same_year m.
Proof. intros Hm w. unfold same_year. by rewrite Hm. Qed.

Ltac same_year_leaf :=
  first
    [ apply same_year_other; by intros []
    | apply same_year_modify_self; by intros [] ].

Ltac same_year_tac := repeat first [ preserves_step | same_year_leaf ].

Lemma register_search_mode_same_year arr_db_file_exists :
  preserves same_year (register_search_mode arr_db_file_exists).
Proof. unfold register_search_mode. same_year_tac. Qed.

Lemma maybe_do_search_same_year commands file_model :
  preserves same_year (maybe_do_search commands file_model).
Proof.
  unfold maybe_do_search, arr_db_query_commands_count, queue_insert, client_post.
  same_year_tac.
Qed.

Lemma search_entry_same_year observations entry :
  preserves same_year (search_entry observations entry).
Proof.
  induction observations as [|commands later IH]; simpl; [same_year_tac|].
  apply preserves_bind; [apply _|apply maybe_do_search_same_year|].
  intros [[]|]; same_year_tac. exact IH.
Qed.

Lemma search_entries_same_year entries :
  preserves same_year (search_entries entries).
Proof.
  induction entries as [|[entry observations] rest IH]; simpl; [same_year_tac|].
  apply preserves_bind; [apply _|apply search_entry_same_year|].
  intros []; [exact IH|same_year_tac].
Qed.

Lemma db_update_single_series_same_year db_entry :
  preserves same_year (db_update_single_series db_entry).
Proof. unfold db_update_single_series. same_year_tac. Qed.

(** The year after the end of the [try] block. *)
Definition wrap (reverse : bool) (count_start stopping_year y : Z) : Z :=
  if reverse
  then if stopping_year <? y then count_start else y
  else if y <? stopping_year then count_start else y.

Lemma step_year_spec w :
  let w' := exec step_year w in
  Arr.config (self w') = Arr.config (self w)
  ∧ Arr.search_missing (self w') = Arr.search_missing (self w)
  ∧ Arr.search_current_year (self w')
    = Arr.search_current_year (self w) + _delta (Arr.config (self w)).
Proof. by destruct w as [[] ? ? ? ? ? ?]. Qed.

Lemma wrap_year_spec count_start stopping_year w :
  let w' := exec (wrap_year count_start stopping_year) w in
  Arr.config (self w') = Arr.config (self w)
  ∧ Arr.search_missing (self w') = Arr.search_missing (self w)
  ∧ Arr.search_current_year (self w')
    = wrap (search_in_reverse (Arr.config (self w))) count_start stopping_year
        (Arr.search_current_year (self w)).
Proof.
  destruct w as [[] ? ? ? ? ? ?]. unfold wrap_year, wrap. unfold_M.
  destruct (search_in_reverse _);
    match goal with |- context [if ?b then _ else _] => destruct b end; done.
Qed.

Lemma advance_year_spec count_start stopping_year w :
  let w' := exec (advance_year count_start stopping_year) w in
  Arr.config (self w') = Arr.config (self w)
  ∧ Arr.search_current_year (self w')
    = wrap (search_in_reverse (Arr.config (self w))) count_start stopping_year
        (Arr.search_current_year (self w) + _delta (Arr.config (self w))).
Proof.
  cbv zeta. unfold advance_year. rewrite exec_bind.
  destruct (step_year_spec w) as (Hc & _ & Hy).
  destruct (wrap_year_spec count_start stopping_year (exec step_year w))
    as (Hc' & _ & Hy').
  by rewrite Hc', Hy', Hc, Hy.
Qed.

(** What the search loop never writes. *)
Definition search_settings (w : World) :=
  (Arr.config (self w), Arr.search_missing (self w)).

Lemma search_entries_keeps_settings entries :
  preserves (keeps search_settings) (search_entries entries).
Proof.
  induction entries as [|[entry observations] rest IH]; simpl; [keeps_tac|].
  apply preserves_bind; [apply _| |intros []; [exact IH|keeps_tac]].
  induction observations as [|commands later IHo]; simpl; [keeps_tac|].
  apply preserves_bind; [apply _| |intros [[]|]; keeps_tac; exact IHo].
  unfold maybe_do_search, arr_db_query_commands_count, queue_insert,
    client_post.
  keeps_tac.
Qed.

Lemma db_update_year_exact selected no_files w :
  let w' := exec (db_update selected no_files) w in
  Arr.config (self w') = Arr.config (self w)
  ∧ Arr.search_current_year (self w')
    = Arr.search_current_year (self w)
      + (if Arr.search_missing (self w) && no_files
         then _delta (Arr.config (self w)) else 0).
Proof.
  cbv zeta. unfold db_update. rewrite exec_bind.
  change (eval get_self w) with (self w). change (exec get_self w) with w.
  destruct (Arr.search_missing (self w)) eqn:Hsearch; cbn [negb andb];
    [|split; [done|change (exec pass w) with w; lia]].
  rewrite exec_bind.
  assert (Hloop : preserves
            (keeps (λ v, (Arr.config (self v), Arr.search_current_year (self v),
                          Arr.search_missing (self v))))
            (for_each selected db_update_single_series)).
  { unfold db_update_single_series. keeps_tac. }
  specialize (Hloop w). unfold keeps in Hloop.
  injection Hloop as Hc Hy Hs. rewrite <- Hc, <- Hy. rewrite <- Hs in Hsearch.
  revert Hsearch.
  generalize (exec (for_each selected db_update_single_series) w).
  intros [[] ? ? ? ? ? ?] Hsearch. simpl in Hsearch.
  unfold _update_current_year. unfold_M. rewrite Hsearch. simpl.
  destruct no_files; simpl; split; try done; lia.
Qed.

Lemma db_update_keeps_settings selected no_files :
  preserves (keeps search_settings) (db_update selected no_files).
Proof.
  unfold db_update, db_update_single_series, _update_current_year. keeps_tac.
Qed.

(** The range of the year: from the starting year to the stopping year
    (or the starting year, if that lies beyond it), [slack] years further
    while a turn is under way. *)
Definition year_between (reverse : bool) (count_start stopping_year slack y : Z)
    : Prop :=
  if reverse
  then count_start ≤ y ≤ Z.max count_start stopping_year + slack
  else Z.min count_start stopping_year - slack ≤ y ≤ count_start.

Definition year_past_start (reverse : bool) (count_start y : Z) : Prop :=
  if reverse then count_start ≤ y else y ≤ count_start.

(** The points of one turn of [while True] at which the year may have
    changed: after [db_update], after the [for] loop, after the increment
    that ends the [try] block, after the test that follows it. *)
Module Turn_points.
Record t := mk {
  updated : World;
  searched : World;
  stepped : World;
  wrapped : World }.
End Turn_points.

Definition turn_points (count_start stopping_year : Z) (p : Pass.t)
    (head : World) : Turn_points.t :=
  let updated :=
    exec (db_update (Pass.selected p) (Pass.no_files p (self head))) head in
  let searched :=
    exec (search_entries (Pass.entries p (self updated))) updated in
  let stepped := exec step_year searched in
  let wrapped := exec (wrap_year count_start stopping_year) stepped in
  Turn_points.mk updated searched stepped wrapped.

(** A turn ends in one of the points: where it waits, where the
    exception left it, or after the wrap-around test. *)
Lemma search_pass_points count_start stopping_year p w :
  let pts := turn_points count_start stopping_year p w in
  let left_loop :=
    eval (search_entries (Pass.entries p (self (Turn_points.updated pts))))
      (Turn_points.updated pts) in
  eval (search_pass count_start stopping_year p) w = left_loop
  ∧ self (exec (search_pass count_start stopping_year p) w)
    = self (if left_loop
            then match Pass.raises p with
                 | Some _ => Turn_points.searched pts
                 | None => Turn_points.wrapped pts
                 end
            else Turn_points.searched pts).
Proof.
  cbv zeta. unfold search_pass, turn_points. cbn [Turn_points.updated
    Turn_points.searched Turn_points.stepped Turn_points.wrapped].
  repeat (rewrite exec_bind || rewrite eval_bind).
  change (eval get_self w) with (self w). change (exec get_self w) with w.
  set (w1 := exec (db_update _ _) w).
  change (eval get_self w1) with (self w1). change (exec get_self w1) with w1.
  set (w2 := exec (search_entries _) w1).
  destruct (eval (search_entries _) w1); [|done].
  repeat (rewrite exec_bind || rewrite eval_bind).
  destruct (Pass.raises p).
  - split; [done|]. by destruct w2.
  - split; [done|]. unfold advance_year. by rewrite exec_bind.
Qed.

(** The year at the points of a turn. *)
Lemma turn_points_year count_start stopping_year p w :
  let pts := turn_points count_start stopping_year p w in
  let year v := Arr.search_current_year (self v) in
  let d := _delta (Arr.config (self w)) in
  let reverse := search_in_reverse (Arr.config (self w)) in
  search_settings (Turn_points.wrapped pts) = search_settings w
  ∧ year (Turn_points.updated pts)
    = year w + (if Arr.search_missing (self w) && Pass.no_files p (self w)
                then d else 0)
  ∧ year (Turn_points.searched pts) = year (Turn_points.updated pts)
  ∧ year (Turn_points.stepped pts) = year (Turn_points.updated pts) + d
  ∧ year (Turn_points.wrapped pts)
    = wrap reverse count_start stopping_year (year (Turn_points.stepped pts)).
Proof.
  cbv zeta. unfold turn_points. cbn [Turn_points.updated
    Turn_points.searched Turn_points.stepped Turn_points.wrapped].
  destruct (db_update_year_exact (Pass.selected p) (Pass.no_files p (self w)) w)
    as [Hc1 Hy1].
  pose proof (db_update_keeps_settings (Pass.selected p)
                (Pass.no_files p (self w)) w) as Hk1.
  set (w1 := exec (db_update _ _) w) in *.
  destruct (search_entries_same_year (Pass.entries p (self w1)) w1)
    as [Hc2 Hy2].
  pose proof (search_entries_keeps_settings (Pass.entries p (self w1)) w1)
    as Hk2.
  set (w2 := exec (search_entries _) w1) in *.
  destruct (step_year_spec w2) as (Hc3 & Hs3 & Hy3).
  set (w3 := exec step_year w2) in *.
  destruct (wrap_year_spec count_start stopping_year w3) as (Hc4 & Hs4 & Hy4).
  unfold keeps, search_settings in *.
  injection Hk1 as Hk1c Hk1s. injection Hk2 as Hk2c Hk2s.
  split; [by rewrite Hc4, Hs4, Hc3, Hs3, Hk2c, Hk2s, Hk1c, Hk1s|].
  split; [exact Hy1|]. split; [exact Hy2|].
  split; [by rewrite Hy3, Hy2, Hc2, Hc1|].
  by rewrite Hy4, Hc3, Hc2, Hc1.
Qed.

Lemma search_pass_keeps_settings count_start stopping_year p :
  preserves (keeps search_settings) (search_pass count_start stopping_year p).
Proof.
  unfold search_pass, advance_year, step_year, wrap_year.
  apply preserves_bind; [apply _|keeps_tac|intros a].
  apply preserves_bind; [apply _|apply db_update_keeps_settings|intros _].
  apply preserves_bind; [apply _|keeps_tac|intros a'].
  apply preserves_bind; [apply _|apply search_entries_keeps_settings|].
  intros []; keeps_tac.
Qed.

(** The year after a number of turns. *)
Lemma search_passes_year count_start stopping_year passes reverse w :
  search_in_reverse (Arr.config (self w)) = reverse →
  _delta (Arr.config (self w)) = (if reverse then 1 else -1) →
  let w' := exec (search_passes count_start stopping_year passes) w in
  let at_head := eval (search_passes count_start stopping_year passes) w in
  let y' := Arr.search_current_year (self w') in
  search_settings w' = search_settings w
  ∧ (year_past_start reverse count_start (Arr.search_current_year (self w)) →
     year_past_start reverse count_start y')
  ∧ ((∀ p, p ∈ passes → Pass.raises p = None) →
     year_between reverse count_start stopping_year 0
       (Arr.search_current_year (self w)) →
     year_between reverse count_start stopping_year 1 y'
     ∧ (at_head = true → year_between reverse count_start stopping_year 0 y')).
Proof.
  revert w. induction passes as [|p later IH]; intros w Hrev Hd; cbv zeta.
  - change (exec (search_passes count_start stopping_year []) w) with w.
    split; [done|]. split; [done|]. intros _ Hy. split; [|done].
    unfold year_between in *. destruct reverse; lia.
  - cbn [search_passes]. rewrite exec_bind, eval_bind.
    destruct (search_pass_points count_start stopping_year p w)
      as [Hleft Hself].
    destruct (turn_points_year count_start stopping_year p w)
      as (Hk & Hy1 & Hy2 & Hy3 & Hy4).
    pose proof (search_pass_keeps_settings count_start stopping_year p w)
      as Hkeep.
    cbv zeta in Hleft, Hself, Hy1, Hy2, Hy3, Hy4.
    set (pts := turn_points count_start stopping_year p w) in *.
    set (w1 := exec (search_pass count_start stopping_year p) w) in *.
    unfold keeps, search_settings in Hkeep. injection Hkeep as Hkc Hks.
    specialize (IH w1). cbv zeta in IH. rewrite Hkc in IH.
    specialize (IH Hrev Hd) as (IHk & IHstart & IHbetween).
    rewrite Hrev in Hy4. rewrite Hd in Hy1, Hy3.
    assert (Hmove : Arr.search_current_year (self (Turn_points.updated pts))
                    = Arr.search_current_year (self w)
                    ∨ Arr.search_current_year (self (Turn_points.updated pts))
                      = Arr.search_current_year (self w)
                        + (if reverse then 1 else -1)).
    { rewrite Hy1. destruct (_ && _); [by right|left; lia]. }
    rewrite Hleft.
    destruct (eval (search_entries _) (Turn_points.updated pts)).
    + split; [unfold search_settings in *; by rewrite IHk, Hkc, Hks|].
      split.
      * intros Hstart. apply IHstart. rewrite Hself.
        destruct (Pass.raises p).
        -- rewrite Hy2. unfold year_past_start in *.
           destruct reverse; lia.
        -- rewrite Hy4, Hy3. unfold year_past_start, wrap in *.
           destruct reverse; repeat case_match; lia.
      * intros Hraises Hy. apply IHbetween.
        { intros q Hq. apply Hraises. by apply elem_of_cons; right. }
        rewrite Hself, (Hraises p) by (by apply elem_of_cons; left).
        rewrite Hy4, Hy3. unfold year_between, wrap in *.
        destruct reverse; repeat case_match; lia.
    + change (exec (mret false) w1) with w1.
      split; [unfold search_settings; by rewrite Hkc, Hks|].
      rewrite Hself, Hy2. split.
      * unfold year_past_start. destruct reverse; lia.
      * intros _ Hy. split; [|done].
        unfold year_between in *. destruct reverse; lia.
Qed.

Lemma Arr__init__year COMPLETED_DOWNLOAD_FOLDER APPDATA_FOLDER re_match
    re_search_ path_exists re_compiles name s manager client_cls a :
  Arr__init__ COMPLETED_DOWNLOAD_FOLDER APPDATA_FOLDER re_match re_search_
    path_exists re_compiles name s manager client_cls = inr a →
  let reverse := search_in_reverse (Arr.config a) in
  _delta (Arr.config a) = (if reverse then 1 else -1)
  ∧ Arr.search_current_year a
    = (if reverse then search_ending_year (Arr.config a)
       else search_starting_year (Arr.config a))
  ∧ Arr.search_setup_completed a = false.
Proof.
  intros Hinit.
  by destruct (Arr__init__inr _ _ _ _ _ _ _ _ _ _ _ Hinit)
    as (_ & _ & _ & _ & _ & _ & _ & ? & ? & ?).
Qed.

(** The state of the loop after a number of turns, for the reconciler
    [Arr.__init__] builds. *)
Lemma run_search_loop_year COMPLETED_DOWNLOAD_FOLDER APPDATA_FOLDER re_match
    re_search_ path_exists re_compiles name s manager client_cls a w
    arr_db_file_exists now_year passes :
  Arr__init__ COMPLETED_DOWNLOAD_FOLDER APPDATA_FOLDER re_match re_search_
    path_exists re_compiles name s manager client_cls = inr a →
  self w = a →
  let reverse := search_in_reverse (Arr.config a) in
  let count_start :=
    if reverse then search_ending_year (Arr.config a)
    else search_starting_year (Arr.config a) in
  let stopping_year := if reverse then now_year else 1900 in
  let w' := exec (run_search_loop arr_db_file_exists now_year passes) w in
  let status := eval (run_search_loop arr_db_file_exists now_year passes) w in
  let y' := Arr.search_current_year (self w') in
  Arr.search_current_year a = count_start
  ∧ Arr.config (self w') = Arr.config a
  ∧ (status ≠ returned → Arr.search_missing (self w') = true)
  ∧ year_past_start reverse count_start y'
  ∧ ((∀ p, p ∈ passes → Pass.raises p = None) →
     year_between reverse count_start stopping_year 1 y'
     ∧ (status ≠ waiting →
        year_between reverse count_start stopping_year 0 y')).
Proof.
  intros Hinit Hself.
  destruct (Arr__init__year _ _ _ _ _ _ _ _ _ _ _ Hinit) as (Hd & Hy0 & _).
  cbv zeta in *. subst a.
  destruct (register_search_mode_same_year arr_db_file_exists w) as [Hc Hy].
  unfold run_search_loop. rewrite !exec_bind, !eval_bind.
  set (w0 := exec (register_search_mode arr_db_file_exists) w) in *.
  change (eval get_self w0) with (self w0). change (exec get_self w0) with w0.
  rewrite <- Hc, <- Hy in *.
  set (reverse := search_in_reverse (Arr.config (self w0))) in *.
  split; [exact Hy0|].
  assert (Hpast0 : year_past_start reverse
                     (Arr.search_current_year (self w0))
                     (Arr.search_current_year (self w0))).
  { unfold year_past_start. destruct reverse; lia. }
  assert (Hbetween0 : ∀ stop, year_between reverse
                        (Arr.search_current_year (self w0)) stop 0
                        (Arr.search_current_year (self w0))).
  { intros stop. unfold year_between. destruct reverse; lia. }
  destruct (Arr.search_missing (self w0)) eqn:Hsearch; cbn [negb].
  - rewrite exec_bind, eval_bind.
    set (stop := if reverse then now_year else 1900).
    destruct (search_passes_year (Arr.search_current_year (self w0)) stop
                passes reverse w0 eq_refl Hd) as (Hk & Hpast & Hbetween).
    cbv zeta in Hk, Hpast, Hbetween.
    set (w1 := exec (search_passes (Arr.search_current_year (self w0)) stop
                       passes) w0) in *.
    change (exec (mret ?x) w1) with w1. rewrite <- Hy0.
    unfold search_settings in Hk. injection Hk as Hkc Hks.
    split; [exact Hkc|]. split; [intros _; by rewrite Hks|].
    split; [by apply Hpast|]. intros Hraises.
    destruct (Hbetween Hraises (Hbetween0 stop)) as [Hwide Htight].
    split; [exact Hwide|]. intros Hstatus. apply Htight.
    destruct (eval (search_passes _ _ _) w0); [done|].
    by destruct Hstatus.
  - change (exec (mret returned) w0) with w0. rewrite <- Hy0.
    split; [done|]. split; [by intros []|].
    split; [exact Hpast0|]. intros _.
    split; [|intros _; apply Hbetween0].
    specialize (Hbetween0 (if reverse then now_year else 1900)).
    unfold year_between in *. destruct reverse; lia.
Qed.

(** C5, as the code has it.  The year starts at [LastYear] in reverse
    mode and at [StartYear] otherwise.  In a turn of the loop [db_update]
    moves it by [_delta] when [db_get_files] finds no candidate for the
    year; the [for] loop leaves it alone; the end of the [try] block,
    reached when the candidates are worked off without an exception,
    moves it by [_delta] again and then sets it back to the starting year
    if it has passed the stopping year ([now.year] in reverse mode, 1900
    otherwise).  At every point it is on the side of the starting year
    the search travels to.  While no turn has raised it lies between the
    starting year and the stopping year at the head of the loop, at most
    one year beyond once [db_update] has run, and at most two years beyond
    between the increment and the test that follows it. *)
Theorem search_year_between_start_and_stop COMPLETED_DOWNLOAD_FOLDER
    APPDATA_FOLDER re_match re_search_ path_exists re_compiles name s manager
    client_cls a w arr_db_file_exists now_year passes p :
  Arr__init__ COMPLETED_DOWNLOAD_FOLDER APPDATA_FOLDER re_match re_search_
    path_exists re_compiles name s manager client_cls = inr a →
  self w = a →
  let reverse := search_in_reverse (Arr.config a) in
  let d := if reverse then 1 else -1 in
  let count_start :=
    if reverse then search_ending_year (Arr.config a)
    else search_starting_year (Arr.config a) in
  let stopping_year := if reverse then now_year else 1900 in
  let head := exec (run_search_loop arr_db_file_exists now_year passes) w in
  let status := eval (run_search_loop arr_db_file_exists now_year passes) w in
  let pts := turn_points count_start stopping_year p head in
  let year v := Arr.search_current_year (self v) in
  let between slack v :=
    year_between reverse count_start stopping_year slack (year v) in
  let past v := year_past_start reverse count_start (year v) in
  Arr.search_current_year a = count_start
  ∧ _delta (Arr.config a) = d
  ∧ past head
  ∧ ((∀ q, q ∈ passes → Pass.raises q = None) →
     between 1 head ∧ (status ≠ waiting → between 0 head))
  ∧ (status = looping →
     (* the next turn, point by point *)
     year (Turn_points.updated pts)
     = (if Pass.no_files p (self head) then year head + d else year head)
     ∧ year (Turn_points.searched pts) = year (Turn_points.updated pts)
     ∧ year (Turn_points.stepped pts) = year (Turn_points.updated pts) + d
     ∧ year (Turn_points.wrapped pts)
       = wrap reverse count_start stopping_year (year (Turn_points.stepped pts))
     ∧ (let left_loop := eval (search_pass count_start stopping_year p) head in
        year (exec (search_pass count_start stopping_year p) head)
        = year (if left_loop
                then match Pass.raises p with
                     | Some _ => Turn_points.searched pts
                     | None => Turn_points.wrapped pts
                     end
                else Turn_points.searched pts))
     ∧ past (Turn_points.updated pts) ∧ past (Turn_points.searched pts)
     ∧ past (Turn_points.stepped pts) ∧ past (Turn_points.wrapped pts)
     ∧ ((∀ q, q ∈ passes → Pass.raises q = None) →
        between 1 (Turn_points.updated pts)
        ∧ between 1 (Turn_points.searched pts)
        ∧ between 2 (Turn_points.stepped pts)
        ∧ between 0 (Turn_points.wrapped pts))).
Proof.
  intros Hinit Hself.
  pose proof (run_search_loop_year _ _ _ _ _ _ _ _ _ _ _ w arr_db_file_exists
                now_year passes Hinit Hself) as (H1 & Hc & Hs & H2 & H3).
  destruct (Arr__init__year _ _ _ _ _ _ _ _ _ _ _ Hinit) as (Hd & _ & _).
  cbv zeta in *.
  split; [exact H1|]. split; [exact Hd|]. split; [exact H2|].
  split; [exact H3|]. intros Hstatus.
  set (reverse := search_in_reverse (Arr.config a)) in *.
  set (count_start := if reverse then search_ending_year (Arr.config a)
                      else search_starting_year (Arr.config a)) in *.
  set (stop := if reverse then now_year else 1900) in *.
  set (head := exec (run_search_loop arr_db_file_exists now_year passes) w) in *.
  destruct (turn_points_year count_start stop p head)
    as (_ & Hy1 & Hy2 & Hy3 & Hy4).
  destruct (search_pass_points count_start stop p head) as [Hleft Hpts].
  cbv zeta in Hy1, Hy2, Hy3, Hy4, Hleft, Hpts.
  set (pts := turn_points count_start stop p head) in *.
  rewrite Hc in Hy1, Hy3, Hy4. fold reverse in Hy4. rewrite Hd in Hy1, Hy3.
  rewrite Hs in Hy1 by (rewrite Hstatus; discriminate). cbn [andb] in Hy1.
  assert (Hy1' : Arr.search_current_year (self (Turn_points.updated pts))
                 = if Pass.no_files p (self head)
                   then Arr.search_current_year (self head)
                        + (if reverse then 1 else -1)
                   else Arr.search_current_year (self head)).
  { rewrite Hy1. destruct (Pass.no_files p (self head)); lia. }
  split; [exact Hy1'|]. split; [exact Hy2|]. split; [exact Hy3|].
  split; [exact Hy4|].
  split; [by rewrite Hleft, Hpts|].
  assert (Hpast1 : year_past_start reverse count_start
                     (Arr.search_current_year (self (Turn_points.updated pts)))).
  { rewrite Hy1'. unfold year_past_start in *.
    destruct reverse, (Pass.no_files p (self head)); lia. }
  split; [exact Hpast1|]. split; [by rewrite Hy2|].
  split; [rewrite Hy3; unfold year_past_start in *; destruct reverse; lia|].
  split.
  { rewrite Hy4, Hy3. unfold year_past_start, wrap in *.
    destruct reverse; repeat case_match; lia. }
  intros Hraises. destruct (H3 Hraises) as [_ Htight].
  assert (Hhead : year_between reverse count_start stop 0
                    (Arr.search_current_year (self head))).
  { apply Htight. rewrite Hstatus. discriminate. }
  assert (Hb1 : year_between reverse count_start stop 1
                  (Arr.search_current_year (self (Turn_points.updated pts)))).
  { rewrite Hy1'. unfold year_between in *.
    destruct reverse, (Pass.no_files p (self head)); lia. }
  split; [exact Hb1|]. split; [by rewrite Hy2|].
  split; [rewrite Hy3; unfold year_between in *; destruct reverse; lia|].
  rewrite Hy4, Hy3. unfold year_between, wrap in *.
  destruct reverse; repeat case_match; lia.
Qed.

(** The local table of a library with one candidate, for 2020. *)
Definition one_candidate_in_2020 (year : Z)
    : list (FilesModel.t * list (list CommandsModel.t)) :=
  if year =? 2020 then [(FilesModel.mk 42, [[]])] else [].

(** C5, the claim as stated fails: in reverse mode with [StartYear] 2000
    and [LastYear] 2020, the first turn of the loop, run in 2026, searches
    the candidate of 2020 and then moves the year to 2021, outside the two
    configured years. *)
Lemma search_year_leaves_configured_years :
  let a := sample_arr (sample_config false (λ _, false)) in
  let w' := exec (run_search_loop true 2026
                    [Pass.mk [] one_candidate_in_2020 None])
              (sample_world a) in
  Arr.search_current_year (self w') = 2021
  ∧ ¬ (search_starting_year (Arr.config a)
       ≤ Arr.search_current_year (self w')
       ≤ search_ending_year (Arr.config a)).
Proof. cbv zeta. vm_compute. split; [done|]. intros [_ H]. by apply H. Qed.

(** ** Searching one candidate *)

(** The search command of the reconciler's kind. *)
Definition search_command (a : Arr.t) (id : Z) : Command :=
  match type (Arr.config a) with
  | sonarr => EpisodeSearch [id]
  | radarr => MoviesSearch [id]
  end.

(** C7: with the search enabled, [maybe_do_search] does one of three
    things.  A pending row for the entry: it returns [True] and changes
    nothing.  Else, as many active search commands as [SearchLimit] or
    more: it returns [False] and changes nothing.  Else it appends one
    pending row for the entry, posts the one search command for it and
    returns [True].  On [False] the loop of [run_search_loop] sleeps 30
    seconds and calls it again on the same entry. *)
Theorem maybe_do_search_three_way commands later file_model w :
  Arr.search_missing (self w) = true →
  let id := FilesModel.EntryId file_model in
  let r := eval (maybe_do_search commands file_model) w in
  let w' := exec (maybe_do_search commands file_model) w in
  (if bool_decide (pending_rows id (model_queue w) ≠ [])
   then r = Some true ∧ w' = w
   else if search_command_limit (Arr.config (self w))
           <=? active_search_commands commands
   then r = Some false ∧ w' = w
   else r = Some true
        ∧ self w' = self w
        ∧ model_queue w' = model_queue w ++ [QueueModel.mk id false]
        ∧ trace w' = trace w ++ [client_post_command (search_command (self w) id)])
  ∧ exec (search_entry (commands :: later) file_model) w
    = (if decide (r = Some false)
       then exec (search_entry later file_model) (exec (emit (sleep 30)) w')
       else w').
Proof.
  intros Hsearch. cbv zeta. split.
  - destruct w as [a q mo ff mq tr ck]. simpl in Hsearch.
    unfold maybe_do_search, arr_db_query_commands_count, queue_insert,
      client_post, search_command.
    unfold_M. rewrite Hsearch. simpl.
    destruct (type (Arr.config a)); simpl;
      (destruct (bool_decide (pending_rows _ mq ≠ [])); simpl;
       rewrite ?Hsearch; simpl; [done|]);
      by destruct (search_command_limit (Arr.config a)
                   <=? active_search_commands commands).
  - cbn [search_entry]. rewrite exec_bind.
    by destruct (eval (maybe_do_search commands file_model) w) as [[]|].
Qed.

(** ** Configuration errors at start-up *)



(** A section with every required key present. *)
Definition sample_section (key uri : string) : ConfigSection.t := {|
  ConfigSection.key := key;
  ConfigSection.Managed := Setting.value true;
  ConfigSection.URI := Some uri;
  ConfigSection.Category := None;
  ConfigSection.APIKey := Some "key";
  ConfigSection.Research := Setting.value true;
  ConfigSection.importMode := None;
  ConfigSection.RefreshDownloadsTimer := Setting.absent;
  ConfigSection.RssSyncTimer := Setting.absent;
  ConfigSection.CaseSensitiveMatches := Setting.value false;
  ConfigSection.FolderExclusionRegex := Some ["sample"];
  ConfigSection.FileNameExclusionRegex := Some ["trailer"];
  ConfigSection.FileExtensionAllowlist := Some [".mkv"];
  ConfigSection.AutoDelete := Setting.absent;
  ConfigSection.IgnoreTorrentsYoungerThan := Setting.absent;
  ConfigSection.MaximumETA := Setting.absent;
  ConfigSection.MaximumDeletablePercentage := Setting.absent;
  ConfigSection.SearchMissing := Setting.value true;
  ConfigSection.AlsoSearchSpecials := Setting.value false;
  ConfigSection.SearchByYear := Setting.value true;
  ConfigSection.SearchInReverse := Setting.value true;
  ConfigSection.StartYear := Setting.value 2000;
  ConfigSection.LastYear := Setting.value 2020;
  ConfigSection.SearchLimit := Setting.absent;
  ConfigSection.DatabaseFile := Some "/config/radarr.db" |}.

(** A stand-in for the two tests of [re]: the pattern occurs at the start
    of the text, or anywhere in it. *)
Definition sample_re_match (ignorecase : bool) (pattern text : string) : bool :=
  String.prefix pattern text.

Fixpoint sample_re_search (ignorecase : bool) (pattern text : string) : bool :=
  String.prefix pattern text
  || match text with
     | EmptyString => false
     | String _ rest => sample_re_search ignorecase pattern rest
     end.


(** ** A missing catalog switches the search off *)

(** The world with [search_missing] set to false. *)
Definition search_off (w : World) : World :=
  mkWorld (Arr.set_search_missing false (self w)) (qbit_manager w)
    (managed_objects w) (ffprobe_available w) (model_queue w) (trace w) (clock w).

(** A computation that runs the same with the search switched off. *)
Definition blind_to_search {A} (m : M A) (w : World) : Prop :=
  exec m (search_off w) = search_off (exec m w)
  ∧ eval m (search_off w) = eval m w.

Lemma blind_bind {A B} (m : M A) (f : A → M B) w :
  blind_to_search m w →
  blind_to_search (f (eval m w)) (exec m w) →
  blind_to_search (m ≫= f) w.
Proof.
  intros [Hm Hv] [Hf Hfv]. split.
  - by rewrite !exec_bind, Hv, Hm.
  - by rewrite !eval_bind, Hv, Hm.
Qed.

Lemma blind_get_self {B} (k : Arr.t → M B) w :
  k (self (search_off w)) = k (self w) →
  blind_to_search (k (self w)) w →
  blind_to_search (get_self ≫= k) w.
Proof.
  intros Hk [He Hv]. split.
  - rewrite !exec_bind. change (eval get_self ?v) with (self v).
    change (exec get_self ?v) with v. by rewrite Hk.
  - rewrite !eval_bind. change (eval get_self ?v) with (self v).
    change (exec get_self ?v) with v. by rewrite Hk.
Qed.

Lemma blind_get_world {B} (k : World → M B) w :
  k (search_off w) = k w →
  blind_to_search (k w) w →
  blind_to_search (get_world ≫= k) w.
Proof.
  intros Hk [He Hv]. split.
  - rewrite !exec_bind. change (eval get_world ?v) with v.
    change (exec get_world ?v) with v. by rewrite Hk.
  - rewrite !eval_bind. change (eval get_world ?v) with v.
    change (exec get_world ?v) with v. by rewrite Hk.
Qed.

Lemma blind_for_each {A} (xs : list A) (body : A → M unit) w :
  (∀ x v, blind_to_search (body x) v) →
  blind_to_search (for_each xs body) w.
Proof.
  intros Hbody. revert w. induction xs as [|x xs IH]; intros w; [done|].
  cbn [for_each]. apply blind_bind; [apply Hbody|apply IH].
Qed.

Lemma blind_mret {A} (x : A) w : blind_to_search (mret x) w.
Proof. done. Qed.

Lemma blind_emit e w : blind_to_search (emit e) w.
Proof. done. Qed.

Lemma blind_modify_qbit_manager f w :
  blind_to_search (modify_qbit_manager f) w.
Proof. done. Qed.

Lemma blind_modify_self f w :
  (∀ a, f (Arr.set_search_missing false a) = Arr.set_search_missing false (f a)) →
  blind_to_search (modify_self f) w.
Proof.
  intros Hf. split; [|done]. unfold search_off, exec, modify_self. simpl.
  by rewrite Hf.
Qed.

Ltac blind_step :=
  match goal with
  | |- ∀ _, _ => intros ?
  | |- blind_to_search (get_self ≫= _) ?w =>
      apply blind_get_self; [by destruct w as [[] ? ? ? ? ? ?]|cbv beta zeta]
  | |- blind_to_search (get_world ≫= _) ?w =>
      apply blind_get_world; [by destruct w as [[] ? ? ? ? ? ?]|cbv beta zeta]
  | |- blind_to_search (_ ≫= _) _ => apply blind_bind
  | |- blind_to_search (for_each _ _) _ => apply blind_for_each
  | |- blind_to_search (mret _) _ => apply blind_mret
  | |- blind_to_search pass _ => apply blind_mret
  | |- blind_to_search (emit _) _ => apply blind_emit
  | |- blind_to_search (modify_qbit_manager _) _ =>
      apply blind_modify_qbit_manager
  | |- blind_to_search (modify_self _) _ =>
      apply blind_modify_self; by intros []
  | |- blind_to_search (if ?b then _ else _) _ => destruct b
  | |- blind_to_search (match ?x with _ => _ end) _ => destruct x
  end.

Ltac blind_tac := repeat blind_step.

Lemma _process_paused_blind w : blind_to_search _process_paused w.
Proof. unfold _process_paused, set_needs_cleanup. blind_tac. Qed.

Lemma _process_errored_blind w : blind_to_search _process_errored w.
Proof.
  unfold _process_errored, set_needs_cleanup, timed_ignore_cache_add.
  blind_tac.
Qed.

Lemma _process_file_priority_blind w :
  blind_to_search _process_file_priority w.
Proof.
  unfold _process_file_priority. blind_tac.
  unfold _process_file_priority_entry, set_needs_cleanup. blind_tac.
Qed.

Lemma _process_imports_blind validate path_exists w :
  blind_to_search (_process_imports validate path_exists) w.
Proof.
  unfold _process_imports, set_needs_cleanup. blind_tac.
  unfold _process_imports_torrent, post_command. blind_tac.
Qed.

Lemma _process_failed_blind w : blind_to_search _process_failed w.
Proof.
  unfold _process_failed, set_needs_cleanup, evict. blind_tac.
  unfold _process_failed_individual, delete_from_queue, post_command.
  blind_tac.
Qed.

Lemma _remove_empty_folders_loop_blind entries acc w :
  blind_to_search (_remove_empty_folders_loop entries acc) w.
Proof.
  revert acc w. induction entries as [|entry rest IH]; intros acc w; simpl.
  - blind_tac.
  - apply blind_bind; [|apply IH].
    unfold _remove_empty_folders_entry. blind_tac.
Qed.

Lemma folder_cleanup_blind view w : blind_to_search (folder_cleanup view) w.
Proof.
  unfold folder_cleanup, set_needs_cleanup. blind_tac.
  - unfold folder_cleanup_file, file_is_probeable. blind_tac.
  - unfold _remove_empty_folders.
    apply blind_bind; [apply _remove_empty_folders_loop_blind|].
    blind_tac.
Qed.

Lemma filter_files_blind torrent files _remove_files total w :
  blind_to_search (filter_files torrent files _remove_files total) w.
Proof.
  revert _remove_files total w.
  induction files as [|file rest IH]; intros rf total w; cbn [filter_files].
  - blind_tac.
  - destruct (TorrentFile.priority file =? 0); [apply IH|].
    apply blind_get_self; [by destruct w as [[] ? ? ? ? ? ?]|].
    cbv beta zeta. apply blind_bind; [blind_tac|apply IH].
Qed.

Lemma guard_search_off FAILED_CATEGORY RECHECK_CATEGORY r w time_now torrent :
  guard FAILED_CATEGORY RECHECK_CATEGORY r (search_off w) time_now torrent
  = guard FAILED_CATEGORY RECHECK_CATEGORY r w time_now torrent.
Proof. destruct w as [[] ? ? ? ? ? ?]. by destruct r. Qed.

Lemma classify_blind FAILED_CATEGORY RECHECK_CATEGORY time_now torrent w :
  blind_to_search (classify FAILED_CATEGORY RECHECK_CATEGORY time_now torrent) w.
Proof.
  unfold classify.
  apply blind_bind; [unfold refresh_caches; blind_tac|].
  generalize (exec (refresh_caches RECHECK_CATEGORY torrent) w). clear w.
  intros w. apply blind_get_world.
  { cbv beta zeta. by rewrite !guard_search_off. }
  cbv beta zeta.
  repeat match goal with
         | |- blind_to_search (if ?b then _ else _) _ => destruct b
         end;
    cbn [action]; unfold add_delete, add_recheck, add_pause, add_resume,
      add_skip_blacklist, timed_skip_add; blind_tac.
  apply filter_files_blind.
Qed.

Lemma process_torrents_blind validate path_exists FAILED_CATEGORY
    RECHECK_CATEGORY queue time_now torrents view w :
  blind_to_search
    (process_torrents validate path_exists FAILED_CATEGORY RECHECK_CATEGORY
       queue time_now torrents view) w.
Proof.
  unfold process_torrents, process, classify_all.
  apply blind_bind; [unfold refresh_download_queue; blind_tac|].
  apply blind_bind;
    [apply blind_for_each; intros t v; apply classify_blind|].
  apply blind_bind; [apply _process_paused_blind|].
  apply blind_bind; [apply _process_errored_blind|].
  apply blind_bind; [apply _process_file_priority_blind|].
  apply blind_bind; [apply _process_imports_blind|].
  apply blind_bind; [apply _process_failed_blind|].
  apply folder_cleanup_blind.
Qed.

(** C9: when the catalog file does not exist, the first
    [register_search_mode] leaves [search_missing] false; [run_search_loop]
    then returns at once, with no call made and the local pending-search
    table as it was; [spawn_child_processes] starts the torrent loop all
    the same; and a tick of the reconciler does with the search switched
    off what it does otherwise. *)
Theorem missing_catalog_switches_search_off validate path_exists
    FAILED_CATEGORY RECHECK_CATEGORY queue time_now torrents view now_year
    passes w :
  Arr.search_setup_completed (self w) = false →
  let w' := exec (run_search_loop false now_year passes) w in
  Arr.search_missing (self (exec (register_search_mode false) w)) = false
  ∧ eval (run_search_loop false now_year passes) w = returned
  ∧ trace w' = trace w
  ∧ model_queue w' = model_queue w
  ∧ process_torrent_loop ∈ spawn_child_processes (self w')
  ∧ exec (process_torrents validate path_exists FAILED_CATEGORY
            RECHECK_CATEGORY queue time_now torrents view) (search_off w)
    = search_off
        (exec (process_torrents validate path_exists FAILED_CATEGORY
                 RECHECK_CATEGORY queue time_now torrents view) w).
Proof.
  intros Hsetup.
  split; [|split; [|split; [|split; [|split]]]].
  6: apply process_torrents_blind.
  all: destruct w as [[] ? ? ? ? ? ?]; simpl in Hsetup; subst;
    unfold run_search_loop, register_search_mode, spawn_child_processes;
    unfold_M;
    match goal with
    | |- context [negb ?b] => destruct b
    end; simpl; try done.
  all: repeat constructor.
Qed.

(** ** Instances *)

(** A torrent that has just completed: uploading, nothing left, finished
    five seconds ago, not yet seeding for more than a second. *)
Definition fresh_torrent : TorrentDictionary := {|
  Torrent.hash := "abc"; Torrent.name := "Movie";
  Torrent.category := "radarr-movies"; Torrent.state_enum := UPLOADING;
  Torrent.progress := 1%Q; Torrent.availability := 1%Q;
  Torrent.added_on := 1000; Torrent.completion_on := 1095;
  Torrent.last_activity := 1095; Torrent.eta := 0;
  Torrent.seeding_time := 0; Torrent.amount_left := 0;
  Torrent.content_path := "/downloads/radarr-movies/Movie";
  Torrent.files := [TorrentFile.mk 0 "movie.mkv" 1] |}.

(** C1, the claim as stated fails: for a torrent that has just completed
    no condition of the chain holds, no branch fires and the world is as
    [refresh_caches] leaves it. *)
Lemma classify_may_fire_no_branch :
  let w := sample_world (sample_arr (sample_config false (λ _, false))) in
  (¬ ∃ r, fired "failed" "recheck" w 1100%Q fresh_torrent = Some r)
  ∧ (∀ r, guard "failed" "recheck" r w 1100%Q fresh_torrent = false)
  ∧ exec (classify "failed" "recheck" 1100%Q fresh_torrent) w
    = exec (refresh_caches "recheck" fresh_torrent) w.
Proof.
  cbv zeta. split; [|split].
  - intros [r Hr]. vm_compute in Hr. discriminate.
  - intros r. destruct r; vm_compute; reflexivity.
  - vm_compute. reflexivity.
Qed.

(** The downloading torrent of the scenario reaches rule 14 and no rule
    before it holds; for the torrent that has just completed none holds. *)
Lemma classify_first_match_only_witness :
  let w := sample_world (sample_arr (sample_config false (λ _, false))) in
  fired "failed" "recheck" w 1100%Q sample_torrent = Some uncompleted
  ∧ (∃ n : nat, rules !! n = Some uncompleted
       ∧ guard "failed" "recheck" uncompleted w 1100%Q sample_torrent = true
       ∧ ∀ (m : nat) r', (m < n)%nat → rules !! m = Some r' →
           guard "failed" "recheck" r' w 1100%Q sample_torrent = false)
  ∧ fired "failed" "recheck" w 1100%Q fresh_torrent = None
  ∧ ∀ r, guard "failed" "recheck" r w 1100%Q fresh_torrent = false.
Proof.
  cbv zeta.
  assert (H1 : fired "failed" "recheck"
                 (sample_world (sample_arr (sample_config false (λ _, false))))
                 1100%Q sample_torrent = Some uncompleted)
    by (vm_compute; reflexivity).
  assert (H2 : fired "failed" "recheck"
                 (sample_world (sample_arr (sample_config false (λ _, false))))
                 1100%Q fresh_torrent = None)
    by (vm_compute; reflexivity).
  split; [exact H1|]. split; [|split; [exact H2|]].
  - exact (proj1 (proj2 (classify_first_match_only "failed" "recheck" 1100%Q
                           sample_torrent _)) uncompleted H1).
  - exact (proj1 (proj2 (proj2 (classify_first_match_only "failed" "recheck"
                                   1100%Q fresh_torrent _))) H2).
Defined.

(** A download paused at half its progress. *)
Definition paused_torrent : TorrentDictionary := {|
  Torrent.hash := "abc"; Torrent.name := "Movie";
  Torrent.category := "radarr-movies"; Torrent.state_enum := PAUSED_DOWNLOAD;
  Torrent.progress := (1 # 2)%Q; Torrent.availability := 1%Q;
  Torrent.added_on := 1000; Torrent.completion_on := 0;
  Torrent.last_activity := 1090; Torrent.eta := 120;
  Torrent.seeding_time := 0; Torrent.amount_left := 500;
  Torrent.content_path := "/downloads/radarr-movies/Movie";
  Torrent.files := [TorrentFile.mk 0 "movie.mkv" 1] |}.

(** The tick that meets it puts its hash in [resume] and makes no
    [torrents_resume] call; [_process_resume], had it been run, would
    have made one. *)
Example paused_download_stays_in_resume :
  let w' := exec (process_torrents id (λ _, true) "failed" "recheck" []
                    1100%Q [paused_torrent] (FolderView.mk [] [] false))
              (sample_world (sample_arr (sample_config false (λ _, false)))) in
  Arr.resume (self w') = {["abc"]}
  ∧ resumed (trace w') = []
  ∧ resumed (trace (exec _process_resume w')) = [{["abc"]}].
Proof. cbv zeta. repeat split; vm_compute; reflexivity. Qed.

(** A reconciler that is to delete [abc] (and block it) and [def]
    (without blocking it); both resolve through the queue cache. *)
Definition failed_world : World :=
  sample_world
    (Arr.set_cache {["ABC" := 7; "DEF" := 8]}
       (Arr.set_delete {["abc"]}
          (Arr.set_skip_blacklist {["def"]}
             (sample_arr (sample_config false (λ _, false)))))).

(** For [failed_world]: [abc] is blocked, both caches forget it and
    [delete] is emptied. *)
Lemma _process_failed_deletes_each_resolved_hash_witness :
  let a := self failed_world in
  let w' := exec _process_failed failed_world in
  "abc" ∈ Arr.delete a ∪ Arr.skip_blacklist a
  ∧ (∀ s, s ∈ Arr.skip_blacklist a → upper s = upper "abc" → s = "abc")
  ∧ blocklist_flag (Arr.skip_blacklist a) "abc"
    = bool_decide ("abc" ∉ Arr.skip_blacklist a)
  ∧ qBitManager.name_cache (qbit_manager w') !! "abc" = None
  ∧ Arr.delete (self w') = ∅.
Proof.
  cbv zeta.
  assert (Hin : "abc" ∈ Arr.delete (self failed_world)
                        ∪ Arr.skip_blacklist (self failed_world)).
  { apply (bool_decide_unpack _). vm_compute. exact I. }
  assert (Hcase : ∀ s, s ∈ Arr.skip_blacklist (self failed_world) →
                    upper s = upper "abc" → s = "abc").
  { intros s Hs.
    change (Arr.skip_blacklist (self failed_world))
      with ({["def"]} : gset string) in Hs.
    apply elem_of_singleton in Hs. subst s. vm_compute. discriminate. }
  pose proof (_process_failed_deletes_each_resolved_hash failed_world) as H.
  cbv zeta in H. destruct H as (_ & Hd & _ & Hcaches & Hflag).
  split; [exact Hin|]. split; [exact Hcase|].
  split; [exact (Hflag "abc" Hin Hcase)|].
  split; [exact (proj1 (Hcaches "abc" Hin))|exact Hd].
Defined.

(** A tick with one completed torrent: the set keeps its members while
    the completed folder is not empty and is emptied by the cleanup that
    finds it empty. *)
Lemma sent_to_scan_hashes_grows_between_resets_witness :
  let w := sample_world
             (Arr.set_sent_to_scan_hashes {["old"]}
                (sample_arr (sample_config true (λ _, false)))) in
  let tick view :=
    process_torrents id (λ _, true) "failed" "recheck" [] 1100%Q
      [completed_torrent] view in
  let kept := FolderView.mk [] [] false in
  let emptied := FolderView.mk [] [] true in
  Arr.sent_to_scan_hashes (self w)
    ⊆ Arr.sent_to_scan_hashes (self (exec (tick kept) w))
  ∧ Arr.sent_to_scan_hashes (self (exec (tick emptied) w)) = ∅
  ∧ managed_objects w !! "radarr-movies" = Some this
  ∧ target_sent_to_scan_hashes w "radarr-movies"
    = Arr.sent_to_scan_hashes (self w).
Proof.
  cbv zeta.
  set (w := sample_world
              (Arr.set_sent_to_scan_hashes {["old"]}
                 (sample_arr (sample_config true (λ _, false))))).
  pose proof (sent_to_scan_hashes_grows_between_resets id (λ _, true)
                "failed" "recheck" [] 1100%Q [completed_torrent]
                (FolderView.mk [] [] false) w) as Hkept.
  pose proof (sent_to_scan_hashes_grows_between_resets id (λ _, true)
                "failed" "recheck" [] 1100%Q [completed_torrent]
                (FolderView.mk [] [] true) w) as Hemptied.
  cbv zeta in Hkept, Hemptied.
  destruct Hkept as (_ & Hgrow & _ & Hown).
  destruct Hemptied as (_ & Hreset & _).
  assert (Hthis : managed_objects w !! "radarr-movies" = Some this)
    by (vm_compute; reflexivity).
  split; [|split; [|split; [exact Hthis|exact (Hown _ Hthis)]]].
  - rewrite andb_false_r in Hgrow. exact Hgrow.
  - assert (Hdue : auto_delete (Arr.config (self w))
                   && Arr.needs_cleanup
                        (self (exec (before_folder_cleanup id (λ _, true)
                                       "failed" "recheck" [] 1100%Q
                                       [completed_torrent]) w))
                   && true = true) by (vm_compute; reflexivity).
    cbn [FolderView.completed_folder_empty] in Hreset.
    rewrite Hdue in Hreset. exact (proj1 Hreset).
Defined.

(** The reconciler [Arr.__init__] builds from [sample_section]. *)
Definition sample_init : Exception + Arr.t :=
  Arr__init__ "/downloads" "/appdata" sample_re_match sample_re_search
    (λ _, true) (λ _, true) "radarr-a"
    (sample_section "radarr-a" "http://localhost:7878")
    (ArrManager.mk ∅ ∅ ∅ []) (Some radarr).

Definition sample_init_arr : Arr.t :=
  match sample_init with
  | inr a => a
  | inl _ => sample_arr (sample_config false (λ _, false))
  end.

(** A library without a candidate: in 2026, from [LastYear] 2020, the
    first turn leaves the year at 2022; the next one takes it to 2023 in
    [db_update] and to 2024 at its end, within 2020 and 2026 throughout. *)
Lemma search_year_between_start_and_stop_witness :
  let nothing := Pass.mk [] (λ _, []) None in
  let head := exec (run_search_loop true 2026 [nothing])
                (sample_world sample_init_arr) in
  let pts := turn_points 2020 2026 nothing head in
  sample_init = inr sample_init_arr
  ∧ (∀ q, q ∈ [nothing] → Pass.raises q = None)
  ∧ eval (run_search_loop true 2026 [nothing]) (sample_world sample_init_arr)
    = looping
  ∧ Arr.search_current_year sample_init_arr = 2020
  ∧ year_between true 2020 2026 0 (Arr.search_current_year (self head))
  ∧ year_between true 2020 2026 1
      (Arr.search_current_year (self (Turn_points.updated pts)))
  ∧ year_between true 2020 2026 2
      (Arr.search_current_year (self (Turn_points.stepped pts)))
  ∧ year_between true 2020 2026 0
      (Arr.search_current_year (self (Turn_points.wrapped pts))).
Proof.
  cbv zeta.
  assert (Hinit : sample_init = inr sample_init_arr) by (vm_compute; reflexivity).
  assert (Hraises : ∀ q, q ∈ [Pass.mk [] (λ _, []) None] → Pass.raises q = None).
  { intros q Hq. apply elem_of_cons in Hq as [->|Hq]; [reflexivity|].
    by apply elem_of_nil in Hq. }
  assert (Hstatus : eval (run_search_loop true 2026 [Pass.mk [] (λ _, []) None])
                      (sample_world sample_init_arr) = looping).
  { vm_compute. reflexivity. }
  pose proof (search_year_between_start_and_stop "/downloads" "/appdata"
                sample_re_match sample_re_search (λ _, true) (λ _, true)
                "radarr-a"
                (sample_section "radarr-a" "http://localhost:7878")
                (ArrManager.mk ∅ ∅ ∅ []) (Some radarr) sample_init_arr
                (sample_world sample_init_arr) true 2026
                [Pass.mk [] (λ _, []) None] (Pass.mk [] (λ _, []) None)
                Hinit eq_refl) as H.
  cbv zeta in H.
  destruct H as (Hstart & _ & _ & Hhead & Hturn).
  destruct (Hturn Hstatus) as (_ & _ & _ & _ & _ & _ & _ & _ & _ & Hbetween).
  destruct (Hbetween Hraises) as (Hb1 & _ & Hb2 & Hb0).
  split; [exact Hinit|]. split; [exact Hraises|]. split; [exact Hstatus|].
  split; [exact Hstart|].
  split; [apply (proj2 (Hhead Hraises)); rewrite Hstatus; discriminate|].
  split; [exact Hb1|]. split; [exact Hb2|exact Hb0].
Defined.

(** Five active search commands against a limit of five: [False], no
    change, then 30 seconds of sleep and a second call. *)
Lemma maybe_do_search_three_way_witness :
  let w := sample_world (sample_arr (sample_config false (λ _, false))) in
  let full := [CommandsModel.mk "MoviesSearch" None;
               CommandsModel.mk "MoviesSearch" None;
               CommandsModel.mk "EpisodeSearch" None;
               CommandsModel.mk "MoviesSearch" None;
               CommandsModel.mk "MissingMoviesSearch" None] in
  let file_model := FilesModel.mk 42 in
  Arr.search_missing (self w) = true
  ∧ (eval (maybe_do_search full file_model) w = Some false
     ∧ exec (maybe_do_search full file_model) w = w)
  ∧ exec (search_entry [full; []] file_model) w
    = exec (search_entry [[]] file_model)
        (exec (emit (sleep 30)) (exec (maybe_do_search full file_model) w)).
Proof.
  cbv zeta.
  pose proof (maybe_do_search_three_way
                [CommandsModel.mk "MoviesSearch" None;
                 CommandsModel.mk "MoviesSearch" None;
                 CommandsModel.mk "EpisodeSearch" None;
                 CommandsModel.mk "MoviesSearch" None;
                 CommandsModel.mk "MissingMoviesSearch" None]
                [[]] (FilesModel.mk 42)
                (sample_world (sample_arr (sample_config false (λ _, false))))
                eq_refl) as H.
  cbv zeta in H. destruct H as [Hway Hretry].
  split; [reflexivity|]. split; [exact Hway|exact Hretry].
Defined.


(** A reconciler with the search enabled and no catalog file. *)
Lemma missing_catalog_switches_search_off_witness :
  let w := sample_world (sample_arr (sample_config false (λ _, false))) in
  let passes := [Pass.mk [] (λ _, [(FilesModel.mk 42, [[]])]) None] in
  let w' := exec (run_search_loop false 2026 passes) w in
  Arr.search_setup_completed (self w) = false
  ∧ Arr.search_missing (self w) = true
  ∧ Arr.search_missing (self w') = false
  ∧ eval (run_search_loop false 2026 passes) w = returned
  ∧ trace w' = trace w
  ∧ model_queue w' = model_queue w
  ∧ process_torrent_loop ∈ spawn_child_processes (self w').
Proof.
  cbv zeta.
  pose proof (missing_catalog_switches_search_off id (λ _, true) "failed"
                "recheck" [] 1100%Q [sample_torrent] (FolderView.mk [] [] false)
                2026 [Pass.mk [] (λ _, [(FilesModel.mk 42, [[]])]) None]
                (sample_world (sample_arr (sample_config false (λ _, false))))
                eq_refl) as H.
  cbv zeta in H. destruct H as (Hoff & Hret & Htrace & Hqueue & Hspawn & _).
  split; [reflexivity|]. split; [reflexivity|]. split; [exact Hoff|].
  split; [exact Hret|]. split; [exact Htrace|]. split; [exact Hqueue|].
  exact Hspawn.
Defined.

(** One entry for [abc], no name known for it. *)
Lemma file_priority_without_name_is_dropped_witness :
  let w := sample_world
             (Arr.set_change_priority {["abc" := [0; 2]]}
                (sample_arr (sample_config false (λ _, false)))) in
  let w' := exec _process_file_priority w in
  Arr.change_priority (self w) !! "abc" = Some [0; 2]
  ∧ qBitManager.name_cache (qbit_manager w) !! "abc" = None
  ∧ ∃ calls,
      trace w' = trace w ++ calls
      ∧ (∀ file_ids priority,
           torrents_file_priority "abc" file_ids priority ∉ calls)
      ∧ log_error ("Torrent does not exist? " +:+ "abc") ∈ calls
      ∧ Arr.change_priority (self w') = ∅.
Proof.
  cbv zeta.
  assert (Hentry : Arr.change_priority
                     (self (sample_world
                              (Arr.set_change_priority {["abc" := [0; 2]]}
                                 (sample_arr (sample_config false (λ _, false))))))
                   !! "abc" = Some [0; 2]) by (vm_compute; reflexivity).
  assert (Hname : qBitManager.name_cache
                    (qbit_manager
                       (sample_world
                          (Arr.set_change_priority {["abc" := [0; 2]]}
                             (sample_arr (sample_config false (λ _, false))))))
                  !! "abc" = None) by (vm_compute; reflexivity).
  split; [exact Hentry|]. split; [exact Hname|].
  exact (file_priority_without_name_is_dropped _ "abc" [0; 2] Hentry Hname).
Defined.


(** * More of the reconciler *)

(** ** What each step of the flush says, and to whom *)

(** The events a computation adds to the trace all satisfy [P]. *)
Definition emits (P : event → Prop) (w w' : World) : Prop :=
  ∃ calls, trace w' = trace w ++ calls ∧ Forall P calls.

#[local] Instance emits_refl P : Reflexive (emits P).
Proof. intros w. exists []. by rewrite app_nil_r. Qed.

#[local] Instance emits_trans P : Transitive (emits P).
Proof.
  intros w1 w2 w3 (c1 & H1 & F1) (c2 & H2 & F2). exists (c1 ++ c2).
  split; [by rewrite H2, H1, app_assoc|by apply Forall_app].
Qed.

Lemma emits_emit (P : event → Prop) e : P e → preserves (emits P) (emit e).
Proof. intros He w. exists [e]. split; [done|by constructor]. Qed.

Lemma emits_silent {A} P (m : M A) :
  (∀ w, trace (exec m w) = trace w) → preserves (emits P) m.
Proof. intros Hm w. exists []. by rewrite Hm, app_nil_r. Qed.

Lemma emits_impl (P Q : event → Prop) w w' :
  (∀ e, P e → Q e) → emits P w w' → emits Q w w'.
Proof.
  intros HPQ (calls & Ht & HF). exists calls. split; [done|].
  by eapply Forall_impl.
Qed.

Ltac emits_leaf :=
  first
    [ apply emits_silent; by intros []
    | apply emits_emit; simpl; by eauto ].

Ltac emits_tac := repeat first [ preserves_step | emits_leaf ].

Definition is_pause (e : event) : Prop :=
  match e with torrents_pause _ => True | _ => False end.
Definition is_recheck (e : event) : Prop :=
  match e with torrents_recheck _ => True | _ => False end.
Definition is_file_priority (e : event) : Prop :=
  match e with
  | torrents_file_priority _ _ _ | log_error _ => True
  | _ => False
  end.
Definition is_scan (e : event) : Prop :=
  match e with
  | request_post (DownloadedEpisodesScan _ _ _) => True
  | _ => False
  end.
Definition is_removal (e : event) : Prop :=
  match e with
  | request_del _ _ _ | torrents_delete _ _
  | get_episode_by_episode_id _ | get_movie_by_movie_id _
  | request_post (EpisodeSearch _) | request_post (MoviesSearch _) => True
  | _ => False
  end.
Definition is_file_system (e : event) : Prop :=
  match e with unlink _ | rmdir _ => True | _ => False end.

Lemma _process_paused_emits : preserves (emits is_pause) _process_paused.
Proof. unfold _process_paused, set_needs_cleanup. emits_tac. Qed.

Lemma _process_errored_emits : preserves (emits is_recheck) _process_errored.
Proof.
  unfold _process_errored, set_needs_cleanup, timed_ignore_cache_add.
  emits_tac.
Qed.

Lemma _process_file_priority_emits :
  preserves (emits is_file_priority) _process_file_priority.
Proof.
  unfold _process_file_priority. emits_tac.
  unfold _process_file_priority_entry, set_needs_cleanup. emits_tac.
Qed.

Lemma _process_imports_emits validate path_exists :
  preserves (emits is_scan) (_process_imports validate path_exists).
Proof.
  unfold _process_imports, set_needs_cleanup. emits_tac.
  unfold _process_imports_torrent, post_command. emits_tac.
Qed.

Lemma _process_failed_emits : preserves (emits is_removal) _process_failed.
Proof.
  unfold _process_failed, set_needs_cleanup, evict. emits_tac.
  unfold _process_failed_individual, delete_from_queue, post_command.
  emits_tac.
Qed.

Lemma _remove_empty_folders_loop_emits entries acc :
  preserves (emits is_file_system) (_remove_empty_folders_loop entries acc).
Proof.
  revert acc. induction entries as [|entry rest IH]; intros acc; simpl.
  - emits_tac.
  - apply preserves_bind; [apply _| |done].
    unfold _remove_empty_folders_entry. emits_tac.
Qed.

Lemma folder_cleanup_emits view :
  preserves (emits is_file_system) (folder_cleanup view).
Proof.
  unfold folder_cleanup, set_needs_cleanup. emits_tac.
  - unfold folder_cleanup_file, file_is_probeable. emits_tac.
  - unfold _remove_empty_folders.
    apply preserves_bind; [apply _|apply _remove_empty_folders_loop_emits|].
    emits_tac.
Qed.

(** X1: the calls of one flush come in six runs, in this order: pauses
    of the download client, rechecks, file-priority calls (or the error
    line that replaces one), scan commands to the manager, the removals
    (queue deletions, look-ups and re-searches, the deletion from the
    client), and last the removals from the file system. *)
Theorem process_flush_order validate path_exists view w :
  ∃ pauses rechecks priorities scan_commands removals cleanup,
    trace (exec (process validate path_exists view) w)
    = trace w ++ pauses ++ rechecks ++ priorities ++ scan_commands
        ++ removals ++ cleanup
    ∧ Forall is_pause pauses
    ∧ Forall is_recheck rechecks
    ∧ Forall is_file_priority priorities
    ∧ Forall is_scan scan_commands
    ∧ Forall is_removal removals
    ∧ Forall is_file_system cleanup.
Proof.
  unfold process. rewrite !exec_bind.
  destruct (_process_paused_emits w) as (c1 & H1 & F1).
  set (w1 := exec _process_paused w) in *.
  destruct (_process_errored_emits w1) as (c2 & H2 & F2).
  set (w2 := exec _process_errored w1) in *.
  destruct (_process_file_priority_emits w2) as (c3 & H3 & F3).
  set (w3 := exec _process_file_priority w2) in *.
  destruct (_process_imports_emits validate path_exists w3) as (c4 & H4 & F4).
  set (w4 := exec (_process_imports validate path_exists) w3) in *.
  destruct (_process_failed_emits w4) as (c5 & H5 & F5).
  set (w5 := exec _process_failed w4) in *.
  destruct (folder_cleanup_emits view w5) as (c6 & H6 & F6).
  exists c1, c2, c3, c4, c5, c6.
  split; [|done].
  rewrite H6, H5, H4, H3, H2, H1. by rewrite <- !app_assoc.
Qed.

(** ** What a flush leaves behind *)

(** Intents that are empty stay empty. *)
Definition stays_flushed (w w' : World) : Prop :=
  (Arr.pause (self w) = ∅ → Arr.pause (self w') = ∅)
  ∧ (Arr.recheck (self w) = ∅ → Arr.recheck (self w') = ∅)
  ∧ (Arr.change_priority (self w) = ∅ → Arr.change_priority (self w') = ∅)
  ∧ (Arr.import_torrents (self w) = [] → Arr.import_torrents (self w') = [])
  ∧ (Arr.delete (self w) = ∅ → Arr.delete (self w') = ∅).

#[local] Instance stays_flushed_refl : Reflexive stays_flushed.
Proof. by intros w. Qed.

#[local] Instance stays_flushed_trans : Transitive stays_flushed.
Proof.
  intros w1 w2 w3 (? & ? & ? & ? & ?) (? & ? & ? & ? & ?).
  repeat split; auto.
Qed.

Lemma stays_flushed_other {A} (m : M A) :
  (∀ w, self (exec m w) = self w) → preserves stays_flushed m.
Proof. intros Hm w. unfold stays_flushed. by rewrite Hm. Qed.

Lemma stays_flushed_modify_self f :
  (∀ a, (Arr.pause a = ∅ → Arr.pause (f a) = ∅)
        ∧ (Arr.recheck a = ∅ → Arr.recheck (f a) = ∅)
        ∧ (Arr.change_priority a = ∅ → Arr.change_priority (f a) = ∅)
        ∧ (Arr.import_torrents a = [] → Arr.import_torrents (f a) = [])
        ∧ (Arr.delete a = ∅ → Arr.delete (f a) = ∅)) →
  preserves stays_flushed (modify_self f).
Proof. intros Hf w. apply Hf. Qed.

Ltac stays_flushed_leaf :=
  first
    [ apply stays_flushed_other; by intros []
    | apply stays_flushed_modify_self; intros []; simpl;
      repeat split; try done; intros ->; apply delete_empty ].

Ltac stays_flushed_tac := repeat first [ preserves_step | stays_flushed_leaf ].

Lemma _process_errored_stays_flushed : preserves stays_flushed _process_errored.
Proof.
  unfold _process_errored, set_needs_cleanup, timed_ignore_cache_add.
  stays_flushed_tac.
Qed.

Lemma _process_file_priority_stays_flushed :
  preserves stays_flushed _process_file_priority.
Proof.
  unfold _process_file_priority. stays_flushed_tac.
  unfold _process_file_priority_entry, set_needs_cleanup. stays_flushed_tac.
Qed.

Lemma _process_imports_stays_flushed validate path_exists :
  preserves stays_flushed (_process_imports validate path_exists).
Proof.
  unfold _process_imports, set_needs_cleanup. stays_flushed_tac.
  unfold _process_imports_torrent, post_command. stays_flushed_tac.
Qed.

Lemma _process_failed_stays_flushed : preserves stays_flushed _process_failed.
Proof.
  unfold _process_failed, set_needs_cleanup, evict. stays_flushed_tac.
  unfold _process_failed_individual, delete_from_queue, post_command.
  stays_flushed_tac.
Qed.

(** The cleanup touches no intent. *)
Definition same_intents (w w' : World) : Prop :=
  Arr.pause (self w') = Arr.pause (self w)
  ∧ Arr.recheck (self w') = Arr.recheck (self w)
  ∧ Arr.change_priority (self w') = Arr.change_priority (self w)
  ∧ Arr.import_torrents (self w') = Arr.import_torrents (self w)
  ∧ Arr.delete (self w') = Arr.delete (self w)
  ∧ Arr.skip_blacklist (self w') = Arr.skip_blacklist (self w)
  ∧ Arr.resume (self w') = Arr.resume (self w).

#[local] Instance same_intents_refl : Reflexive same_intents.
Proof. by intros w. Qed.

#[local] Instance same_intents_trans : Transitive same_intents.
Proof.
  intros w1 w2 w3 (? & ? & ? & ? & ? & ? & ?) (? & ? & ? & ? & ? & ? & ?).
  repeat split; congruence.
Qed.

Lemma same_intents_other {A} (m : M A) :
  (∀ w, self (exec m w) = self w) → preserves same_intents m.
Proof. intros Hm w. unfold same_intents. by rewrite Hm. Qed.

Lemma same_intents_modify_self f :
  (∀ a, same_intents (mkWorld a (qBitManager.mk ∅ ∅) ∅ true [] [] 0)
          (mkWorld (f a) (qBitManager.mk ∅ ∅) ∅ true [] [] 0)) →
  preserves same_intents (modify_self f).
Proof. intros Hf w. apply (Hf (self w)). Qed.

Ltac same_intents_leaf :=
  first
    [ apply same_intents_other; by intros []
    | apply same_intents_modify_self; by intros [] ].

Ltac same_intents_tac := repeat first [ preserves_step | same_intents_leaf ].

Lemma _remove_empty_folders_loop_same_intents entries acc :
  preserves same_intents (_remove_empty_folders_loop entries acc).
Proof.
  revert acc. induction entries as [|entry rest IH]; intros acc; simpl.
  - same_intents_tac.
  - apply preserves_bind; [apply _| |done].
    unfold _remove_empty_folders_entry. same_intents_tac.
Qed.

Lemma folder_cleanup_same_intents view :
  preserves same_intents (folder_cleanup view).
Proof.
  unfold folder_cleanup, set_needs_cleanup. same_intents_tac.
  - unfold folder_cleanup_file, file_is_probeable. same_intents_tac.
  - unfold _remove_empty_folders.
    apply preserves_bind;
      [apply _|apply _remove_empty_folders_loop_same_intents|].
    same_intents_tac.
Qed.

Lemma _process_paused_clears w :
  Arr.pause (self (exec _process_paused w)) = ∅.
Proof.
  destruct w as [[] ? ? ? ? ? ?]. unfold _process_paused, set_needs_cleanup.
  unfold_M. by case_bool_decide as H.
Qed.

(** Adding a list of members to an expiring set at one time. *)
Definition add_all (now : Q) (hashes : list string) (s : ExpiringSet.t)
    : ExpiringSet.t :=
  foldl (λ s k, ExpiringSet.add now k s) s hashes.

Lemma add_all_age now hashes s :
  ExpiringSet.age (add_all now hashes s) = ExpiringSet.age s.
Proof.
  revert s. induction hashes as [|h rest IH]; intros s; [done|].
  unfold add_all in *. simpl. by rewrite IH.
Qed.

Lemma add_all_lookup now hashes s k :
  ExpiringSet.container (add_all now hashes s) !! k
  = if bool_decide (k ∈ hashes) then Some now
    else ExpiringSet.container s !! k.
Proof.
  revert s. induction hashes as [|h rest IH]; intros s.
  - by rewrite bool_decide_eq_false_2 by apply not_elem_of_nil.
  - unfold add_all in *. simpl. rewrite IH.
    destruct (decide (k ∈ rest)) as [Hin|Hnot].
    + rewrite !bool_decide_eq_true_2; [done|by apply elem_of_cons; right|done].
    + rewrite (bool_decide_eq_false_2 _ Hnot). simpl.
      destruct (decide (k = h)) as [->|Hne].
      * rewrite lookup_insert_eq.
        by rewrite bool_decide_eq_true_2 by (by apply elem_of_cons; left).
      * rewrite lookup_insert_ne by done.
        rewrite bool_decide_eq_false_2; [done|].
        by intros [?|?]%elem_of_cons.
Qed.

Lemma for_each_timed_ignore_cache_add hashes w :
  let w' := exec (for_each hashes timed_ignore_cache_add) w in
  trace w' = trace w
  ∧ Arr.timed_ignore_cache (self w')
    = add_all (clock w) hashes (Arr.timed_ignore_cache (self w))
  ∧ Arr.recheck (self w') = Arr.recheck (self w)
  ∧ Arr.resume (self w') = Arr.resume (self w)
  ∧ Arr.needs_cleanup (self w') = Arr.needs_cleanup (self w)
  ∧ Arr.timed_skip (self w') = Arr.timed_skip (self w)
  ∧ clock w' = clock w.
Proof.
  revert w. induction hashes as [|h rest IH]; intros w.
  - by simpl.
  - cbv zeta. rewrite exec_for_each_cons.
    destruct (IH (exec (timed_ignore_cache_add h) w))
      as (-> & -> & -> & -> & -> & -> & ->).
    by destruct w as [[] ? ? ? ? ? ?].
Qed.

Lemma _process_errored_clears w :
  Arr.recheck (self (exec _process_errored w)) = ∅.
Proof.
  unfold _process_errored. rewrite exec_bind.
  change (eval get_self w) with (self w). change (exec get_self w) with w.
  case_bool_decide as H.
  - rewrite !exec_bind.
    by generalize (exec (for_each (elements (Arr.recheck (self w)))
                           timed_ignore_cache_add)
                     (exec (emit (torrents_recheck (elements (Arr.recheck (self w)))))
                        (exec (set_needs_cleanup true) w))); intros [[] ? ? ? ? ? ?].
  - exact H.
Qed.

Lemma _process_file_priority_clears w :
  Arr.change_priority (self (exec _process_file_priority w)) = ∅.
Proof.
  unfold _process_file_priority. rewrite exec_bind.
  change (eval get_self w) with (self w). change (exec get_self w) with w.
  destruct (_process_file_priority_loop_spec
              (map_to_list (Arr.change_priority (self w))) w) as (_ & _ & ->).
  apply foldl_delete_all.
Qed.

Lemma _process_imports_clears validate path_exists w :
  Arr.import_torrents (self (exec (_process_imports validate path_exists) w)) = [].
Proof.
  unfold _process_imports. rewrite exec_bind.
  change (eval get_self w) with (self w). change (exec get_self w) with w.
  destruct (Arr.import_torrents (self w)) as [|t ts] eqn:Himp; [done|].
  rewrite !exec_bind.
  by generalize (exec (for_each (t :: ts)
                         (_process_imports_torrent validate path_exists))
                   (exec (set_needs_cleanup true) w)); intros [[] ? ? ? ? ? ?].
Qed.

Lemma _process_failed_clears w :
  Arr.delete (self (exec _process_failed w)) = ∅
  ∧ Arr.skip_blacklist (self (exec _process_failed w)) = ∅.
Proof.
  unfold _process_failed. rewrite exec_bind.
  change (eval get_self w) with (self w). change (exec get_self w) with w.
  rewrite exec_bind.
  match goal with
  | |- context [exec (modify_self _ ≫= _) ?v] => generalize v
  end.
  by intros [[] ? ? ? ? ? ?].
Qed.

(** X2: whatever the intents were, after [process] the sets [pause],
    [recheck], [delete] and [skip_blacklist], the dictionary
    [change_priority] and the list [import_torrents] are empty: the next
    tick's classifier starts from nothing, but for [resume]. *)
Theorem process_empties_the_intents validate path_exists view w :
  let a' := self (exec (process validate path_exists view) w) in
  Arr.pause a' = ∅ ∧ Arr.recheck a' = ∅ ∧ Arr.change_priority a' = ∅
  ∧ Arr.import_torrents a' = [] ∧ Arr.delete a' = ∅
  ∧ Arr.skip_blacklist a' = ∅.
Proof.
  cbv zeta. unfold process. rewrite !exec_bind.
  set (w1 := exec _process_paused w).
  set (w2 := exec _process_errored w1).
  set (w3 := exec _process_file_priority w2).
  set (w4 := exec (_process_imports validate path_exists) w3).
  set (w5 := exec _process_failed w4).
  destruct (folder_cleanup_same_intents view w5)
    as (-> & -> & -> & -> & -> & -> & _).
  pose proof (_process_paused_clears w) as H1. fold w1 in H1.
  pose proof (_process_errored_clears w1) as H2. fold w2 in H2.
  pose proof (_process_file_priority_clears w2) as H3. fold w3 in H3.
  pose proof (_process_imports_clears validate path_exists w3) as H4.
  fold w4 in H4.
  destruct (_process_failed_clears w4) as [H5 H6]. fold w5 in H5, H6.
  destruct (_process_errored_stays_flushed w1) as (P2 & _).
  destruct (_process_file_priority_stays_flushed w2) as (P3 & R3 & _).
  destruct (_process_imports_stays_flushed validate path_exists w3)
    as (P4 & R4 & C4 & _).
  destruct (_process_failed_stays_flushed w4) as (P5 & R5 & C5 & I5 & _).
  fold w2 in P2. fold w3 in P3, R3. fold w4 in P4, R4, C4.
  fold w5 in P5, R5, C5, I5.
  repeat split; auto.
Qed.

(** ** Torrents the reconciler has just touched *)

Lemma classify_skips_recently_touched FAILED_CATEGORY RECHECK_CATEGORY
    time_now torrent w :
  ExpiringSet.contains (clock w) (Torrent.hash torrent)
    (Arr.timed_ignore_cache (self w))
  || ExpiringSet.contains (clock w) (Torrent.hash torrent)
       (Arr.timed_skip (self w)) = true →
  Torrent.category torrent ≠ FAILED_CATEGORY →
  Torrent.category torrent ≠ RECHECK_CATEGORY →
  exec (classify FAILED_CATEGORY RECHECK_CATEGORY time_now torrent) w
  = exec (refresh_caches RECHECK_CATEGORY torrent) w.
Proof.
  intros Hin Hfailed Hrecheck. rewrite classify_runs_fired.
  unfold fired, rules. cbn [List.find guard].
  rewrite !bool_decide_eq_false_2 by done.
  destruct (is_ignored_state torrent); [done|].
  by rewrite Hin.
Qed.

(** X3: a torrent whose hash the test of rule 4 finds in
    [timed_ignore_cache] or in [timed_skip], and whose category is
    neither of the two special ones, is left alone by the classifier: no
    attribute of the reconciler changes and no call is made; only the two
    supervisor caches learn its name and category. *)
Theorem recently_touched_torrent_is_left_alone FAILED_CATEGORY
    RECHECK_CATEGORY time_now torrent w :
  ExpiringSet.contains (clock w) (Torrent.hash torrent)
    (Arr.timed_ignore_cache (self w))
  || ExpiringSet.contains (clock w) (Torrent.hash torrent)
       (Arr.timed_skip (self w)) = true →
  Torrent.category torrent ≠ FAILED_CATEGORY →
  Torrent.category torrent ≠ RECHECK_CATEGORY →
  let w' := exec (classify FAILED_CATEGORY RECHECK_CATEGORY time_now torrent) w in
  self w' = self w
  ∧ trace w' = trace w
  ∧ qBitManager.name_cache (qbit_manager w') !! Torrent.hash torrent
    = Some (Torrent.name torrent)
  ∧ qBitManager.cache (qbit_manager w') !! Torrent.hash torrent
    = Some (Torrent.category torrent).
Proof.
  intros Hin Hfailed Hrecheck. cbv zeta.
  rewrite classify_skips_recently_touched by done.
  destruct w as [a [nc c] ? ? ? ? ?]. unfold refresh_caches.
  rewrite (bool_decide_eq_false_2 _ Hrecheck). unfold_M.
  repeat split; apply lookup_insert_eq.
Qed.

(** The world some time later: nothing but the clock has changed. *)
Definition at_time (now : Q) (w : World) : World :=
  mkWorld (self w) (qbit_manager w) (managed_objects w) (ffprobe_available w)
    (model_queue w) (trace w) now.

Lemma recently_touched_torrent_is_left_alone_witness :
  let a := sample_arr (sample_config false (λ _, false)) in
  let w := at_time 1100
             (sample_world
                (Arr.set_timed_ignore_cache
                   (ExpiringSet.add 1000 "abc" (Arr.timed_ignore_cache a)) a)) in
  let w' := exec (classify "failed" "recheck" 1100%Q completed_torrent) w in
  ExpiringSet.contains (clock w) "abc" (Arr.timed_ignore_cache (self w)) = true
  ∧ self w' = self w
  ∧ trace w' = trace w.
Proof.
  cbv zeta.
  set (w := at_time 1100 _).
  assert (Hin : ExpiringSet.contains (clock w) (Torrent.hash completed_torrent)
                  (Arr.timed_ignore_cache (self w))
                || ExpiringSet.contains (clock w)
                     (Torrent.hash completed_torrent)
                     (Arr.timed_skip (self w)) = true)
    by (vm_compute; reflexivity).
  pose proof (recently_touched_torrent_is_left_alone "failed" "recheck" 1100%Q
                completed_torrent w Hin ltac:(discriminate) ltac:(discriminate))
    as H.
  cbv zeta in H. destruct H as (Hs & Ht & _).
  split; [vm_compute; reflexivity|]. split; [exact Hs|exact Ht].
Defined.

Lemma _process_errored_spec w :
  Arr.recheck (self w) ≠ ∅ →
  let w' := exec _process_errored w in
  trace w' = trace w ++ [torrents_recheck (elements (Arr.recheck (self w)))]
  ∧ Arr.timed_ignore_cache (self w')
    = add_all (clock w) (elements (Arr.recheck (self w)))
        (Arr.timed_ignore_cache (self w))
  ∧ Arr.timed_skip (self w') = Arr.timed_skip (self w)
  ∧ clock w' = clock w.
Proof.
  intros Hne. cbv zeta. unfold _process_errored. rewrite exec_bind.
  change (eval get_self w) with (self w). change (exec get_self w) with w.
  rewrite (bool_decide_eq_true_2 _ Hne). rewrite !exec_bind.
  set (l := elements (Arr.recheck (self w))).
  destruct (for_each_timed_ignore_cache_add l
              (exec (emit (torrents_recheck l)) (exec (set_needs_cleanup true) w)))
    as (Ht & Hc & _ & _ & _ & Hskip & Hclock).
  set (w1 := exec (for_each l timed_ignore_cache_add) _) in *.
  destruct w1 as [[] ? ? ? ? ? ?]. simpl in *. rewrite Ht, Hc, Hskip, Hclock.
  by destruct w as [[] ? ? ? ? ? ?].
Qed.

(** X4: when [recheck] is not empty, [_process_errored] makes one
    [torrents_recheck] call, for all its hashes, and adds every one of
    them to [timed_ignore_cache] with the time of the call.  For less
    than [IgnoreTorrentsYoungerThan] seconds from then on the test of
    rule 4 finds such a hash, and the classifier leaves the torrent alone
    (unless its category is one of the special two); once more than that
    time has passed the test no longer finds it. *)
Theorem rechecked_torrents_are_ignored_next FAILED_CATEGORY RECHECK_CATEGORY
    time_now later torrent w :
  Torrent.hash torrent ∈ Arr.recheck (self w) →
  Torrent.category torrent ≠ FAILED_CATEGORY →
  Torrent.category torrent ≠ RECHECK_CATEGORY →
  let age := inject_Z (ExpiringSet.age (Arr.timed_ignore_cache (self w))) in
  let w1 := exec _process_errored w in
  let w2 := exec (classify FAILED_CATEGORY RECHECK_CATEGORY time_now torrent)
              (at_time later w1) in
  trace w1 = trace w ++ [torrents_recheck (elements (Arr.recheck (self w)))]
  ∧ (∀ h, h ∈ Arr.recheck (self w) →
       ExpiringSet.container (Arr.timed_ignore_cache (self w1)) !! h
       = Some (clock w))
  ∧ ((later - clock w < age)%Q → self w2 = self w1 ∧ trace w2 = trace w1)
  ∧ ((age < later - clock w)%Q →
     ExpiringSet.contains later (Torrent.hash torrent)
       (Arr.timed_ignore_cache (self w1)) = false).
Proof.
  intros Hin Hfailed Hrecheck. cbv zeta.
  assert (Hne : Arr.recheck (self w) ≠ ∅) by set_solver.
  destruct (_process_errored_spec w Hne) as (Ht & Hc & _ & _).
  assert (Hadded : ∀ h, h ∈ Arr.recheck (self w) →
            ExpiringSet.container
              (Arr.timed_ignore_cache (self (exec _process_errored w))) !! h
            = Some (clock w)).
  { intros h Hh. rewrite Hc, add_all_lookup.
    by rewrite bool_decide_eq_true_2 by (by apply elem_of_elements). }
  assert (Hage : ExpiringSet.age
                   (Arr.timed_ignore_cache (self (exec _process_errored w)))
                 = ExpiringSet.age (Arr.timed_ignore_cache (self w))).
  { by rewrite Hc, add_all_age. }
  split; [exact Ht|]. split; [exact Hadded|]. split.
  - intros Hlive.
    rewrite classify_skips_recently_touched; [|cbn [at_time clock self]|done..].
    + by destruct (refresh_caches_self RECHECK_CATEGORY torrent
                     (at_time later (exec _process_errored w))) as (? & _ & ?).
    + unfold ExpiringSet.contains at 1. rewrite (Hadded _ Hin), Hage.
      apply orb_true_intro. left. apply Qle_bool_iff. by apply Qlt_le_weak.
  - intros Hold. unfold ExpiringSet.contains. rewrite (Hadded _ Hin), Hage.
    destruct (Qle_bool _ _) eqn:Hle; [|done].
    apply Qle_bool_iff in Hle.
    by destruct (Qlt_not_le _ _ Hold).
Qed.

(** A torrent in state [ERROR] that rule 7 has put in [recheck]. *)
Definition errored_torrent : TorrentDictionary := {|
  Torrent.hash := "abc"; Torrent.name := "Movie";
  Torrent.category := "radarr-movies"; Torrent.state_enum := ERROR;
  Torrent.progress := (1 # 2)%Q; Torrent.availability := 1%Q;
  Torrent.added_on := 1000; Torrent.completion_on := 0;
  Torrent.last_activity := 1090; Torrent.eta := 120;
  Torrent.seeding_time := 0; Torrent.amount_left := 500;
  Torrent.content_path := "/downloads/radarr-movies/Movie";
  Torrent.files := [TorrentFile.mk 0 "movie.mkv" 1] |}.

(** Rechecked at 1100 with [IgnoreTorrentsYoungerThan] at its [sample_config]
    value: a minute later the torrent is left alone. *)
Lemma rechecked_torrents_are_ignored_next_witness :
  let w := at_time 1100
             (sample_world
                (Arr.set_recheck {["abc"]}
                   (sample_arr (sample_config false (λ _, false))))) in
  let w1 := exec _process_errored w in
  let w2 := exec (classify "failed" "recheck" 1160%Q errored_torrent)
              (at_time 1160 w1) in
  Torrent.hash errored_torrent ∈ Arr.recheck (self w)
  ∧ (1160 - clock w
     < inject_Z (ExpiringSet.age (Arr.timed_ignore_cache (self w))))%Q
  ∧ trace w1 = trace w ++ [torrents_recheck (elements (Arr.recheck (self w)))]
  ∧ self w2 = self w1.
Proof.
  cbv zeta.
  set (w := at_time 1100 _).
  assert (Hin : Torrent.hash errored_torrent ∈ Arr.recheck (self w)).
  { apply (bool_decide_unpack _). vm_compute. exact I. }
  assert (Hlive : (1160 - clock w
                   < inject_Z (ExpiringSet.age
                                 (Arr.timed_ignore_cache (self w))))%Q)
    by (vm_compute; reflexivity).
  pose proof (rechecked_torrents_are_ignored_next "failed" "recheck" 1160%Q
                1160%Q errored_torrent w Hin ltac:(discriminate)
                ltac:(discriminate)) as H.
  cbv zeta in H. destruct H as (Ht & _ & Hskip & _).
  split; [exact Hin|]. split; [exact Hlive|]. split; [exact Ht|].
  exact (proj1 (Hskip Hlive)).
Defined.

(** ** What the folder cleanup removes *)

(** The files of the walk that [folder_cleanup], started in [w], does not
    keep. *)
Definition doomed (w : World) (file : DirEntry.t) : bool :=
  negb (bool_decide (pathlib.name (DirEntry.path file) = "desktop.ini"))
  && negb (bool_decide (pathlib.name (DirEntry.path file) = ".DS_Store"))
  && negb (DirEntry.is_dir file)
  && (negb (bool_decide (pathlib.suffix (DirEntry.path file)
                           ∈ file_extension_allowlist (Arr.config (self w))))
      || (ffprobe_available w
          && negb (bool_decide (DirEntry.path file ∈ Arr.files_probed (self w)))
          && match DirEntry.probe file with
             | probe_output => false
             | _ => true
             end)).

Definition removal_justified (w : World) (view : FolderView.t) (e : event)
    : Prop :=
  match e with
  | unlink p =>
      ∃ file, file ∈ FolderView.walk view ∧ DirEntry.path file = p
              ∧ doomed w file = true
  | rmdir p =>
      ∃ entry, entry ∈ FolderView.walk_after_unlink view
               ∧ DirEntry.path entry = p
               ∧ DirEntry.is_dir entry = true
               ∧ DirEntry.listing_empty entry = true
  | _ => False
  end.

(** The probes of one cleanup only add to [files_probed]. *)
Definition same_probe_setting (w0 w : World) : Prop :=
  Arr.config (self w) = Arr.config (self w0)
  ∧ ffprobe_available w = ffprobe_available w0
  ∧ Arr.files_probed (self w0) ⊆ Arr.files_probed (self w).

Lemma folder_cleanup_file_spec w0 w file :
  same_probe_setting w0 w →
  let w' := exec (folder_cleanup_file file) w in
  same_probe_setting w0 w'
  ∧ (trace w' = trace w
     ∨ (doomed w0 file = true
        ∧ trace w' = trace w ++ [unlink (DirEntry.path file)])).
Proof.
  intros (Hc & Hf & Hp). cbv zeta.
  destruct w as [a q mo ff mq tr ck]. simpl in Hc, Hf, Hp.
  unfold folder_cleanup_file, doomed. rewrite <- Hc, <- Hf.
  destruct (bool_decide (pathlib.name _ = "desktop.ini")); simpl;
    [by split; [|left]|].
  destruct (bool_decide (pathlib.name _ = ".DS_Store")); simpl;
    [by split; [|left]|].
  destruct (DirEntry.is_dir file) eqn:Hdir; simpl; [by split; [|left]|].
  rewrite exec_bind. change (eval get_self ?v) with (self v).
  change (exec get_self ?v) with v. cbn [self].
  destruct (bool_decide (pathlib.suffix _ ∈ _)); simpl.
  2:{ unfold_M. split; [done|]. by right. }
  unfold file_is_probeable. rewrite Hdir. unfold_M.
  destruct ff; simpl; [|by split; [|left]].
  case_bool_decide as Hin; simpl; [by split; [|left]|].
  assert (Hin0 : DirEntry.path file ∉ Arr.files_probed (self w0))
    by set_solver.
  rewrite (bool_decide_eq_false_2 _ Hin0). simpl.
  destruct (DirEntry.probe file); simpl.
  - destruct a. simpl in *. split; [|by left]. split_and!; [done..|set_solver].
  - split; [done|]. by right.
  - split; [done|]. by right.
Qed.

Lemma folder_cleanup_loop_spec w0 view files w :
  files ⊆ FolderView.walk view →
  same_probe_setting w0 w →
  let w' := exec (for_each files folder_cleanup_file) w in
  same_probe_setting w0 w' ∧ emits (removal_justified w0 view) w w'.
Proof.
  revert w. induction files as [|file files IH]; intros w Hsub Hw; cbv zeta.
  - split; [done|reflexivity].
  - rewrite exec_for_each_cons.
    destruct (folder_cleanup_file_spec w0 w file Hw) as (Hw1 & Ht).
    destruct (IH (exec (folder_cleanup_file file) w)) as (Hw2 & He);
      [set_solver|done|].
    split; [exact Hw2|]. etransitivity; [|exact He].
    destruct Ht as [Ht|(Hd & Ht)].
    + exists []. by rewrite Ht, app_nil_r.
    + exists [unlink (DirEntry.path file)]. split; [done|].
      constructor; [|constructor]. exists file. set_solver.
Qed.

Lemma _remove_empty_folders_loop_justified w0 view entries acc :
  entries ⊆ FolderView.walk_after_unlink view →
  preserves (emits (removal_justified w0 view))
    (_remove_empty_folders_loop entries acc).
Proof.
  revert acc. induction entries as [|entry entries IH]; intros acc Hsub;
    simpl.
  - apply preserves_mret. apply _.
  - apply preserves_bind; try solve [apply _].
    + unfold _remove_empty_folders_entry.
      destruct (DirEntry.is_dir entry) eqn:Hdir;
        destruct (DirEntry.listing_empty entry) eqn:Hempty; simpl;
        try (apply preserves_mret; apply _).
      apply preserves_bind; try solve [apply _].
      * apply emits_emit. exists entry. set_solver.
      * intros ?. emits_tac.
    + intros acc'. apply IH. set_solver.
Qed.

(** X5: [folder_cleanup] calls nothing but [unlink] and [rmdir].  A file
    it unlinks is a file of the walk that is not a directory, is not
    named [desktop.ini] or [.DS_Store], and either has a suffix outside
    the allowlist or failed a probe made now (so [ffprobe] is available
    and the file was not in [files_probed]).  A directory it removes was
    listed empty.  With [AutoDelete] off, or [needs_cleanup] unset, it
    calls nothing at all. *)
Theorem folder_cleanup_removes_only_unwanted_files view w :
  let w' := exec (folder_cleanup view) w in
  emits (removal_justified w view) w w'
  ∧ (auto_delete (Arr.config (self w)) = false
     ∨ Arr.needs_cleanup (self w) = false → w' = w).
Proof.
  cbv zeta. unfold folder_cleanup. rewrite exec_bind.
  change (eval get_self w) with (self w). change (exec get_self w) with w.
  destruct (auto_delete (Arr.config (self w))); simpl;
    [|split; [reflexivity|done]].
  destruct (Arr.needs_cleanup (self w)); simpl;
    [|split; [reflexivity|done]].
  split; [|by intros [|]].
  rewrite !exec_bind.
  destruct (folder_cleanup_loop_spec w view (FolderView.walk view) w)
    as (_ & He); [done|done|].
  etransitivity; [exact He|].
  etransitivity.
  - unfold _remove_empty_folders.
    assert (H : preserves (emits (removal_justified w view))
                  (_remove_empty_folders view)).
    { unfold _remove_empty_folders.
      apply preserves_bind; try solve [apply _].
      - by apply _remove_empty_folders_loop_justified.
      - intros ?. emits_tac. }
    apply H.
  - assert (H : preserves (emits (removal_justified w view))
                  (set_needs_cleanup false)) by emits_tac.
    apply H.
Qed.

Lemma folder_cleanup_file_unlinks file w :
  DirEntry.is_dir file = false →
  pathlib.name (DirEntry.path file) ≠ "desktop.ini" →
  pathlib.name (DirEntry.path file) ≠ ".DS_Store" →
  pathlib.suffix (DirEntry.path file)
    ∉ file_extension_allowlist (Arr.config (self w)) →
  exec (folder_cleanup_file file) w
  = exec (emit (unlink (DirEntry.path file))) w.
Proof.
  intros Hdir Hini Hds Hsuffix. unfold folder_cleanup_file.
  rewrite !bool_decide_eq_false_2 by done. simpl. rewrite Hdir.
  rewrite exec_bind. change (eval get_self w) with (self w).
  change (exec get_self w) with w.
  by rewrite (bool_decide_eq_false_2 _ Hsuffix).
Qed.

Lemma folder_cleanup_loop_unlinks files file w :
  file ∈ files →
  DirEntry.is_dir file = false →
  pathlib.name (DirEntry.path file) ≠ "desktop.ini" →
  pathlib.name (DirEntry.path file) ≠ ".DS_Store" →
  pathlib.suffix (DirEntry.path file)
    ∉ file_extension_allowlist (Arr.config (self w)) →
  unlink (DirEntry.path file)
    ∈ trace (exec (for_each files folder_cleanup_file) w).
Proof.
  intros Hin Hdir Hini Hds. revert w.
  induction files as [|x files IH]; intros w Hsuffix; [by inversion Hin|].
  rewrite exec_for_each_cons.
  destruct (folder_cleanup_file_spec w w x) as ((Hc & _) & _); [done|].
  apply elem_of_cons in Hin as [->|Hin].
  - rewrite folder_cleanup_file_unlinks by done.
    assert (H : preserves (emits (λ _, True))
                  (for_each files folder_cleanup_file)).
    { unfold folder_cleanup_file, file_is_probeable. emits_tac. }
    destruct (H (exec (emit (unlink (DirEntry.path x))) w)) as (calls & -> & _).
    apply elem_of_app. left. destruct w. unfold_M. set_solver.
  - apply IH; [done|]. by rewrite Hc.
Qed.

(** X6: when [AutoDelete] is on and a cleanup is due, [folder_cleanup]
    unlinks every file of the walk that is not a directory, is not named
    [desktop.ini] or [.DS_Store] and whose suffix is not in the
    allowlist; and no other cleanup is due afterwards. *)
Theorem folder_cleanup_unlinks_every_disallowed_file view file w :
  auto_delete (Arr.config (self w)) = true →
  Arr.needs_cleanup (self w) = true →
  file ∈ FolderView.walk view →
  DirEntry.is_dir file = false →
  pathlib.name (DirEntry.path file) ≠ "desktop.ini" →
  pathlib.name (DirEntry.path file) ≠ ".DS_Store" →
  pathlib.suffix (DirEntry.path file)
    ∉ file_extension_allowlist (Arr.config (self w)) →
  let w' := exec (folder_cleanup view) w in
  unlink (DirEntry.path file) ∈ trace w'
  ∧ Arr.needs_cleanup (self w') = false.
Proof.
  intros Hauto Hneeds Hin Hdir Hini Hds Hsuffix. cbv zeta.
  unfold folder_cleanup. rewrite exec_bind.
  change (eval get_self w) with (self w). change (exec get_self w) with w.
  rewrite Hauto, Hneeds. simpl. rewrite !exec_bind.
  pose proof (folder_cleanup_loop_unlinks _ _ w Hin Hdir Hini Hds Hsuffix)
    as Hu.
  set (w1 := exec (for_each _ _) w) in *.
  assert (H : preserves (emits (λ _, True)) (_remove_empty_folders view)).
  { unfold _remove_empty_folders.
    apply preserves_bind; try solve [apply _].
    - intros v. eapply emits_impl; [|apply _remove_empty_folders_loop_emits].
      done.
    - intros ?. emits_tac. }
  destruct (H w1) as (calls & Ht & _).
  destruct (exec (_remove_empty_folders view) w1) as [[] ? ? ? ? ? ?].
  unfold_M. split; [|done]. rewrite Ht. set_solver.
Qed.

(** The completed folder after one import: the folder of the torrent,
    the film, and a text file that came with it. *)
Definition notes_file : DirEntry.t :=
  DirEntry.mk "/downloads/radarr-movies/Movie/notes.txt" false probe_error true.

Definition sample_view : FolderView.t := {|
  FolderView.walk :=
    [DirEntry.mk "/downloads/radarr-movies/Movie" true probe_error false;
     DirEntry.mk "/downloads/radarr-movies/Movie/movie.mkv" false probe_output true;
     notes_file];
  FolderView.walk_after_unlink :=
    [DirEntry.mk "/downloads/radarr-movies/Movie" true probe_error false;
     DirEntry.mk "/downloads/radarr-movies/Movie/movie.mkv" false probe_output true];
  FolderView.completed_folder_empty := false |}.

Lemma folder_cleanup_unlinks_every_disallowed_file_witness :
  let w := sample_world
             (Arr.set_needs_cleanup true
                (sample_arr (sample_config true (λ _, false)))) in
  let w' := exec (folder_cleanup sample_view) w in
  unlink "/downloads/radarr-movies/Movie/notes.txt" ∈ trace w'
  ∧ Arr.needs_cleanup (self w') = false.
Proof.
  cbv zeta.
  apply (folder_cleanup_unlinks_every_disallowed_file sample_view notes_file).
  - reflexivity.
  - reflexivity.
  - unfold sample_view. simpl. repeat constructor.
  - reflexivity.
  - intros H. vm_compute in H. discriminate H.
  - intros H. vm_compute in H. discriminate H.
  - apply (bool_decide_unpack _). vm_compute. exact I.
Defined.

(** ** What the cleanup remembers of the scans *)

Lemma _remove_empty_folders_loop_spec entries acc w :
  NoDup (DirEntry.path <$> entries) →
  let r := eval (_remove_empty_folders_loop entries acc) w in
  let w' := exec (_remove_empty_folders_loop entries acc) w in
  Arr.sent_to_scan_hashes (self w') = Arr.sent_to_scan_hashes (self w)
  ∧ ∀ o, o ∈ r → o ∈ acc ∨
      ((o ∉ Arr.sent_to_scan (self w))
       ∧ ∃ entry, entry ∈ entries
                  ∧ o = Path (DirEntry.path entry)
                  ∧ DirEntry.is_dir entry = true
                  ∧ DirEntry.listing_empty entry = true).
Proof.
  revert acc w. induction entries as [|entry entries IH];
    intros acc w Hnd; cbv zeta.
  - split; [done|]. intros o Ho. by left.
  - apply NoDup_cons in Hnd as [Hfresh Hnd].
    cbn [_remove_empty_folders_loop]. rewrite exec_bind, eval_bind.
    destruct (IH (eval (_remove_empty_folders_entry entry acc) w)
                (exec (_remove_empty_folders_entry entry acc) w) Hnd)
      as (Hh & Hr).
    assert (Hstep :
      Arr.sent_to_scan_hashes
        (self (exec (_remove_empty_folders_entry entry acc) w))
      = Arr.sent_to_scan_hashes (self w)
      ∧ (∀ o, o ∈ eval (_remove_empty_folders_entry entry acc) w →
           o ∈ acc ∨
           (o = Path (DirEntry.path entry)
            ∧ (o ∉ Arr.sent_to_scan (self w))
            ∧ DirEntry.is_dir entry = true
            ∧ DirEntry.listing_empty entry = true))
      ∧ (∀ o, o ∈ Arr.sent_to_scan (self w) →
           o ∈ Arr.sent_to_scan
                 (self (exec (_remove_empty_folders_entry entry acc) w))
           ∨ o = Path (DirEntry.path entry))).
    { clear. unfold _remove_empty_folders_entry.
      destruct w as [a ? ? ? ? ? ?].
      destruct (DirEntry.is_dir entry), (DirEntry.listing_empty entry);
        simpl; try (unfold_M; by auto).
      unfold_M. case_bool_decide as Hin; simpl.
      - destruct a; simpl in *. split; [done|]. split; [by auto|].
        intros o Ho. destruct (decide (o = Path (DirEntry.path entry)));
          [by right|left].
        apply elem_of_difference. split; [done|].
        by intros ?%elem_of_singleton.
      - split; [done|]. split; [|by auto].
        intros o [Ho| ->%elem_of_singleton]%elem_of_union; auto. }
    destruct Hstep as (Hh1 & Hr1 & Hs1).
    split; [congruence|]. intros o Ho.
    destruct (Hr o Ho) as [Hacc|(Hnot & e & He & -> & Hd & Hl)].
    + destruct (Hr1 o Hacc) as [?|(-> & ? & ? & ?)]; [by left|right].
      split; [done|]. exists entry. split; [apply list_elem_of_here|done].
    + right. split; [|exists e; split; [by apply list_elem_of_further|done]].
      intros Hin. destruct (Hs1 _ Hin) as [?|Heq]; [done|].
      injection Heq as Heq. apply Hfresh. rewrite <- Heq.
      by apply list_elem_of_fmap_2.
Qed.

(** X7: [_remove_empty_folders] replaces [sent_to_scan]: when no path is
    walked twice, nothing that was in the set before is in it after, and
    what is in it after are the empty folders just removed.  When the
    completed folder is left empty, both [sent_to_scan] and
    [sent_to_scan_hashes] are emptied; otherwise the hashes are kept. *)
Theorem _remove_empty_folders_forgets_the_scans view w :
  NoDup (DirEntry.path <$> FolderView.walk_after_unlink view) →
  let w' := exec (_remove_empty_folders view) w in
  (∀ o, o ∈ Arr.sent_to_scan (self w') →
     (o ∉ Arr.sent_to_scan (self w))
     ∧ ∃ entry, entry ∈ FolderView.walk_after_unlink view
                ∧ o = Path (DirEntry.path entry)
                ∧ DirEntry.is_dir entry = true
                ∧ DirEntry.listing_empty entry = true)
  ∧ (if FolderView.completed_folder_empty view
     then Arr.sent_to_scan (self w') = ∅
          ∧ Arr.sent_to_scan_hashes (self w') = ∅
     else Arr.sent_to_scan_hashes (self w')
          = Arr.sent_to_scan_hashes (self w)).
Proof.
  intros Hnd. cbv zeta. unfold _remove_empty_folders.
  rewrite exec_bind.
  destruct (_remove_empty_folders_loop_spec
              (FolderView.walk_after_unlink view) ∅ w Hnd) as (Hh & Hr).
  revert Hh Hr.
  generalize (eval (_remove_empty_folders_loop
                      (FolderView.walk_after_unlink view) ∅) w).
  generalize (exec (_remove_empty_folders_loop
                      (FolderView.walk_after_unlink view) ∅) w).
  intros [[] ? ? ? ? ? ?] r Hh Hr. simpl in Hh.
  destruct (FolderView.completed_folder_empty view); unfold_M.
  - split; [|done]. intros o Ho. by apply elem_of_empty in Ho.
  - split; [|done]. intros o Ho.
    destruct (Hr o Ho) as [Hacc|?]; [by apply elem_of_empty in Hacc|done].
Qed.

Lemma _remove_empty_folders_forgets_the_scans_witness :
  let view :=
    FolderView.mk []
      [DirEntry.mk "/downloads/radarr-movies/Movie" true probe_error true;
       DirEntry.mk "/downloads/radarr-movies/Other" true probe_error false]
      false in
  let w := sample_world
             (Arr.set_sent_to_scan
                {[Path "/downloads/radarr-movies/Movie";
                  Path "/downloads/radarr-movies/Other"]}
                (sample_arr (sample_config true (λ _, false)))) in
  NoDup (DirEntry.path <$> FolderView.walk_after_unlink view)
  ∧ ∀ o, o ∈ Arr.sent_to_scan (self (exec (_remove_empty_folders view) w)) →
         o ∉ Arr.sent_to_scan (self w).
Proof.
  cbv zeta.
  assert (Hnd : NoDup (DirEntry.path <$> FolderView.walk_after_unlink
                   (FolderView.mk []
                      [DirEntry.mk "/downloads/radarr-movies/Movie" true probe_error true;
                       DirEntry.mk "/downloads/radarr-movies/Other" true probe_error false]
                      false))).
  { apply (bool_decide_unpack _). vm_compute. exact I. }
  split; [exact Hnd|].
  intros o Ho.
  exact (proj1 (proj1 (_remove_empty_folders_forgets_the_scans _ _ Hnd) o Ho)).
Defined.

(** ** Imports: one scan for a folder *)

(** The [path] of the scan commands of a trace. *)
Definition scan_paths (t : list event) : list string :=
  omap (λ e, match e with
             | request_post (DownloadedEpisodesScan p _ _) => Some p
             | _ => None
             end) t.

Lemma _process_imports_torrent_spec validate path_exists torrent w :
  let p := validate (Torrent.content_path torrent) in
  let w' := exec (_process_imports_torrent validate path_exists torrent) w in
  Arr.skip_blacklist (self w) ⊆ Arr.skip_blacklist (self w')
  ∧ Arr.cache (self w') = Arr.cache (self w)
  ∧ Arr.delete (self w') = Arr.delete (self w)
  ∧ (Str (Torrent.hash torrent) ∉ Arr.sent_to_scan (self w) →
     path_exists p = false →
     upper (Torrent.hash torrent) ∈ Arr.skip_blacklist (self w'))
  ∧ ((trace w' = trace w
      ∧ Arr.sent_to_scan (self w') = Arr.sent_to_scan (self w))
     ∨ (trace w'
        = trace w ++ [request_post
                        (DownloadedEpisodesScan p (upper (Torrent.hash torrent))
                           (import_mode (Arr.config (self w))))]
        ∧ Arr.sent_to_scan (self w') = Arr.sent_to_scan (self w) ∪ {[Path p]}
        ∧ (Path p ∉ Arr.sent_to_scan (self w))
        ∧ path_exists p = true)).
Proof.
  cbv zeta. destruct w as [a ? ? ? ? tr ?].
  unfold _process_imports_torrent, post_command. unfold_M.
  case_bool_decide as Hstr; simpl; [split_and!; try done; by left|].
  destruct (path_exists _) eqn:Hexists; simpl.
  - case_bool_decide as Hpath; simpl; [split_and!; try done; by left|].
    destruct a; simpl in *. split_and!; [done..|]. right. by auto.
  - destruct a; simpl in *. split_and!; [set_solver|done|done|set_solver|].
    by left.
Qed.

Lemma _process_imports_loop_spec validate path_exists torrents w :
  let w' := exec (for_each torrents
                    (_process_imports_torrent validate path_exists)) w in
  Arr.skip_blacklist (self w) ⊆ Arr.skip_blacklist (self w')
  ∧ Arr.cache (self w') = Arr.cache (self w)
  ∧ Arr.delete (self w') = Arr.delete (self w)
  ∧ (∀ t, t ∈ torrents →
       Str (Torrent.hash t) ∉ Arr.sent_to_scan (self w) →
       path_exists (validate (Torrent.content_path t)) = false →
       upper (Torrent.hash t) ∈ Arr.skip_blacklist (self w'))
  ∧ ∃ calls posted,
      trace w' = trace w ++ calls
      ∧ Forall is_scan calls
      ∧ scan_paths calls = posted
      ∧ NoDup posted
      ∧ (∀ p, p ∈ posted →
           (Path p ∉ Arr.sent_to_scan (self w))
           ∧ path_exists p = true
           ∧ ∃ t, t ∈ torrents ∧ p = validate (Torrent.content_path t))
      ∧ Arr.sent_to_scan (self w')
        = Arr.sent_to_scan (self w) ∪ list_to_set (Path <$> posted).
Proof.
  revert w. induction torrents as [|torrent rest IH]; intros w; cbv zeta.
  - split_and!; try done; [intros t Ht; by apply elem_of_nil in Ht|].
    exists [], []. rewrite app_nil_r. split_and!; try done.
    + constructor.
    + intros p Hp. by apply elem_of_nil in Hp.
    + set_solver.
  - rewrite exec_for_each_cons.
    destruct (_process_imports_torrent_spec validate path_exists torrent w)
      as (Hb1 & Hc1 & Hd1 & Hgone1 & Hstep).
    destruct (IH (exec (_process_imports_torrent validate path_exists torrent) w))
      as (Hb2 & Hc2 & Hd2 & Hgone2 & calls & posted & Ht & Hscan & Hposted
          & Hnd & Hall & Hsent).
    revert Hb1 Hc1 Hd1 Hgone1 Hstep Hb2 Hc2 Hd2 Hgone2 Ht Hall Hsent.
    generalize (exec (for_each rest
                        (_process_imports_torrent validate path_exists))
                  (exec (_process_imports_torrent validate path_exists torrent) w)).
    generalize (exec (_process_imports_torrent validate path_exists torrent) w).
    intros w1 w2 Hb1 Hc1 Hd1 Hgone1 Hstep Hb2 Hc2 Hd2 Hgone2 Ht Hall Hsent.
    assert (Hstr : ∀ h, Str h ∉ Arr.sent_to_scan (self w) →
                        Str h ∉ Arr.sent_to_scan (self w1)).
    { intros h Hh. destruct Hstep as [(_ & ->)|(_ & -> & _)]; [done|].
      set_solver. }
    split; [by etransitivity|]. split; [congruence|]. split; [congruence|].
    split.
    { intros t [->|Hin]%elem_of_cons Hnot Hgone.
      - apply Hb2. by apply Hgone1.
      - apply Hgone2; [done| |done]. by apply Hstr. }
    destruct Hstep as [(Ht1 & Hs1)|(Ht1 & Hs1 & Hfresh & Hexists)].
    + exists calls, posted. rewrite Ht, Ht1, Hsent, Hs1.
      split_and!; try done.
      intros p Hp. destruct (Hall p Hp) as (Hnot & ? & t & ? & ?).
      rewrite Hs1 in Hnot. split_and!; [done..|].
      exists t. split; [by apply list_elem_of_further|done].
    + eexists (_ :: calls), (_ :: posted).
      rewrite Ht, Ht1, Hsent, Hs1, <- app_assoc.
      split_and!; [done|by constructor|by rewrite <- Hposted| | |].
      * apply NoDup_cons. split; [|done].
        intros Hin. destruct (Hall _ Hin) as (Hnot & _). apply Hnot.
        rewrite Hs1. set_solver.
      * intros p [->|Hp]%elem_of_cons.
        -- split_and!; [done..|]. exists torrent.
           split; [apply list_elem_of_here|done].
        -- destruct (Hall p Hp) as (Hnot & ? & t & ? & ?).
           rewrite Hs1 in Hnot.
           split_and!; [set_solver|done|].
           exists t. split; [by apply list_elem_of_further|done].
      * rewrite fmap_cons, list_to_set_cons. set_solver.
Qed.

(** X8: [_process_imports] never asks for the same folder twice: the
    paths of the scan commands it posts are pairwise different, none of
    them was in [sent_to_scan], each one exists and belongs to a torrent
    of the import list, and [sent_to_scan] grows by exactly these paths.
    It makes no other call. *)
Theorem _process_imports_scans_each_folder_once validate path_exists w :
  let w' := exec (_process_imports validate path_exists) w in
  ∃ calls,
    trace w' = trace w ++ calls
    ∧ Forall is_scan calls
    ∧ NoDup (scan_paths calls)
    ∧ (∀ p, p ∈ scan_paths calls →
         (Path p ∉ Arr.sent_to_scan (self w))
         ∧ path_exists p = true
         ∧ ∃ t, t ∈ Arr.import_torrents (self w)
                ∧ p = validate (Torrent.content_path t))
    ∧ Arr.sent_to_scan (self w')
      = Arr.sent_to_scan (self w) ∪ list_to_set (Path <$> scan_paths calls).
Proof.
  cbv zeta. unfold _process_imports. rewrite exec_bind.
  change (eval get_self w) with (self w). change (exec get_self w) with w.
  destruct (Arr.import_torrents (self w)) as [|t ts] eqn:Himp.
  - exists []. rewrite app_nil_r. split_and!; try done.
    + constructor.
    + intros p Hp. by apply elem_of_nil in Hp.
    + set_solver.
  - rewrite !exec_bind.
    destruct (_process_imports_loop_spec validate path_exists (t :: ts)
                (exec (set_needs_cleanup true) w))
      as (_ & _ & _ & _ & calls & posted & Ht & Hscan & <- & Hnd & Hall & Hsent).
    revert Ht Hall Hsent.
    generalize (exec (for_each (t :: ts)
                        (_process_imports_torrent validate path_exists))
                  (exec (set_needs_cleanup true) w)).
    intros [[] ? ? ? ? ? ?] Ht Hall Hsent. exists calls.
    destruct w as [[] ? ? ? ? ? ?]. by unfold_M.
Qed.

(** ** The deletion from the client *)

(** Calls to the media manager made for one failed download. *)
Definition is_manager_call (e : event) : Prop :=
  match e with
  | request_del _ _ _
  | get_episode_by_episode_id _ | get_movie_by_movie_id _
  | request_post (EpisodeSearch _) | request_post (MoviesSearch _) => True
  | _ => False
  end.

Lemma _process_failed_calls w :
  let a := self w in
  let T := Arr.delete a ∪ Arr.skip_blacklist a in
  let w' := exec _process_failed w in
  T ≠ ∅ →
  ∃ calls,
    trace w' = trace w ++ calls ++ [torrents_delete T true]
    ∧ Forall is_manager_call calls
    ∧ queue_deletions calls = omap (queue_deletion_of a) (elements T).
Proof.
  intros a T w' HT. subst w'. unfold _process_failed. rewrite exec_bind.
  change (eval get_self w) with (self w). change (exec get_self w) with w.
  fold a. fold T. rewrite (bool_decide_eq_true_2 _ HT).
  unfold process_entries. cbv beta iota zeta. rewrite !exec_bind.
  destruct (_process_failed_payload_spec
              (omap (λ h, (λ _id, (_id, upper h)) <$> Arr.cache a !! upper h)
                 (elements T))
              (set_map upper (Arr.skip_blacklist a))
              (exec (set_needs_cleanup true) w))
    as (_ & _ & calls & Ht1 & Hd1).
  assert (Hm : preserves (emits is_manager_call)
                 (for_each
                    (omap (λ h, (λ _id, (_id, upper h)) <$> Arr.cache a !! upper h)
                       (elements T))
                    (λ '(entry, hash_),
                       _process_failed_individual hash_ entry
                         (set_map upper (Arr.skip_blacklist a))))).
  { emits_tac.
    unfold _process_failed_individual, delete_from_queue, post_command.
    emits_tac. }
  destruct (Hm (exec (set_needs_cleanup true) w)) as (calls' & Ht1' & Hcalls).
  assert (calls' = calls) as -> by (rewrite Ht1 in Ht1'; by simplify_list_eq).
  destruct (evict_loop_spec (elements T)
              (exec (emit (torrents_delete T true))
                 (exec (for_each
                          (omap (λ h, (λ _id, (_id, upper h))
                                        <$> Arr.cache a !! upper h)
                             (elements T))
                          (λ '(entry, hash_),
                             _process_failed_individual hash_ entry
                               (set_map upper (Arr.skip_blacklist a))))
                    (exec (set_needs_cleanup true) w))))
    as (_ & Ht2 & _).
  exists calls. split; [|split; [done|]].
  - do 2 match goal with
         | |- trace (exec _ ?v) = _ =>
             transitivity (trace v); [by destruct v as [[] ? ? ? ? ? ?]|]
         end.
    rewrite Ht2. unfold_M. rewrite Ht1.
    destruct w as [[] ? ? ? ? ? ?]. simpl. by rewrite <- app_assoc.
  - rewrite Hd1. apply payload_queue_deletions.
Qed.

(** X9: [_process_failed] calls the download client once, last, with
    [delete_files] set, for all of [delete ∪ skip_blacklist] at once,
    whether or not a hash resolved through the queue; the calls before it
    all go to the media manager.  When both sets are empty it calls
    nothing. *)
Theorem _process_failed_deletes_from_the_client_once w :
  let T := Arr.delete (self w) ∪ Arr.skip_blacklist (self w) in
  let w' := exec _process_failed w in
  ∃ calls,
    Forall is_manager_call calls
    ∧ trace w'
      = trace w ++ (if bool_decide (T ≠ ∅)
                    then calls ++ [torrents_delete T true]
                    else []).
Proof.
  cbv zeta. case_bool_decide as HT.
  - destruct (_process_failed_calls w HT) as (calls & Ht & Hcalls & _).
    by exists calls.
  - exists []. split; [constructor|]. rewrite app_nil_r.
    unfold _process_failed. rewrite exec_bind.
    change (eval get_self w) with (self w). change (exec get_self w) with w.
    rewrite bool_decide_eq_false_2 by (by intros Hne).
    by destruct w as [[] ? ? ? ? ? ?].
Qed.

(** ** A download whose files have vanished *)

Lemma ascii_upper_idemp c : ascii_upper (ascii_upper c) = ascii_upper c.
Proof. by destruct c as [[] [] [] [] [] [] [] []]. Qed.

Lemma upper_idemp s : upper (upper s) = upper s.
Proof.
  induction s as [|c s IH]; [done|]. simpl. by rewrite ascii_upper_idemp, IH.
Qed.

(** What [_process_imports] and [_process_failed] read. *)
Definition removal_inputs (w : World) :=
  (Arr.import_torrents (self w), Arr.sent_to_scan (self w),
   Arr.cache (self w), Arr.skip_blacklist (self w), Arr.delete (self w)).

Lemma flush_head_keeps_removal_inputs :
  preserves (keeps removal_inputs)
    (_process_paused ;; _process_errored ;; _process_file_priority).
Proof.
  unfold _process_paused, _process_errored, _process_file_priority,
    set_needs_cleanup, timed_ignore_cache_add.
  keeps_tac.
  unfold _process_file_priority_entry, set_needs_cleanup. keeps_tac.
Qed.

Lemma _process_imports_marks_vanished validate path_exists torrent w :
  torrent ∈ Arr.import_torrents (self w) →
  Str (Torrent.hash torrent) ∉ Arr.sent_to_scan (self w) →
  path_exists (validate (Torrent.content_path torrent)) = false →
  let w' := exec (_process_imports validate path_exists) w in
  upper (Torrent.hash torrent) ∈ Arr.skip_blacklist (self w')
  ∧ Arr.cache (self w') = Arr.cache (self w).
Proof.
  intros Hin Hstr Hgone. cbv zeta. unfold _process_imports.
  rewrite exec_bind.
  change (eval get_self w) with (self w). change (exec get_self w) with w.
  destruct (Arr.import_torrents (self w)) as [|t ts] eqn:Himp;
    [by apply elem_of_nil in Hin|].
  rewrite !exec_bind.
  destruct (_process_imports_loop_spec validate path_exists (t :: ts)
              (exec (set_needs_cleanup true) w))
    as (_ & Hc & _ & Hall & _).
  specialize (Hall torrent Hin).
  revert Hc Hall.
  generalize (exec (for_each (t :: ts)
                      (_process_imports_torrent validate path_exists))
                (exec (set_needs_cleanup true) w)).
  intros [[] ? ? ? ? ? ?] Hc Hall. destruct w as [[] ? ? ? ? ? ?].
  unfold_M. split; [|done]. by apply Hall.
Qed.

(** X10: a torrent on the import list whose content path no longer
    exists is removed in the same flush: its upper-cased hash is in the
    set the download client is asked to delete, and when the queue of
    the manager knows that hash, the queue entry is removed with
    [blocklist] off. *)
Theorem vanished_download_is_removed_unblocklisted validate path_exists view
    torrent w :
  torrent ∈ Arr.import_torrents (self w) →
  Str (Torrent.hash torrent) ∉ Arr.sent_to_scan (self w) →
  path_exists (validate (Torrent.content_path torrent)) = false →
  let w' := exec (process validate path_exists view) w in
  ∃ calls,
    trace w' = trace w ++ calls
    ∧ (∃ T, upper (Torrent.hash torrent) ∈ T ∧ torrents_delete T true ∈ calls)
    ∧ ∀ id_, Arr.cache (self w) !! upper (Torrent.hash torrent) = Some id_ →
             request_del id_ true false ∈ calls.
Proof.
  intros Hin Hstr Hgone. cbv zeta.
  assert (Hsplit : exec (process validate path_exists view) w
    = exec (folder_cleanup view)
        (exec _process_failed
           (exec (_process_imports validate path_exists)
              (exec (_process_paused ;; _process_errored ;; _process_file_priority)
                 w)))).
  { unfold process. by rewrite !exec_bind. }
  rewrite Hsplit. clear Hsplit.
  pose proof (flush_head_keeps_removal_inputs w) as Hkeep.
  assert (Hhead : emits (λ _, True) w
            (exec (_process_paused ;; _process_errored ;; _process_file_priority) w)).
  { assert (H : preserves (emits (λ _, True))
                  (_process_paused ;; _process_errored ;; _process_file_priority)).
    { unfold _process_paused, _process_errored, _process_file_priority,
        set_needs_cleanup, timed_ignore_cache_add.
      emits_tac.
      unfold _process_file_priority_entry, set_needs_cleanup. emits_tac. }
    apply H. }
  revert Hkeep Hhead.
  generalize (exec (_process_paused ;; _process_errored ;; _process_file_priority) w).
  intros w3 Hkeep (c3 & Ht3 & _).
  unfold keeps, removal_inputs in Hkeep.
  injection Hkeep as Himp Hsent Hcache Hskip Hdel.
  destruct (_process_imports_marks_vanished validate path_exists torrent w3)
    as (Hmark & Hcache4); [by rewrite Himp|by rewrite Hsent|done|].
  destruct (_process_imports_emits validate path_exists w3) as (c4 & Ht4 & _).
  revert Hmark Hcache4 Ht4.
  generalize (exec (_process_imports validate path_exists) w3).
  intros w4 Hmark Hcache4 Ht4.
  destruct (_process_failed_calls w4) as (c5 & Ht5 & _ & Hq);
    [intros Hempty; apply (elem_of_empty (C := gset string)
                             (upper (Torrent.hash torrent)));
     rewrite <- Hempty; by apply elem_of_union_r|].
  destruct (folder_cleanup_emits view (exec _process_failed w4))
    as (c6 & Ht6 & _).
  exists (c3 ++ c4 ++ c5
          ++ [torrents_delete (Arr.delete (self w4) ∪ Arr.skip_blacklist (self w4))
                true] ++ c6).
  split; [|split].
  - rewrite Ht6, Ht5, Ht4, Ht3. by rewrite <- !app_assoc.
  - exists (Arr.delete (self w4) ∪ Arr.skip_blacklist (self w4)).
    split; [by apply elem_of_union_r|].
    rewrite !elem_of_app. do 3 right. left. apply list_elem_of_here.
  - intros id_ Hid.
    assert (Hdel5 : (id_, true, false) ∈ queue_deletions c5).
    { rewrite Hq. apply list_elem_of_omap.
      exists (upper (Torrent.hash torrent)). split.
      - apply elem_of_elements. by apply elem_of_union_r.
      - unfold queue_deletion_of, blocklist_flag.
        rewrite upper_idemp, Hcache4, Hcache, Hid. simpl.
        rewrite bool_decide_eq_false_2; [done|].
        intros Hnot. apply Hnot. apply elem_of_map.
        exists (upper (Torrent.hash torrent)).
        by rewrite upper_idemp. }
    apply list_elem_of_omap in Hdel5 as (e & He & Heq).
    rewrite !elem_of_app. do 2 right. left.
    destruct e; try discriminate Heq. by injection Heq as -> -> ->.
Qed.

(** The completed torrent is on the import list, the queue of the manager
    knows it as entry 7, and its folder is gone. *)
Definition vanished_world : World :=
  sample_world
    (Arr.set_import_torrents [completed_torrent]
       (Arr.set_cache {["ABC" := 7]}
          (sample_arr (sample_config false (λ _, false))))).

Lemma vanished_download_is_removed_unblocklisted_witness :
  let w' := exec (process (λ p, p) (λ _, false) (FolderView.mk [] [] false))
              vanished_world in
  ∃ calls,
    trace w' = trace vanished_world ++ calls
    ∧ request_del 7 true false ∈ calls.
Proof.
  cbv zeta.
  assert (Hin : completed_torrent ∈ Arr.import_torrents (self vanished_world))
    by apply list_elem_of_here.
  assert (Hstr : Str (Torrent.hash completed_torrent)
                 ∉ Arr.sent_to_scan (self vanished_world)).
  { apply (bool_decide_unpack _). vm_compute. exact I. }
  destruct (vanished_download_is_removed_unblocklisted (λ p, p) (λ _, false)
              (FolderView.mk [] [] false) completed_torrent vanished_world
              Hin Hstr eq_refl) as (calls & Ht & _ & Hq).
  exists calls. split; [exact Ht|]. apply Hq. vm_compute. reflexivity.
Defined.

(** ** When the file scan deletes the torrent *)

(** Every file is already skipped or excluded, and the last one was not
    already skipped: the only way [total] reaches 0 where it is tested. *)
Definition all_files_ignored (c : Config) (files : list TorrentFile.t) : bool :=
  forallb (λ f, (TorrentFile.priority f =? 0) || file_is_excluded c f) files
  && match last files with
     | Some f => negb (TorrentFile.priority f =? 0)
     | None => false
     end.

Lemma Z_eqb_ext (a b c d : Z) : (a = b ↔ c = d) → (a =? b) = (c =? d).
Proof.
  intros H. destruct (Z.eqb_spec a b), (Z.eqb_spec c d); tauto.
Qed.

Lemma Z_eqb_false (a b : Z) : a ≠ b → (a =? b) = false.
Proof. apply Z.eqb_neq. Qed.

Lemma filter_files_delete torrent files _remove_files total w :
  Z.of_nat (length files) ≤ total →
  let w' := exec (filter_files torrent files _remove_files total) w in
  Arr.config (self w') = Arr.config (self w)
  ∧ Arr.delete (self w')
    = Arr.delete (self w)
      ∪ (if (total =? Z.of_nat (length files))
            && all_files_ignored (Arr.config (self w)) files
         then {[Torrent.hash torrent]} else ∅).
Proof.
  revert _remove_files total w.
  induction files as [|file rest IH]; intros rf total w Htotal; cbv zeta.
  - simpl. split; [done|]. rewrite andb_false_r. set_solver.
  - cbn [filter_files]. cbn [length] in *.
    assert (Hlast : ∀ c, all_files_ignored c (file :: rest)
              = ((TorrentFile.priority file =? 0) || file_is_excluded c file)
                && match rest with
                   | [] => negb (TorrentFile.priority file =? 0)
                   | _ :: _ => all_files_ignored c rest
                   end).
    { intros c. unfold all_files_ignored. cbn [forallb].
      destruct rest as [|f2 rest']; [simpl; by rewrite andb_true_r|].
      rewrite last_cons_cons. by rewrite andb_assoc. }
    rewrite Hlast. clear Hlast.
    destruct (TorrentFile.priority file =? 0) eqn:Hprio.
    + destruct (IH rf (total - 1) w) as (Hc & Hd); [lia|].
      split; [done|]. rewrite Hd. f_equal. simpl.
      destruct rest as [|f2 rest'].
      * simpl. rewrite andb_false_r. by rewrite andb_false_r.
      * assert ((total - 1 =? Z.of_nat (length (f2 :: rest')))
                = (total =? Z.of_nat (S (length (f2 :: rest'))))) as ->; [|done].
        apply Z_eqb_ext. lia.
    + rewrite exec_bind. change (eval get_self w) with (self w).
      change (exec get_self w) with w. cbv zeta. rewrite exec_bind.
      set (excluded := file_is_excluded (Arr.config (self w)) file).
      set (total' := if excluded then total - 1 else total).
      set (rf' := if excluded then rf ∪ {[TorrentFile.id file]} else rf).
      match goal with
      | |- context [exec (filter_files _ _ _ _) (exec ?m w)] =>
          assert (Hstep :
            Arr.config (self (exec m w)) = Arr.config (self w)
            ∧ Arr.delete (self (exec m w))
              = Arr.delete (self w)
                ∪ (if total' =? 0 then {[Torrent.hash torrent]} else ∅));
          [|destruct (IH rf' total' (exec m w)) as (Hc & Hd);
            [subst total'; destruct excluded; lia|]]
      end.
      { destruct w as [[] ? ? ? ? ? ?]. destruct (total' =? 0); unfold_M;
          [split; [done|set_solver]|].
        destruct (_ && _); unfold_M; (split; [done|set_solver]). }
      destruct Hstep as (Hc1 & Hd1). rewrite Hc, Hd, Hc1, Hd1.
      split; [done|]. simpl. subst total'.
      destruct rest as [|f2 rest'].
      * simpl. rewrite andb_false_r, (right_id_L ∅ (∪)).
        f_equal. destruct excluded; simpl.
        -- assert ((total - 1 =? 0) = (total =? 1)) as ->
             by (apply Z_eqb_ext; lia).
           change (Z.of_nat 1) with 1. by rewrite andb_true_r.
        -- rewrite andb_false_r. rewrite Z_eqb_false by lia. done.
      * destruct excluded; cbn [orb andb].
        -- rewrite (Z_eqb_false (total - 1) 0) by (cbn [length] in Htotal; lia).
           rewrite (right_id_L ∅ (∪)).
           by rewrite (Z_eqb_ext (total - 1) (Z.of_nat (length (f2 :: rest')))
                         total (Z.of_nat (S (length (f2 :: rest'))))) by lia.
        -- rewrite (Z_eqb_false total 0) by (cbn [length] in Htotal; lia).
           rewrite (right_id_L ∅ (∪)).
           rewrite (Z_eqb_false total (Z.of_nat (length (f2 :: rest'))))
             by (cbn [length] in *; lia).
           by rewrite andb_false_r.
Qed.

(** X11: a torrent that reaches the last branch of the classifier is
    marked for deletion exactly when it is old and short of seeders, or
    when every one of its files is already skipped or excluded and the
    last file of the list is not an already skipped one (after a skipped
    file the count of wanted files is not tested).  Otherwise [delete]
    is as it was. *)
Theorem uncompleted_torrent_is_deleted_iff time_now torrent w :
  let c := Arr.config (self w) in
  let stale :=
    Qltb (inject_Z (Torrent.added_on torrent))
      (time_now - inject_Z (ignore_torrents_younger_than c))
    && Qltb (Torrent.availability torrent) 1 in
  Arr.delete (self (exec (action uncompleted time_now torrent) w))
  = Arr.delete (self w)
    ∪ (if stale || all_files_ignored c (Torrent.files torrent)
       then {[Torrent.hash torrent]} else ∅).
Proof.
  cbv zeta. unfold action. rewrite exec_bind.
  change (eval get_self w) with (self w). change (exec get_self w) with w.
  destruct (_ && _); cbn [orb].
  - by destruct w as [[] ? ? ? ? ? ?].
  - destruct (filter_files_delete torrent (Torrent.files torrent) ∅
                (Z.of_nat (length (Torrent.files torrent))) w) as (_ & ->);
      [lia|].
    by rewrite Z.eqb_refl.
Qed.

(** ** Names are known when file priorities are set *)

(** What the body of a branch of the classifier may do for the torrent
    with hash [h]: no call, no change to the supervisor caches, nothing
    taken out of [delete], and no entry of [change_priority] touched but
    that of [h]. *)
Definition marks_only (h : string) (w w' : World) : Prop :=
  qbit_manager w' = qbit_manager w
  ∧ trace w' = trace w
  ∧ Arr.delete (self w) ⊆ Arr.delete (self w')
  ∧ ∀ k, k ≠ h →
      Arr.change_priority (self w') !! k = Arr.change_priority (self w) !! k.

#[local] Instance marks_only_refl h : Reflexive (marks_only h).
Proof. by intros w. Qed.

#[local] Instance marks_only_trans h : Transitive (marks_only h).
Proof.
  intros w1 w2 w3 (Hq & Ht & Hd & Hc) (Hq' & Ht' & Hd' & Hc').
  split_and!; [congruence|congruence|by etransitivity|].
  intros k Hk. by rewrite Hc', Hc.
Qed.

Ltac marks_only_leaf :=
  solve [ unfold preserves; intros [[] ? ? ? ? ? ?];
          split_and!; simpl;
          [done|done|set_solver
          |intros ? ?; try done; by rewrite lookup_insert_ne] ].

Ltac marks_only_tac := repeat first [ preserves_step | marks_only_leaf ].

Lemma filter_files_marks_only torrent files _remove_files total :
  preserves (marks_only (Torrent.hash torrent))
    (filter_files torrent files _remove_files total).
Proof.
  revert _remove_files total.
  induction files as [|file rest IH]; intros rf total; cbn [filter_files].
  - marks_only_tac.
  - destruct (TorrentFile.priority file =? 0); [apply IH|].
    apply preserves_bind; [apply _|marks_only_tac|].
    intros a. cbv zeta.
    apply preserves_bind; [apply _|marks_only_tac|]. intros _. apply IH.
Qed.

Lemma action_marks_only r time_now torrent :
  preserves (marks_only (Torrent.hash torrent)) (action r time_now torrent).
Proof.
  destruct r; unfold action, add_delete, add_recheck, add_pause, add_resume,
    add_skip_blacklist, timed_skip_add; marks_only_tac.
  apply filter_files_marks_only.
Qed.

(** Every hash of [change_priority] has a name, and not the empty one. *)
Definition names_known (w : World) : Prop :=
  ∀ h files, Arr.change_priority (self w) !! h = Some files →
    ∃ name, qBitManager.name_cache (qbit_manager w) !! h = Some name
            ∧ truthy name = true.

Lemma classify_names_known FAILED_CATEGORY RECHECK_CATEGORY time_now torrent w :
  truthy (Torrent.name torrent) = true →
  names_known w →
  let w' := exec (classify FAILED_CATEGORY RECHECK_CATEGORY time_now torrent) w in
  names_known w' ∧ trace w' = trace w
  ∧ Arr.delete (self w) ⊆ Arr.delete (self w').
Proof.
  intros Hname Hknown. cbv zeta. rewrite classify_runs_fired.
  destruct (refresh_caches_self RECHECK_CATEGORY torrent w) as (Hs & _ & Ht).
  assert (Hcache : ∀ k,
    qBitManager.name_cache
      (qbit_manager (exec (refresh_caches RECHECK_CATEGORY torrent) w)) !! k
    = if decide (k = Torrent.hash torrent) then Some (Torrent.name torrent)
      else qBitManager.name_cache (qbit_manager w) !! k).
  { intros k. destruct w as [? [nc c] ? ? ? ? ?]. unfold refresh_caches.
    destruct (negb _); unfold_M;
      (destruct (decide _) as [->|Hne];
        [apply lookup_insert_eq|by apply lookup_insert_ne]). }
  assert (Hmarks : marks_only (Torrent.hash torrent)
    (exec (refresh_caches RECHECK_CATEGORY torrent) w)
    (match fired FAILED_CATEGORY RECHECK_CATEGORY w time_now torrent with
     | Some r =>
         exec (action r time_now torrent)
           (exec (refresh_caches RECHECK_CATEGORY torrent) w)
     | None => exec (refresh_caches RECHECK_CATEGORY torrent) w
     end)).
  { destruct (fired _ _ _ _ _); [apply action_marks_only|reflexivity]. }
  revert Hmarks Hcache Hs Ht.
  generalize (match fired FAILED_CATEGORY RECHECK_CATEGORY w time_now torrent with
              | Some r =>
                  exec (action r time_now torrent)
                    (exec (refresh_caches RECHECK_CATEGORY torrent) w)
              | None => exec (refresh_caches RECHECK_CATEGORY torrent) w
              end).
  generalize (exec (refresh_caches RECHECK_CATEGORY torrent) w).
  intros w1 w2 (Hq & Ht2 & Hd & Hc) Hcache Hs Ht.
  split; [|split; [by rewrite Ht2|by rewrite <- Hs]].
  intros h files Hh. rewrite Hq, Hcache.
  destruct (decide (h = Torrent.hash torrent)) as [->|Hne]; [by eauto|].
  rewrite Hc, Hs in Hh by done. by apply Hknown in Hh.
Qed.

Lemma classify_all_names_known FAILED_CATEGORY RECHECK_CATEGORY time_now
    torrents w :
  (∀ t, t ∈ torrents → truthy (Torrent.name t) = true) →
  names_known w →
  let w' := exec (classify_all FAILED_CATEGORY RECHECK_CATEGORY time_now
                    torrents) w in
  names_known w' ∧ trace w' = trace w
  ∧ Arr.delete (self w) ⊆ Arr.delete (self w').
Proof.
  revert w. induction torrents as [|t rest IH]; intros w Hnames Hknown;
    cbv zeta; [done|].
  unfold classify_all. rewrite exec_for_each_cons.
  destruct (classify_names_known FAILED_CATEGORY RECHECK_CATEGORY time_now t w)
    as (Hk1 & Ht1 & Hd1); [apply Hnames, list_elem_of_here|done|].
  destruct (IH (exec (classify FAILED_CATEGORY RECHECK_CATEGORY time_now t) w))
    as (Hk2 & Ht2 & Hd2);
    [intros ? ?; by apply Hnames, list_elem_of_further|done|].
  split; [done|].
  split; [etransitivity; [exact Ht2|exact Ht1]|by etransitivity].
Qed.

Definition no_error_line (e : event) : Prop :=
  match e with log_error _ => False | _ => True end.

Lemma file_priority_event_known w h files :
  names_known w →
  Arr.change_priority (self w) !! h = Some files →
  file_priority_event (qBitManager.name_cache (qbit_manager w)) (h, files)
  = torrents_file_priority h files 0.
Proof.
  intros Hknown Hh. destruct (Hknown h files Hh) as (name & Hname & Htruthy).
  unfold file_priority_event. simpl. by rewrite Hname, Htruthy.
Qed.

(** What the classifier and the file-priority step read. *)
Definition priority_inputs (w : World) :=
  (Arr.change_priority (self w), qbit_manager w).

Lemma refresh_download_queue_keeps_priority_inputs queue :
  preserves (keeps (λ w, (priority_inputs w, trace w, Arr.delete (self w))))
    (refresh_download_queue queue).
Proof. unfold refresh_download_queue. keeps_tac. Qed.

Lemma flush_head_keeps_priority_inputs :
  preserves (keeps priority_inputs) (_process_paused ;; _process_errored).
Proof.
  unfold _process_paused, _process_errored, set_needs_cleanup,
    timed_ignore_cache_add.
  keeps_tac.
Qed.

(** X12: in a tick that starts with [change_priority] empty and lists no
    torrent with an empty name, the file-priority step never takes its
    error branch: every hash the classifier has put in [change_priority]
    gets its [torrents_file_priority] call, with the recorded file ids
    and priority 0, and no error line is written by the tick. *)
Theorem marked_files_are_deselected_in_the_same_tick validate path_exists
    FAILED_CATEGORY RECHECK_CATEGORY queue time_now torrents view w :
  Arr.change_priority (self w) = ∅ →
  (∀ t, t ∈ torrents → truthy (Torrent.name t) = true) →
  let w1 := exec (refresh_download_queue queue ;;
                  classify_all FAILED_CATEGORY RECHECK_CATEGORY time_now
                    torrents) w in
  let w' := exec (process_torrents validate path_exists FAILED_CATEGORY
                    RECHECK_CATEGORY queue time_now torrents view) w in
  ∃ calls,
    trace w' = trace w ++ calls
    ∧ Forall no_error_line calls
    ∧ ∀ h files, Arr.change_priority (self w1) !! h = Some files →
                 torrents_file_priority h files 0 ∈ calls.
Proof.
  intros Hempty Hnames. cbv zeta.
  unfold process_torrents, process. rewrite !exec_bind.
  pose proof (refresh_download_queue_keeps_priority_inputs queue w) as Hq.
  unfold keeps, priority_inputs in Hq. injection Hq as Hcp0 Hqm0 Ht0 _.
  destruct (classify_all_names_known FAILED_CATEGORY RECHECK_CATEGORY time_now
              torrents (exec (refresh_download_queue queue) w) Hnames)
    as (Hknown & Ht1 & _).
  { intros h files Hh. by rewrite Hcp0, Hempty in Hh. }
  revert Hknown Ht1.
  generalize (exec (classify_all FAILED_CATEGORY RECHECK_CATEGORY time_now
                      torrents) (exec (refresh_download_queue queue) w)).
  intros w1 Hknown Ht1. rewrite Ht0 in Ht1. clear Hcp0 Hqm0 Ht0.
  pose proof (flush_head_keeps_priority_inputs w1) as Hkeep.
  rewrite exec_bind in Hkeep.
  destruct (_process_paused_emits w1) as (c1 & Hc1 & F1).
  destruct (_process_errored_emits (exec _process_paused w1)) as (c2 & Hc2 & F2).
  revert Hkeep Hc2. generalize (exec _process_errored (exec _process_paused w1)).
  intros w2 Hkeep Hc2. unfold keeps, priority_inputs in Hkeep.
  injection Hkeep as Hcp2 Hqm2.
  assert (Hknown2 : names_known w2).
  { intros h files. rewrite Hcp2, Hqm2. apply Hknown. }
  pose proof (_process_file_priority_loop_spec
                (map_to_list (Arr.change_priority (self w2))) w2)
    as (Hc3 & _ & _).
  assert (Hloop : exec _process_file_priority w2
                  = exec (for_each (map_to_list (Arr.change_priority (self w2)))
                            _process_file_priority_entry) w2).
  { unfold _process_file_priority. by rewrite exec_bind. }
  rewrite <- Hloop in Hc3. clear Hloop.
  revert Hc3. generalize (exec _process_file_priority w2). intros w3 Hc3.
  destruct (_process_imports_emits validate path_exists w3) as (c4 & Hc4 & F4).
  revert Hc4. generalize (exec (_process_imports validate path_exists) w3).
  intros w4 Hc4.
  destruct (_process_failed_emits w4) as (c5 & Hc5 & F5).
  revert Hc5. generalize (exec _process_failed w4). intros w5 Hc5.
  destruct (folder_cleanup_emits view w5) as (c6 & Hc6 & F6).
  revert Hc6. generalize (exec (folder_cleanup view) w5). intros w6 Hc6.
  exists (c1 ++ c2
          ++ map (file_priority_event (qBitManager.name_cache (qbit_manager w2)))
               (map_to_list (Arr.change_priority (self w2)))
          ++ c4 ++ c5 ++ c6).
  split; [|split].
  - rewrite Hc6, Hc5, Hc4, Hc3, Hc2, Hc1, Ht1. by rewrite <- !app_assoc.
  - repeat apply Forall_app_2.
    + eapply Forall_impl; [exact F1|]. by intros [].
    + eapply Forall_impl; [exact F2|]. by intros [].
    + apply Forall_forall. intros e He.
      apply list_elem_of_fmap in He as ([h files] & -> & Hin).
      apply elem_of_map_to_list in Hin.
      by rewrite (file_priority_event_known w2 h files Hknown2 Hin).
    + eapply Forall_impl; [exact F4|]. by intros [].
    + eapply Forall_impl; [exact F5|]. by intros [].
    + eapply Forall_impl; [exact F6|]. by intros [].
  - intros h files Hh. rewrite <- Hcp2 in Hh.
    rewrite !elem_of_app. right. right. left.
    apply list_elem_of_fmap. exists (h, files).
    split; [by rewrite (file_priority_event_known w2 h files Hknown2 Hh)|].
    by apply elem_of_map_to_list.
Qed.

Lemma marked_files_are_deselected_in_the_same_tick_witness :
  let w := sample_world (sample_arr (sample_config false (λ _, false))) in
  let w' := exec (process_torrents (λ p, p) (λ _, true) "failed" "recheck" []
                    1100%Q [sample_torrent] (FolderView.mk [] [] false)) w in
  Arr.change_priority (self w) = ∅
  ∧ ∃ calls, trace w' = trace w ++ calls ∧ Forall no_error_line calls.
Proof.
  cbv zeta. split; [reflexivity|].
  destruct (marked_files_are_deselected_in_the_same_tick (λ p, p) (λ _, true)
              "failed" "recheck" [] 1100%Q [sample_torrent]
              (FolderView.mk [] [] false)
              (sample_world (sample_arr (sample_config false (λ _, false)))))
    as (calls & Ht & Hno & _).
  - reflexivity.
  - intros t Ht. inversion Ht as [|? ? ? Hnil]; subst; [reflexivity|].
    inversion Hnil.
  - exists calls. split; [exact Ht|exact Hno].
Defined.

Lemma classify_all_marks_failed FAILED_CATEGORY RECHECK_CATEGORY time_now
    torrents torrent w :
  torrent ∈ torrents →
  Torrent.category torrent = FAILED_CATEGORY →
  Torrent.hash torrent
    ∈ Arr.delete (self (exec (classify_all FAILED_CATEGORY RECHECK_CATEGORY
                                time_now torrents) w)).
Proof.
  intros Hin Hcat. revert w.
  induction torrents as [|t rest IH]; intros w; [by apply elem_of_nil in Hin|].
  unfold classify_all. rewrite exec_for_each_cons.
  apply elem_of_cons in Hin as [<-|Hin]; [|by apply IH].
  assert (Hgrow : preserves
            (λ v v', Arr.delete (self v) ⊆ Arr.delete (self v'))
            (for_each rest (classify FAILED_CATEGORY RECHECK_CATEGORY time_now))).
  { apply preserves_for_each; [by intros ?|intros ? ? ? ? ?; by etransitivity|].
    intros t v. rewrite classify_runs_fired.
    destruct (refresh_caches_self RECHECK_CATEGORY t v) as (Hs & _).
    rewrite <- Hs.
    destruct (fired _ _ _ _ _); [|done].
    by destruct (action_marks_only r time_now t
                   (exec (refresh_caches RECHECK_CATEGORY t) v))
      as (_ & _ & ? & _). }
  apply Hgrow. rewrite classify_runs_fired.
  unfold fired, rules. cbn [List.find guard].
  rewrite (bool_decide_eq_true_2 _ Hcat).
  generalize (exec (refresh_caches RECHECK_CATEGORY torrent) w).
  intros [[] ? ? ? ? ? ?]. unfold action, add_delete. unfold_M. set_solver.
Qed.


(** ** What the queue caches hold *)

(** The queue id a download id resolves to: that of the last entry of
    the queue that carries it. *)
Definition queue_id_of (queue : list QueueEntry.t) (d : string) : option Z :=
  QueueEntry.id
    <$> last (filter (λ e, QueueEntry.downloadId e = Some d) queue).

(** The episodes of the entries with queue id [i], in queue order. *)
Definition episodes_of (queue : list QueueEntry.t) (i : Z) : list Z :=
  omap (λ e, if bool_decide (QueueEntry.id e = i)
             then QueueEntry.episode e else None) queue.

(** The movies (with an id other than 0) of the entries with queue id
    [i], in queue order. *)
Definition movies_of (queue : list QueueEntry.t) (i : Z) : list Z :=
  omap (λ e, if bool_decide (QueueEntry.id e = i)
             then match QueueEntry.movieId e with
                  | Some movie => if negb (movie =? 0) then Some movie else None
                  | None => None
                  end
             else None) queue.

Lemma cache_fold_spec queue d :
  foldl (λ (m : gmap string Z) entry,
           match QueueEntry.downloadId entry with
           | Some d => if truthy d then <[d := QueueEntry.id entry]> m else m
           | None => m
           end) ∅ queue !! d
  = if truthy d then queue_id_of queue d else None.
Proof.
  induction queue as [|entry queue IH] using rev_ind.
  - simpl. rewrite lookup_empty. by destruct (truthy d).
  - rewrite foldl_app. cbn [foldl]. unfold queue_id_of in *.
    rewrite filter_app, filter_cons, filter_nil.
    destruct (QueueEntry.downloadId entry) as [d'|] eqn:Hd.
    + destruct (decide (d' = d)) as [->|Hne].
      * rewrite decide_True by done. rewrite last_snoc.
        destruct (truthy d) eqn:Ht; [by rewrite lookup_insert_eq|].
        by rewrite IH.
      * rewrite decide_False by congruence. rewrite app_nil_r.
        destruct (truthy d'); [by rewrite lookup_insert_ne|done].
    + rewrite decide_False by done. by rewrite app_nil_r.
Qed.

Lemma requeue_fold_spec queue i :
  foldl (λ (m : gmap Z (list Z)) entry,
           match QueueEntry.episode entry with
           | Some e =>
               <[QueueEntry.id entry :=
                   default [] (m !! QueueEntry.id entry) ++ [e]]> m
           | None => m
           end) ∅ queue !! i
  = match episodes_of queue i with
    | [] => None
    | l => Some l
    end.
Proof.
  induction queue as [|entry queue IH] using rev_ind; [done|].
  rewrite foldl_app. cbn [foldl]. unfold episodes_of in *.
  rewrite omap_app. cbn [omap list_omap].
  destruct (QueueEntry.episode entry) as [e|] eqn:He.
  - destruct (decide (QueueEntry.id entry = i)) as [->|Hne].
    + rewrite bool_decide_eq_true_2 by done.
      rewrite lookup_insert_eq, IH.
      by destruct (omap _ queue).
    + rewrite bool_decide_eq_false_2 by done.
      rewrite lookup_insert_ne, IH by done. by rewrite app_nil_r.
  - rewrite IH. case_bool_decide; rewrite ?He; by rewrite app_nil_r.
Qed.

Lemma requeue_movie_fold_spec queue i :
  foldl (λ (m : gmap Z Z) entry,
           match QueueEntry.movieId entry with
           | Some movie =>
               if negb (movie =? 0)
               then <[QueueEntry.id entry := movie]> m
               else m
           | None => m
           end) ∅ queue !! i
  = last (movies_of queue i).
Proof.
  induction queue as [|entry queue IH] using rev_ind; [done|].
  rewrite foldl_app. cbn [foldl]. unfold movies_of in *.
  rewrite omap_app. cbn [omap list_omap].
  destruct (QueueEntry.movieId entry) as [movie|] eqn:Hm.
  - destruct (negb (movie =? 0)) eqn:Hz.
    + destruct (decide (QueueEntry.id entry = i)) as [->|Hne].
      * rewrite bool_decide_eq_true_2 by done.
        by rewrite lookup_insert_eq, last_snoc.
      * rewrite bool_decide_eq_false_2 by done.
        by rewrite lookup_insert_ne, IH, app_nil_r.
    + rewrite IH. case_bool_decide; by rewrite app_nil_r.
  - rewrite IH. case_bool_decide; by rewrite app_nil_r.
Qed.

Lemma refresh_download_queue_cache queue w d :
  Arr.cache (self (exec (refresh_download_queue queue) w)) !! d
  = if truthy d then queue_id_of queue d else None.
Proof.
  rewrite <- cache_fold_spec. destruct w as [a ? ? ? ? ? ?].
  unfold refresh_download_queue. unfold_M.
  assert (Hconfig : ∀ v, Arr.config (Arr.set_cache v a) = Arr.config a)
    by (by destruct a).
  rewrite Hconfig. destruct (type (Arr.config a)); by destruct a.
Qed.

(** X13: after [refresh_download_queue], [cache] resolves a download id
    to the queue id of the last queue entry that carries it, and holds
    no empty download id.  For Sonarr, [requeue_cache] gives for a queue
    id the episodes of all entries with that id, in queue order, and has
    no key with an empty list; for Radarr it gives the movie of the last
    such entry that has one, and never the id 0. *)
Theorem refresh_download_queue_caches queue w :
  let a' := self (exec (refresh_download_queue queue) w) in
  (∀ d, Arr.cache a' !! d
        = if truthy d then queue_id_of queue d else None)
  ∧ match type (Arr.config (self w)) with
    | sonarr =>
        ∀ i, Arr.requeue_cache a' !! i
             = match episodes_of queue i with
               | [] => None
               | l => Some l
               end
    | radarr =>
        ∀ i, Arr.requeue_cache_movie a' !! i = last (movies_of queue i)
             ∧ Arr.requeue_cache_movie a' !! i ≠ Some 0
    end.
Proof.
  cbv zeta. split; [intros d; apply refresh_download_queue_cache|].
  destruct w as [a ? ? ? ? ? ?]. unfold refresh_download_queue. unfold_M.
  assert (Hconfig : ∀ v, Arr.config (Arr.set_cache v a) = Arr.config a)
    by (by destruct a).
  rewrite Hconfig. destruct (type (Arr.config a)).
  - intros i. rewrite <- requeue_fold_spec. by destruct a.
  - intros i. rewrite <- requeue_movie_fold_spec.
    split; [by destruct a|].
    replace (Arr.requeue_cache_movie _ !! i)
      with (last (movies_of queue i))
      by (rewrite <- requeue_movie_fold_spec; by destruct a).
    intros Hlast. apply last_Some in Hlast as (l & Hl).
    assert (Hin : 0 ∈ movies_of queue i)
      by (rewrite Hl; apply elem_of_app; right; apply list_elem_of_here).
    apply list_elem_of_omap in Hin as (e & _ & He).
    case_bool_decide; [|done].
    destruct (QueueEntry.movieId e) as [movie|]; [|done].
    destruct (movie =? 0) eqn:Hz; [done|].
    simpl in He. injection He as ->. done.
Qed.

(** ** A torrent moved to the failed category *)

Lemma filter_files_keeps_cache torrent files _remove_files total :
  preserves (keeps (λ w, Arr.cache (self w)))
    (filter_files torrent files _remove_files total).
Proof.
  revert _remove_files total.
  induction files as [|file rest IH]; intros rf total; cbn [filter_files].
  - keeps_tac.
  - destruct (TorrentFile.priority file =? 0); [apply IH|].
    apply preserves_bind; [apply _|keeps_tac|].
    intros a. cbv zeta.
    apply preserves_bind; [apply _|keeps_tac|]. intros _. apply IH.
Qed.

Lemma action_keeps_cache r time_now torrent :
  preserves (keeps (λ w, Arr.cache (self w))) (action r time_now torrent).
Proof.
  destruct r; unfold action, add_delete, add_recheck, add_pause, add_resume,
    add_skip_blacklist, timed_skip_add; keeps_tac.
  apply filter_files_keeps_cache.
Qed.

Lemma classify_all_keeps_cache FAILED_CATEGORY RECHECK_CATEGORY time_now
    torrents :
  preserves (keeps (λ w, Arr.cache (self w)))
    (classify_all FAILED_CATEGORY RECHECK_CATEGORY time_now torrents).
Proof.
  apply preserves_for_each; [apply _..|]. intros t w. unfold keeps.
  rewrite classify_runs_fired.
  destruct (refresh_caches_self RECHECK_CATEGORY t w) as (Hs & _).
  rewrite <- Hs. destruct (fired _ _ _ _ _) as [r|]; [|done].
  apply (action_keeps_cache r time_now t).
Qed.

Lemma _process_imports_keeps_removals validate path_exists :
  preserves (keeps (λ w, (Arr.cache (self w), Arr.delete (self w))))
    (_process_imports validate path_exists).
Proof.
  unfold _process_imports, set_needs_cleanup. keeps_tac.
  unfold _process_imports_torrent, post_command. keeps_tac.
Qed.

Lemma queue_id_of_is_Some queue entry d :
  entry ∈ queue → QueueEntry.downloadId entry = Some d →
  is_Some (queue_id_of queue d).
Proof.
  intros Hin Hd. unfold queue_id_of.
  destruct (last (filter _ queue)) as [e|] eqn:Hlast; [by eexists|].
  apply last_None in Hlast.
  assert (Hmem : entry ∈ filter (λ e, QueueEntry.downloadId e = Some d) queue)
    by (by apply list_elem_of_filter).
  rewrite Hlast in Hmem. by apply elem_of_nil in Hmem.
Qed.

Lemma truthy_upper h : h ≠ "" → truthy (upper h) = true.
Proof. by destruct h. Qed.

(** X14: a torrent listed under the failed category is deleted by the
    same tick, whatever its state: its hash is in the set the download
    client is asked to delete with its files, and when an entry of the
    manager's queue carries its upper-cased hash as download id, a queue
    entry is removed for it, with [removeFromClient] set. *)
Theorem manually_failed_torrent_is_deleted validate path_exists
    FAILED_CATEGORY RECHECK_CATEGORY queue time_now torrents view torrent w :
  torrent ∈ torrents →
  Torrent.category torrent = FAILED_CATEGORY →
  let w' := exec (process_torrents validate path_exists FAILED_CATEGORY
                    RECHECK_CATEGORY queue time_now torrents view) w in
  ∃ calls T,
    trace w' = trace w ++ calls
    ∧ Torrent.hash torrent ∈ T
    ∧ torrents_delete T true ∈ calls
    ∧ ∀ entry, entry ∈ queue →
        QueueEntry.downloadId entry = Some (upper (Torrent.hash torrent)) →
        Torrent.hash torrent ≠ "" →
        ∃ id_ blocklist,
          queue_id_of queue (upper (Torrent.hash torrent)) = Some id_
          ∧ request_del id_ true blocklist ∈ calls.
Proof.
  intros Hin Hcat. cbv zeta.
  assert (Hsplit :
    exec (process_torrents validate path_exists FAILED_CATEGORY
            RECHECK_CATEGORY queue time_now torrents view) w
    = exec (folder_cleanup view)
        (exec _process_failed
           (exec (_process_imports validate path_exists)
              (exec (_process_paused ;; _process_errored ;; _process_file_priority)
                 (exec (classify_all FAILED_CATEGORY RECHECK_CATEGORY time_now
                          torrents)
                    (exec (refresh_download_queue queue) w)))))).
  { unfold process_torrents, process. by rewrite !exec_bind. }
  rewrite Hsplit. clear Hsplit.
  pose proof (refresh_download_queue_cache queue w
                (upper (Torrent.hash torrent))) as Hcache0.
  pose proof (refresh_download_queue_keeps_priority_inputs queue w) as Hq.
  unfold keeps, priority_inputs in Hq. injection Hq as _ _ Ht0 _.
  revert Hcache0 Ht0. generalize (exec (refresh_download_queue queue) w).
  intros w0 Hcache0 Ht0.
  pose proof (classify_all_marks_failed FAILED_CATEGORY RECHECK_CATEGORY
                time_now torrents torrent w0 Hin Hcat) as Hdel1.
  pose proof (classify_all_keeps_cache FAILED_CATEGORY RECHECK_CATEGORY
                time_now torrents w0) as Hcache1.
  assert (Ht1 : trace (exec (classify_all FAILED_CATEGORY RECHECK_CATEGORY
                               time_now torrents) w0) = trace w0).
  { assert (Hpre : preserves (keeps trace)
                  (classify_all FAILED_CATEGORY RECHECK_CATEGORY time_now
                     torrents)).
    { apply preserves_for_each; [apply _..|]. intros t v. unfold keeps.
      rewrite classify_runs_fired.
      destruct (refresh_caches_self RECHECK_CATEGORY t v) as (_ & _ & Ht).
      rewrite <- Ht. destruct (fired _ _ _ _ _) as [r|]; [|done].
      by destruct (action_marks_only r time_now t
                     (exec (refresh_caches RECHECK_CATEGORY t) v))
        as (_ & ? & _). }
    apply Hpre. }
  revert Hdel1 Hcache1 Ht1.
  generalize (exec (classify_all FAILED_CATEGORY RECHECK_CATEGORY time_now
                      torrents) w0).
  intros w1 Hdel1 Hcache1 Ht1. unfold keeps in Hcache1.
  pose proof (flush_head_keeps_removal_inputs w1) as Hkeep.
  assert (Hhead : emits (λ _, True) w1
            (exec (_process_paused ;; _process_errored ;; _process_file_priority) w1)).
  { assert (Hpre : preserves (emits (λ _, True))
                  (_process_paused ;; _process_errored ;; _process_file_priority)).
    { unfold _process_paused, _process_errored, _process_file_priority,
        set_needs_cleanup, timed_ignore_cache_add.
      emits_tac.
      unfold _process_file_priority_entry, set_needs_cleanup. emits_tac. }
    apply Hpre. }
  revert Hkeep Hhead.
  generalize (exec (_process_paused ;; _process_errored ;; _process_file_priority) w1).
  intros w3 Hkeep (c3 & Ht3 & _).
  unfold keeps, removal_inputs in Hkeep.
  injection Hkeep as _ _ Hcache3 _ Hdel3.
  pose proof (_process_imports_keeps_removals validate path_exists w3) as Hkeep4.
  destruct (_process_imports_emits validate path_exists w3) as (c4 & Ht4 & _).
  revert Hkeep4 Ht4.
  generalize (exec (_process_imports validate path_exists) w3).
  intros w4 Hkeep4 Ht4. unfold keeps in Hkeep4.
  injection Hkeep4 as Hcache4 Hdel4.
  assert (Hmem : Torrent.hash torrent
                 ∈ Arr.delete (self w4) ∪ Arr.skip_blacklist (self w4)).
  { apply elem_of_union_l. by rewrite Hdel4, Hdel3. }
  destruct (_process_failed_calls w4) as (c5 & Ht5 & _ & Hqd);
    [intros Hempty; rewrite Hempty in Hmem; by apply elem_of_empty in Hmem|].
  destruct (folder_cleanup_emits view (exec _process_failed w4))
    as (c6 & Ht6 & _).
  exists (c3 ++ c4 ++ c5
          ++ [torrents_delete (Arr.delete (self w4) ∪ Arr.skip_blacklist (self w4))
                true] ++ c6),
         (Arr.delete (self w4) ∪ Arr.skip_blacklist (self w4)).
  split_and!; [| done | |].
  - rewrite Ht6, Ht5, Ht4, Ht3, Ht1, Ht0. by rewrite <- !app_assoc.
  - rewrite !elem_of_app. do 3 right. left. apply list_elem_of_here.
  - intros entry Hentry Hd Hne.
    destruct (queue_id_of_is_Some queue entry _ Hentry Hd) as (id_ & Hid).
    exists id_, (blocklist_flag (Arr.skip_blacklist (self w4))
                   (Torrent.hash torrent)).
    split; [done|].
    assert (Hdel5 : (id_, true,
                     blocklist_flag (Arr.skip_blacklist (self w4))
                       (Torrent.hash torrent)) ∈ queue_deletions c5).
    { rewrite Hqd. apply list_elem_of_omap.
      exists (Torrent.hash torrent). split; [by apply elem_of_elements|].
      unfold queue_deletion_of.
      rewrite Hcache4, Hcache3, Hcache1, Hcache0, (truthy_upper _ Hne), Hid.
      done. }
    apply list_elem_of_omap in Hdel5 as (e & He & Heq).
    rewrite !elem_of_app. do 2 right. left.
    destruct e; try discriminate Heq. by injection Heq as -> -> ->.
Qed.

(** The torrent of the scenario, moved by hand to the failed category. *)
Definition manually_failed_torrent : TorrentDictionary := {|
  Torrent.hash := "abc"; Torrent.name := "Movie";
  Torrent.category := "failed"; Torrent.state_enum := DOWNLOADING;
  Torrent.progress := (1 # 10)%Q; Torrent.availability := 1%Q;
  Torrent.added_on := 1000; Torrent.completion_on := 0;
  Torrent.last_activity := 1090; Torrent.eta := 120;
  Torrent.seeding_time := 0; Torrent.amount_left := 900;
  Torrent.content_path := "/downloads/radarr-movies/Movie";
  Torrent.files := [TorrentFile.mk 0 "movie.mkv" 1] |}.

Lemma manually_failed_torrent_is_deleted_witness :
  let w := sample_world (sample_arr (sample_config false (λ _, false))) in
  let queue := [QueueEntry.mk (Some "ABC") 7 None (Some 3)] in
  let w' := exec (process_torrents (λ p, p) (λ _, true) "failed" "recheck"
                    queue 1100%Q [manually_failed_torrent]
                    (FolderView.mk [] [] false)) w in
  ∃ calls,
    trace w' = trace w ++ calls
    ∧ (∃ T, "abc" ∈ T ∧ torrents_delete T true ∈ calls)
    ∧ ∃ blocklist, request_del 7 true blocklist ∈ calls.
Proof.
  cbv zeta.
  destruct (manually_failed_torrent_is_deleted (λ p, p) (λ _, true)
              "failed" "recheck" [QueueEntry.mk (Some "ABC") 7 None (Some 3)]
              1100%Q [manually_failed_torrent] (FolderView.mk [] [] false)
              manually_failed_torrent
              (sample_world (sample_arr (sample_config false (λ _, false))))
              (list_elem_of_here _ _) eq_refl)
    as (calls & T & Ht & HT & Hdel & Hqueue).
  exists calls. split; [exact Ht|].
  split; [exists T; split; [exact HT|exact Hdel]|].
  destruct (Hqueue (QueueEntry.mk (Some "ABC") 7 None (Some 3))
              (list_elem_of_here _ _) eq_refl ltac:(discriminate))
    as (id_ & blocklist & Hid & Hreq).
  exists blocklist. vm_compute in Hid. injection Hid as <-. exact Hreq.
Defined.

(** ** One search for a candidate *)

Definition search_id_of (e : event) : option Z :=
  match e with
  | client_post_command (EpisodeSearch [id])
  | client_post_command (MoviesSearch [id]) => Some id
  | _ => None
  end.

(** The ids the search commands of a trace ask for. *)
Definition searched_ids (t : list event) : list Z := omap search_id_of t.

Definition is_search_or_sleep (e : event) : Prop :=
  match e with
  | sleep 30 => True
  | _ => is_Some (search_id_of e)
  end.

(** What the scheduler does between two points of a turn: it posts
    search commands and sleeps, appends one pending row for each command,
    and asks for no id twice nor for one that had a pending row. *)
Definition searches_once (w w' : World) : Prop :=
  self w' = self w
  ∧ ∃ calls,
      trace w' = trace w ++ calls
      ∧ Forall is_search_or_sleep calls
      ∧ model_queue w'
        = model_queue w ++ map (λ id, QueueModel.mk id false) (searched_ids calls)
      ∧ NoDup (searched_ids calls)
      ∧ ∀ id, id ∈ searched_ids calls → pending_rows id (model_queue w) = [].

Lemma pending_rows_app id rows rows' :
  pending_rows id (rows ++ rows')
  = pending_rows id rows ++ pending_rows id rows'.
Proof. apply filter_app. Qed.

Lemma pending_rows_inserted id ids :
  id ∈ ids → pending_rows id (map (λ id, QueueModel.mk id false) ids) ≠ [].
Proof.
  intros Hin Hnil.
  assert (Hmem : QueueModel.mk id false
                 ∈ pending_rows id (map (λ id, QueueModel.mk id false) ids)).
  { apply list_elem_of_filter. split; [done|].
    apply (list_elem_of_fmap_2 (λ id, QueueModel.mk id false)). exact Hin. }
  rewrite Hnil in Hmem. by apply elem_of_nil in Hmem.
Qed.

#[local] Instance searches_once_refl : Reflexive searches_once.
Proof.
  intros w. split; [done|]. exists []. rewrite !app_nil_r.
  split_and!; try done; [constructor|].
  intros id Hid. by apply elem_of_nil in Hid.
Qed.

#[local] Instance searches_once_trans : Transitive searches_once.
Proof.
  intros w1 w2 w3 (Hs1 & c1 & Ht1 & Hf1 & Hq1 & Hn1 & Hp1)
    (Hs2 & c2 & Ht2 & Hf2 & Hq2 & Hn2 & Hp2).
  split; [congruence|]. exists (c1 ++ c2).
  unfold searched_ids in *. rewrite omap_app, map_app.
  split_and!.
  - by rewrite Ht2, Ht1, app_assoc.
  - by apply Forall_app.
  - by rewrite Hq2, Hq1, app_assoc.
  - apply NoDup_app. split; [done|]. split; [|done].
    intros id Hid1 Hid2. specialize (Hp2 id Hid2).
    rewrite Hq1, pending_rows_app in Hp2.
    apply app_eq_nil in Hp2 as [_ Hp2].
    by apply (pending_rows_inserted id _ Hid1).
  - intros id [Hid|Hid]%elem_of_app; [by apply Hp1|].
    specialize (Hp2 id Hid). rewrite Hq1, pending_rows_app in Hp2.
    by apply app_eq_nil in Hp2 as [? _].
Qed.

Lemma searches_once_sleep : preserves searches_once (emit (sleep 30)).
Proof.
  intros w. split; [done|]. exists [sleep 30]. simpl. rewrite app_nil_r.
  split_and!; try done; [by repeat constructor|constructor|].
  intros id Hid. by apply elem_of_nil in Hid.
Qed.

Lemma arr_db_query_commands_count_pure commands w :
  exec (arr_db_query_commands_count commands) w = w.
Proof.
  unfold arr_db_query_commands_count. unfold_M. by destruct (negb _).
Qed.

Lemma maybe_do_search_searches_once commands file_model :
  preserves searches_once (maybe_do_search commands file_model).
Proof.
  intros w.
  assert (Hpost : ∀ c,
    search_id_of (client_post_command c) = Some (FilesModel.EntryId file_model) →
    pending_rows (FilesModel.EntryId file_model) (model_queue w) = [] →
    searches_once w
      (exec (queue_insert (FilesModel.EntryId file_model) ;;
             client_post c ;; mret (Some true)) w)).
  { intros c Hc Hpending. split; [done|].
    exists [client_post_command c]. unfold searched_ids.
    cbn [omap list_omap]. rewrite Hc. cbn [map].
    split_and!; try done.
    - repeat constructor. unfold is_search_or_sleep.
      destruct c; try done; by rewrite Hc.
    - apply NoDup_singleton.
    - intros id ->%list_elem_of_singleton. exact Hpending. }
  unfold maybe_do_search. rewrite exec_bind.
  change (eval get_world w) with w. change (exec get_world w) with w.
  cbv zeta. destruct (negb _); [reflexivity|].
  destruct (type (Arr.config (self w))).
  - case_bool_decide as Hq; [reflexivity|].
    rewrite exec_bind, arr_db_query_commands_count_pure.
    destruct (_ <=? _); [reflexivity|]. by apply Hpost.
  - rewrite exec_bind, arr_db_query_commands_count_pure.
    case_bool_decide as Hq; [reflexivity|].
    destruct (_ <=? _); [reflexivity|]. by apply Hpost.
Qed.

Lemma search_entry_searches_once observations entry :
  preserves searches_once (search_entry observations entry).
Proof.
  induction observations as [|commands later IH]; cbn [search_entry].
  - apply preserves_mret. apply _.
  - apply preserves_bind; [apply _|apply maybe_do_search_searches_once|].
    intros [[]|]; try (apply preserves_mret; apply _).
    apply preserves_bind; [apply _|apply searches_once_sleep|].
    intros _. exact IH.
Qed.

Lemma search_entries_searches_once entries :
  preserves searches_once (search_entries entries).
Proof.
  induction entries as [|[entry observations] rest IH]; cbn [search_entries].
  - apply preserves_mret. apply _.
  - apply preserves_bind; [apply _|apply search_entry_searches_once|].
    intros []; [exact IH|apply preserves_mret; apply _].
Qed.

(** X15: while the candidates of one turn are tried, no id is asked for
    twice and none that already had a pending row: the scheduler posts
    search commands and sleeps 30 seconds, nothing else; the ids of the
    commands are pairwise different; each id had no pending row before
    and has one after, appended with its command. *)
Theorem search_entries_searches_each_id_once entries w :
  let w' := exec (search_entries entries) w in
  ∃ calls,
    trace w' = trace w ++ calls
    ∧ Forall is_search_or_sleep calls
    ∧ NoDup (searched_ids calls)
    ∧ model_queue w'
      = model_queue w ++ map (λ id, QueueModel.mk id false) (searched_ids calls)
    ∧ ∀ id, id ∈ searched_ids calls →
        pending_rows id (model_queue w) = []
        ∧ pending_rows id (model_queue w') ≠ [].
Proof.
  cbv zeta.
  destruct (search_entries_searches_once entries w)
    as (_ & calls & Ht & Hf & Hq & Hn & Hp).
  exists calls. split_and!; try done.
  intros id Hid. split; [by apply Hp|].
  rewrite Hq, pending_rows_app, (Hp id Hid). simpl.
  by apply pending_rows_inserted.
Qed.

(** ** A file that has arrived *)

Lemma pending_rows_mark_completed id target rows :
  pending_rows id
    (map (λ r, if QueueModel.EntryId r =? target
               then QueueModel.mk (QueueModel.EntryId r) true
               else r) rows)
  = if id =? target then [] else pending_rows id rows.
Proof.
  induction rows as [|[entry done_] rows IH].
  - by destruct (id =? target).
  - cbn [map]. unfold pending_rows in *. rewrite !filter_cons, IH.
    cbn [QueueModel.EntryId QueueModel.completed].
    destruct (Z.eqb_spec entry target) as [->|Hne1];
      destruct (Z.eqb_spec id target) as [->|Hne2];
      cbn [QueueModel.EntryId QueueModel.completed].
    + rewrite decide_False; [done|]. by intros [? _].
    + rewrite decide_False by (intros [_ ?]; congruence).
      rewrite decide_False; [done|]. intros [_ ?]; congruence.
    + rewrite decide_False; [done|]. intros [_ ?]; congruence.
    + done.
Qed.

Lemma db_update_single_series_pending db_entry id w :
  let w' := exec (db_update_single_series db_entry) w in
  self w' = self w
  ∧ pending_rows id (model_queue w')
    = if Arr.search_missing (self w)
         && negb (ArrFile.FileId db_entry =? 0)
         && (id =? ArrFile.Id db_entry)
      then []
      else pending_rows id (model_queue w).
Proof.
  destruct w as [a ? ? ? mq ? ?]. unfold db_update_single_series. unfold_M.
  destruct (Arr.search_missing a); simpl; [|done].
  destruct (ArrFile.FileId db_entry =? 0); simpl.
  - by destruct (type (Arr.config a)).
  - rewrite <- pending_rows_mark_completed.
    by destruct (type (Arr.config a)).
Qed.

(** X16: [db_update] marks the pending searches of every selected entry
    that has a file completed, so that none is pending for it
    afterwards, and leaves the pending searches of every other entry as
    they were; with the search switched off the pending table is not
    touched. *)
Theorem db_update_clears_pending_of_found_files selected no_files id w :
  pending_rows id (model_queue (exec (db_update selected no_files) w))
  = if Arr.search_missing (self w)
       && existsb (λ e, negb (ArrFile.FileId e =? 0) && (id =? ArrFile.Id e))
            selected
    then []
    else pending_rows id (model_queue w).
Proof.
  unfold db_update. rewrite exec_bind.
  change (eval get_self w) with (self w). change (exec get_self w) with w.
  destruct (Arr.search_missing (self w)) eqn:Hsearch; cbn [negb andb]; [|done].
  rewrite exec_bind.
  assert (Hyear : ∀ v, model_queue (exec (_update_current_year no_files) v)
                       = model_queue v).
  { intros [? ? ? ? ? ? ?]. unfold _update_current_year. unfold_M.
    by destruct (negb _), no_files. }
  rewrite Hyear. clear Hyear. revert w Hsearch.
  induction selected as [|e rest IH]; intros w Hsearch; [done|].
  rewrite exec_for_each_cons.
  destruct (db_update_single_series_pending e id w) as (Hs & Hp).
  rewrite IH by (by rewrite Hs). rewrite Hp, Hsearch. cbn [existsb andb].
  destruct (existsb _ rest); [by rewrite orb_true_r|].
  rewrite orb_false_r. by destruct (_ && _).
Qed.

(** ** How far a turn moves the year *)

(** X17: with the search on, a turn of the search loop first moves the
    year by one step if the year has no candidate left after the update,
    and, if the candidates are worked off without an exception, by one
    more step before the wrap-around test: a year without candidates
    costs two steps. *)
Theorem search_pass_moves_the_year count_start stopping_year p w :
  Arr.search_missing (self w) = true →
  let w' := exec (search_pass count_start stopping_year p) w in
  let left_loop := eval (search_pass count_start stopping_year p) w in
  let d := _delta (Arr.config (self w)) in
  let y1 := Arr.search_current_year (self w)
            + (if Pass.no_files p (self w) then d else 0) in
  Arr.search_current_year (self w')
  = if left_loop && bool_decide (Pass.raises p = None)
    then wrap (search_in_reverse (Arr.config (self w)))
           count_start stopping_year (y1 + d)
    else y1.
Proof.
  intros Hsearch. cbv zeta.
  destruct (search_pass_points count_start stopping_year p w) as [Hleft Hself].
  destruct (turn_points_year count_start stopping_year p w)
    as (_ & Hy1 & Hy2 & Hy3 & Hy4).
  cbv zeta in Hleft, Hself, Hy1, Hy2, Hy3, Hy4.
  rewrite Hsearch in Hy1. cbn [andb] in Hy1.
  rewrite Hself, Hleft.
  destruct (eval (search_entries _) _); cbn [andb]; [|by rewrite Hy2, Hy1].
  destruct (Pass.raises p).
  - rewrite bool_decide_eq_false_2 by done. by rewrite Hy2, Hy1.
  - rewrite bool_decide_eq_true_2 by done. by rewrite Hy4, Hy3, Hy1.
Qed.

Lemma search_pass_moves_the_year_witness :
  let w := sample_world (sample_arr (sample_config false (λ _, false))) in
  let w' := exec (search_pass 2020 2026 (Pass.mk [] (λ _, []) None)) w in
  Arr.search_current_year (self w) = 2020
  ∧ Arr.search_current_year (self w') = 2022.
Proof.
  cbv zeta. split; [reflexivity|].
  rewrite (search_pass_moves_the_year 2020 2026 (Pass.mk [] (λ _, []) None)
             (sample_world (sample_arr (sample_config false (λ _, false))))
             eq_refl).
  reflexivity.
Defined.

(** ** What the supervisor registers *)

#[global] Instance Exception_eq_dec : EqDecision Exception.
Proof. solve_decision. Defined.

(** The exceptions [build_arr_instances] has no [except] clause for. *)
Definition uncaught (e : Exception) : bool :=
  match e with
  | EnvironmentError _ | SkipException | NoOptionError _ => false
  | ValueError _ | re_error _ | TypeError | AssertionError => true
  end.

Section registry.

Context (FAILED_CATEGORY RECHECK_CATEGORY : string).
Context (COMPLETED_DOWNLOAD_FOLDER APPDATA_FOLDER : string).
Context (re_match re_search_ : bool → string → string → bool).
Context (path_exists : string → bool).
Context (re_compiles : string → bool).
Context (IGNORE_TORRENTS_YOUNGER_THAN : Setting.t Z).

#[local] Abbreviation init :=
  (Arr__init__ COMPLETED_DOWNLOAD_FOLDER APPDATA_FOLDER re_match re_search_
     path_exists re_compiles).
#[local] Abbreviation step :=
  (build_arr_instance COMPLETED_DOWNLOAD_FOLDER APPDATA_FOLDER re_match
     re_search_ path_exists re_compiles).
#[local] Abbreviation loop :=
  (build_arr_instances_loop COMPLETED_DOWNLOAD_FOLDER APPDATA_FOLDER re_match
     re_search_ path_exists re_compiles).

(** Every registered reconciler is filed under its own category, and
    its name and URI are on record; two entries never share a name or a
    URI. *)
Definition registry_consistent (m : ArrManager.t) : Prop :=
  (∀ c a, ArrManager.managed_objects m !! c = Some (RealArr a) →
     category (Arr.config a) = c
     ∧ _name (Arr.config a) ∈ ArrManager.groups m
     ∧ uri (Arr.config a) ∈ ArrManager.uris m)
  ∧ ∀ c1 c2 a1 a2, c1 ≠ c2 →
      ArrManager.managed_objects m !! c1 = Some (RealArr a1) →
      ArrManager.managed_objects m !! c2 = Some (RealArr a2) →
      _name (Arr.config a1) ≠ _name (Arr.config a2)
      ∧ uri (Arr.config a1) ≠ uri (Arr.config a2).

(** What the [try] statement does with each outcome of the constructor. *)
Lemma build_arr_instance_cases m s :
  match section_match (ConfigSection.key s) with
  | None => step m s = inr m
  | Some call_cls =>
      match init (ConfigSection.key s) s m call_cls with
      | inr a =>
          step m s
          = inr (ArrManager.mk
                   (ArrManager.groups m ∪ {[ConfigSection.key s]})
                   (ArrManager.uris m ∪ {[uri (Arr.config a)]})
                   (<[category (Arr.config a) := RealArr a]>
                      (ArrManager.managed_objects m))
                   (ArrManager.logged m))
      | inl e =>
          if uncaught e then step m s = inl e
          else step m s
               = inr (if bool_decide (e = SkipException) then m
                      else log_exception e m)
      end
  end.
Proof.
  unfold build_arr_instance.
  destruct (section_match _) as [call_cls|]; [|done].
  by destruct (init _ _ _ _) as [[]|a].
Qed.

Lemma build_arr_instance_consistent m s m' :
  step m s = inr m' → registry_consistent m → registry_consistent m'.
Proof.
  intros Hstep [Hreg Hdistinct].
  pose proof (build_arr_instance_cases m s) as Hcases. rewrite Hstep in Hcases.
  destruct (section_match _) as [call_cls|]; [|by injection Hcases as <-].
  destruct (init (ConfigSection.key s) s m call_cls) as [e|a] eqn:Hinit.
  { destruct (uncaught e); [done|]. injection Hcases as ->.
    case_bool_decide; by split. }
  injection Hcases as ->.
  destruct (Arr__init__inr _ _ _ _ _ _ _ _ _ _ _ Hinit)
    as (Hname & _ & Huri & Hn & _).
  split; cbn [ArrManager.managed_objects ArrManager.groups ArrManager.uris].
  - intros c b Hc. destruct (decide (c = category (Arr.config a))) as [->|Hne].
    + rewrite lookup_insert_eq in Hc. injection Hc as <-.
      rewrite Hn. set_solver.
    + rewrite lookup_insert_ne in Hc by done.
      destruct (Hreg c b Hc) as (? & ? & ?). set_solver.
  - intros c1 c2 a1 a2 Hc H1 H2.
    destruct (decide (c1 = category (Arr.config a))) as [->|Hne1];
      destruct (decide (c2 = category (Arr.config a))) as [->|Hne2];
      try done.
    + rewrite lookup_insert_eq in H1. injection H1 as <-.
      rewrite lookup_insert_ne in H2 by done.
      destruct (Hreg c2 a2 H2) as (_ & Hg & Hu).
      rewrite Hn.
      split; intros Heq; [apply Hname|apply Huri]; by rewrite Heq.
    + rewrite lookup_insert_eq in H2. injection H2 as <-.
      rewrite lookup_insert_ne in H1 by done.
      destruct (Hreg c1 a1 H1) as (_ & Hg & Hu).
      rewrite Hn.
      split; intros Heq; [apply Hname|apply Huri]; by rewrite <- Heq.
    + rewrite lookup_insert_ne in H1, H2 by done.
      exact (Hdistinct c1 c2 a1 a2 Hc H1 H2).
Qed.

Lemma build_arr_instances_loop_consistent CONFIG m m' :
  loop CONFIG m = inr m' → registry_consistent m → registry_consistent m'.
Proof.
  revert m. induction CONFIG as [|s rest IH]; intros m Hloop Hm.
  - by injection Hloop as <-.
  - cbn [build_arr_instances_loop] in Hloop.
    destruct (step m s) as [e|m1] eqn:Hstep; [done|].
    cbn [mbind Exception_bind] in Hloop.
    apply (IH m1 Hloop). by apply (build_arr_instance_consistent m s).
Qed.

(** The loop over the sections is left by an exception exactly when the
    constructor of a section raises one that no clause catches, the
    sections before it having been gone through. *)
Lemma build_arr_instances_loop_raises CONFIG m e :
  loop CONFIG m = inl e
  ↔ ∃ before s after m1 call_cls,
      CONFIG = before ++ s :: after
      ∧ loop before m = inr m1
      ∧ section_match (ConfigSection.key s) = Some call_cls
      ∧ init (ConfigSection.key s) s m1 call_cls = inl e
      ∧ uncaught e = true.
Proof.
  revert m. induction CONFIG as [|s rest IH]; intros m.
  - split; [done|]. intros (before & ? & ? & ? & ? & Habs & _).
    by destruct before.
  - cbn [build_arr_instances_loop].
    pose proof (build_arr_instance_cases m s) as Hcases.
    destruct (step m s) as [e'|m1] eqn:Hstep; cbn [mbind Exception_bind].
    + assert (Hhere : ∃ call_cls,
                section_match (ConfigSection.key s) = Some call_cls
                ∧ init (ConfigSection.key s) s m call_cls = inl e'
                ∧ uncaught e' = true).
      { destruct (section_match _) as [call_cls|]; [|done].
        exists call_cls. split; [done|].
        destruct (init _ _ _ _) as [e0|a]; [|done].
        destruct (uncaught e0) eqn:He0; [|done].
        by injection Hcases as ->. }
      destruct Hhere as (call_cls & Hmatch & Hinit & Hun). split.
      * intros [= <-]. by exists [], s, rest, m, call_cls.
      * intros (before & s' & after & m1 & cls' & Heq & Hbefore & Hm' & Hi' & _).
        destruct before as [|s0 before].
        -- injection Heq as <- <-. injection Hbefore as <-.
           rewrite Hmatch in Hm'. injection Hm' as <-. congruence.
        -- injection Heq as <- _. cbn [build_arr_instances_loop] in Hbefore.
           by rewrite Hstep in Hbefore.
    + rewrite IH. split.
      * intros (before & s' & after & m2 & cls & -> & Hbefore & Hrest).
        exists (s :: before), s', after, m2, cls. split; [done|].
        split; [|done]. cbn [build_arr_instances_loop]. by rewrite Hstep.
      * intros (before & s' & after & m2 & cls & Heq & Hbefore & Hm' & Hi' & Hun).
        destruct before as [|s0 before].
        -- injection Heq as <- <-. injection Hbefore as <-.
           rewrite Hm', Hi', Hun in Hcases. congruence.
        -- injection Heq as <- ->. cbn [build_arr_instances_loop] in Hbefore.
           rewrite Hstep in Hbefore. cbn [mbind Exception_bind] in Hbefore.
           by exists before, s', after, m2, cls.
Qed.

(** The check of the global [IgnoreTorrentsYoungerThan] that
    [PlaceHolderArr.__init__] makes after the one of the name: what it
    raises, if anything. *)
Definition age_refused : option Exception :=
  match IGNORE_TORRENTS_YOUNGER_THAN with
  | Setting.absent => None
  | Setting.malformed => Some (ValueError "IgnoreTorrentsYoungerThan")
  | Setting.value n => if 0 <? n then None else Some AssertionError
  end.

Lemma PlaceHolderArr__init__cases name m :
  PlaceHolderArr__init__ IGNORE_TORRENTS_YOUNGER_THAN name m
  = if bool_decide (name ∈ ArrManager.groups m)
    then inl (EnvironmentError "Group has already been registered.")
    else match age_refused with
         | Some e => inl e
         | None => inr (PlaceHolderArr name)
         end.
Proof.
  unfold PlaceHolderArr__init__, raise_if, age_refused.
  case_bool_decide; [done|].
  destruct IGNORE_TORRENTS_YOUNGER_THAN as [| |n]; try done.
  cbn [converted_or mbind Exception_bind]. by destruct (0 <? n).
Qed.

(** What [build_placeholders] does.  It returns only if no name is a
    registered group and (when there is a name at all) the global setting
    is accepted; each name is then filed as a placeholder, over whatever
    was filed there, and nothing else changes.  It raises
    [EnvironmentError] for a name that is a group and otherwise what the
    check of the setting raises. *)
Lemma build_placeholders_spec cats m :
  match build_placeholders IGNORE_TORRENTS_YOUNGER_THAN cats m with
  | inr m' =>
      (∀ c, c ∈ cats → c ∉ ArrManager.groups m)
      ∧ (cats ≠ [] → age_refused = None)
      ∧ ArrManager.groups m' = ArrManager.groups m
      ∧ ArrManager.uris m' = ArrManager.uris m
      ∧ ArrManager.logged m' = ArrManager.logged m
      ∧ ∀ c, ArrManager.managed_objects m' !! c
             = if bool_decide (c ∈ cats) then Some (PlaceHolderArr c)
               else ArrManager.managed_objects m !! c
  | inl e =>
      (∃ c, c ∈ cats ∧ c ∈ ArrManager.groups m)
      ∧ e = EnvironmentError "Group has already been registered."
      ∨ cats ≠ [] ∧ age_refused = Some e
  end.
Proof.
  revert m. induction cats as [|cat rest IH]; intros m.
  - cbn [build_placeholders]. split_and!; try done.
    intros c Hc. by apply elem_of_nil in Hc.
  - cbn [build_placeholders]. rewrite PlaceHolderArr__init__cases.
    case_bool_decide as Hcat; cbn [mbind Exception_bind].
    { left. split; [|done]. exists cat. split; [apply list_elem_of_here|done]. }
    destruct age_refused as [e0|] eqn:Hage; cbn [mbind Exception_bind].
    { by right. }
    specialize (IH (ArrManager.mk (ArrManager.groups m) (ArrManager.uris m)
                      (<[cat := PlaceHolderArr cat]>
                         (ArrManager.managed_objects m))
                      (ArrManager.logged m))).
    destruct (build_placeholders _ rest _) as [e|m'].
    + destruct IH as [((c & Hc & Hg) & ->)|[_ ?]]; [|done].
      left. split; [|done].
      exists c. split; [by apply list_elem_of_further|done].
    + destruct IH as (Hfree & _ & Hg & Hu & Hl & Hmo).
      cbn [ArrManager.groups ArrManager.uris ArrManager.logged
           ArrManager.managed_objects] in *.
      split_and!; try done.
      * intros c [->|Hc]%elem_of_cons; [done|by apply Hfree].
      * intros c. rewrite Hmo.
        destruct (decide (c ∈ rest)) as [Hin|Hout].
        -- rewrite !bool_decide_eq_true_2; [done| |done].
           by apply list_elem_of_further.
        -- rewrite (bool_decide_eq_false_2 _ Hout).
           destruct (decide (c = cat)) as [->|Hne].
           ++ rewrite bool_decide_eq_true_2 by apply list_elem_of_here.
              apply lookup_insert_eq.
           ++ rewrite bool_decide_eq_false_2
                by (by intros [?|?]%elem_of_cons).
              by apply lookup_insert_ne.
Qed.

Lemma special_categories_elements c :
  c ∈ elements (special_categories FAILED_CATEGORY RECHECK_CATEGORY)
  ↔ c = FAILED_CATEGORY ∨ c = RECHECK_CATEGORY.
Proof. rewrite elem_of_elements. unfold special_categories. set_solver. Qed.

Lemma special_categories_not_nil :
  elements (special_categories FAILED_CATEGORY RECHECK_CATEGORY) ≠ [].
Proof.
  intros Hnil.
  assert (H : FAILED_CATEGORY
              ∈ elements (special_categories FAILED_CATEGORY RECHECK_CATEGORY))
    by (apply special_categories_elements; by left).
  rewrite Hnil in H. by apply elem_of_nil in H.
Qed.

(** X18: in the manager [build_arr_instances] returns, every reconciler
    is filed under its own category with its name among the groups and
    its URI among the URIs, and no two of them have the same name or
    the same URI: a section that repeats a registered name or URI is
    never built. *)
Theorem build_arr_instances_registers_each_manager_once CONFIG manager
    manager' :
  ArrManager.managed_objects manager = ∅ →
  build_arr_instances FAILED_CATEGORY RECHECK_CATEGORY
    COMPLETED_DOWNLOAD_FOLDER APPDATA_FOLDER re_match re_search_ path_exists
    re_compiles IGNORE_TORRENTS_YOUNGER_THAN CONFIG manager = inr manager' →
  registry_consistent manager'.
Proof.
  intros Hempty Hbuilt. unfold build_arr_instances in Hbuilt.
  destruct (loop CONFIG manager) as [e|built] eqn:Hloop; [done|].
  cbn [mbind Exception_bind] in Hbuilt.
  pose proof (build_placeholders_spec
                (elements (special_categories FAILED_CATEGORY RECHECK_CATEGORY))
                built) as Hspec.
  rewrite Hbuilt in Hspec. destruct Hspec as (_ & _ & Hg & Hu & _ & Hmo).
  destruct (build_arr_instances_loop_consistent CONFIG manager built Hloop)
    as [Hreg Hdistinct].
  { split; [intros c a|intros c1 c2 a1 a2 _]; by rewrite Hempty, lookup_empty. }
  assert (Hreal : ∀ c a,
    ArrManager.managed_objects manager' !! c = Some (RealArr a) →
    ArrManager.managed_objects built !! c = Some (RealArr a)).
  { intros c a. rewrite Hmo. by case_bool_decide. }
  split.
  - intros c a Hc. rewrite Hg, Hu. by apply Hreg, Hreal.
  - intros c1 c2 a1 a2 Hne H1 H2.
    by apply (Hdistinct c1 c2 a1 a2 Hne); apply Hreal.
Qed.

(** X19: when [build_arr_instances] returns and when it raises.  It
    returns exactly when the loop over the sections comes through, neither
    special category is the name of a group it has built, and the global
    [IgnoreTorrentsYoungerThan] is absent or a positive number; each
    special category is then filed as a placeholder, over whatever a
    section had filed under that key, and the rest of the registry is as
    the loop left it.  It raises what a constructor raised and no clause
    caught ([ValueError], [re.error], [TypeError], [AssertionError]), or
    [EnvironmentError] for a special category that is a group, or what the
    check of the global setting raises. *)
Theorem build_arr_instances_files_the_placeholders CONFIG manager :
  match build_arr_instances FAILED_CATEGORY RECHECK_CATEGORY
          COMPLETED_DOWNLOAD_FOLDER APPDATA_FOLDER re_match re_search_
          path_exists re_compiles IGNORE_TORRENTS_YOUNGER_THAN CONFIG manager
  with
  | inr manager' =>
      ∃ built,
        loop CONFIG manager = inr built
        ∧ (FAILED_CATEGORY ∉ ArrManager.groups built)
        ∧ (RECHECK_CATEGORY ∉ ArrManager.groups built)
        ∧ age_refused = None
        ∧ ∀ c, ArrManager.managed_objects manager' !! c
               = if bool_decide (c = FAILED_CATEGORY ∨ c = RECHECK_CATEGORY)
                 then Some (PlaceHolderArr c)
                 else ArrManager.managed_objects built !! c
  | inl e =>
      (∃ before s after m call_cls,
         CONFIG = before ++ s :: after
         ∧ loop before manager = inr m
         ∧ section_match (ConfigSection.key s) = Some call_cls
         ∧ init (ConfigSection.key s) s m call_cls = inl e
         ∧ uncaught e = true)
      ∨ ∃ built,
          loop CONFIG manager = inr built
          ∧ ((FAILED_CATEGORY ∈ ArrManager.groups built
              ∨ RECHECK_CATEGORY ∈ ArrManager.groups built)
             ∧ e = EnvironmentError "Group has already been registered."
             ∨ age_refused = Some e)
  end.
Proof.
  unfold build_arr_instances.
  destruct (loop CONFIG manager) as [e|built] eqn:Hloop;
    cbn [mbind Exception_bind].
  { left. by apply build_arr_instances_loop_raises. }
  pose proof (build_placeholders_spec
                (elements (special_categories FAILED_CATEGORY RECHECK_CATEGORY))
                built) as Hspec.
  destruct (build_placeholders _ _ _) as [e|manager'].
  - right. exists built. split; [done|].
    destruct Hspec as [((c & Hc & Hg) & ->)|[_ Hage]]; [left|by right].
    split; [|done].
    apply special_categories_elements in Hc as [->| ->]; [by left|by right].
  - destruct Hspec as (Hfree & Hage & _ & _ & _ & Hmo).
    exists built. split; [done|].
    split; [apply Hfree, special_categories_elements; by left|].
    split; [apply Hfree, special_categories_elements; by right|].
    split; [apply Hage, special_categories_not_nil|].
    intros c. rewrite Hmo. apply (f_equal (λ b : bool, if b then _ else _)).
    apply bool_decide_ext, special_categories_elements.
Qed.

End registry.

Lemma build_arr_instances_registers_each_manager_once_witness :
  ∃ manager',
    build_arr_instances "failed" "recheck" "/downloads" "/appdata"
      sample_re_match sample_re_search (λ _, true) (λ _, true) Setting.absent
      [sample_section "radarr-a" "http://localhost:7878";
       sample_section "radarr-b" "http://localhost:7878";
       sample_section "sonarr-c" "http://localhost:8989"]
      (ArrManager.mk ∅ ∅ ∅ []) = inr manager'
    ∧ registry_consistent manager'.
Proof.
  destruct (build_arr_instances "failed" "recheck" "/downloads" "/appdata"
              sample_re_match sample_re_search (λ _, true) (λ _, true)
              Setting.absent
              [sample_section "radarr-a" "http://localhost:7878";
               sample_section "radarr-b" "http://localhost:7878";
               sample_section "sonarr-c" "http://localhost:8989"]
              (ArrManager.mk ∅ ∅ ∅ [])) as [e|manager'] eqn:Hbuilt.
  - vm_compute in Hbuilt. discriminate Hbuilt.
  - exists manager'. split; [reflexivity|].
    exact (build_arr_instances_registers_each_manager_once "failed" "recheck"
             "/downloads" "/appdata" sample_re_match sample_re_search
             (λ _, true) (λ _, true) Setting.absent _
             (ArrManager.mk ∅ ∅ ∅ []) manager' eq_refl Hbuilt).
Defined.

(** * The torrent loop *)

(** ** Periodic commands ([Arr.api_calls]) *)

(** The two time stamps [Arr.__init__] sets up for [api_calls]; times are
    seconds, [None] is a timer that is switched off. *)
Module Timers.
Record t := mk {
  rss_sync_timer_last_checked : option Q;
  refresh_downloads_timer_last_checked : option Q }.
End Timers.

(** [datetime(1970, 1, 1)] is second 0. *)
Definition Timers__init__ (c : Config) : Timers.t := {|
  Timers.rss_sync_timer_last_checked :=
    if 0 <? rss_sync_timer c then Some 0%Q else None;
  Timers.refresh_downloads_timer_last_checked :=
    if 0 <? refresh_downloads_timer c then Some 0%Q else None |}.

Inductive LoopException :=
  | NoConnectionrException (message : string)
  | DelayLoopException (length : Z) (type_ : string).

(** [timedelta(minutes=n)]. *)
Definition minutes (n : Z) : Q := inject_Z (60 * n).

(** One of the two blocks of [api_calls]: the command is posted when
    the time stamp is older than the timer, and the time stamp renewed. *)
Definition timed_command (c : Command) (timer : Z) (now : Q)
    (last_checked : option Q) : M (option Q) :=
  match last_checked with
  | Some last =>
      if Qltb last (now - minutes timer)
      then post_command c ;; mret (Some now)
      else mret (Some last)
  | None => mret None
  end.

(** [is_alive] is the answer of the manager to the status probe, [now]
    is [datetime.now()]. *)
Definition api_calls (is_alive : bool) (now : Q) (timers : Timers.t)
    : M (LoopException + Timers.t) :=
  if negb is_alive
  then mret (inl (NoConnectionrException "Service did not respond"))
  else
    a ← get_self;
    rss ← timed_command RssSync (rss_sync_timer (Arr.config a)) now
            (Timers.rss_sync_timer_last_checked timers);
    refresh ← timed_command RefreshMonitoredDownloads
                (refresh_downloads_timer (Arr.config a)) now
                (Timers.refresh_downloads_timer_last_checked timers);
    mret (inr (Timers.mk rss refresh)).

(** ** One turn of [Arr.run_torrent_loop] *)

(** What the loop keeps between turns: the flag
    [qbit_manager.should_delay_torrent_scan] and the time stamps. *)
Module LoopState.
Record t := mk {
  should_delay_torrent_scan : bool;
  timers : Timers.t }.
End LoopState.

(** What the environment shows during one turn: whether the download
    client, the internet and the media manager answer, the two clocks,
    and what the tick reads ([datetime.now()], [time.time()], the queue
    of the manager, the torrents of the category, the completed
    folder). *)
Module Turn.
Record t := mk {
  qbit_is_alive : bool;
  has_internet : bool;
  is_alive : bool;
  now : Q;
  time_now : Q;
  queue : list QueueEntry.t;
  torrents : list TorrentDictionary;
  view : FolderView.t }.
End Turn.

Section torrent_loop.

Context (validate_and_return_torrent_file : string → string).
Context (path_exists : string → bool).
Context (FAILED_CATEGORY RECHECK_CATEGORY : string).
Context (LOOP_SLEEP_TIMER NO_INTERNET_SLEEP_TIMER : Z).

(** The whole of [Arr.process_torrents]: the two delay checks, then the
    [try] block, in which [api_calls] comes before the body that
    [process_torrents] gives.  The result is the exception that leaves
    the method, if any. *)
Definition process_torrents_checked (t : Turn.t) (s : LoopState.t)
    : M (option LoopException * LoopState.t) :=
  if negb (Turn.has_internet t)
  then mret (Some (DelayLoopException NO_INTERNET_SLEEP_TIMER "internet"),
             LoopState.mk true (LoopState.timers s))
  else if LoopState.should_delay_torrent_scan s
  then mret (Some (DelayLoopException NO_INTERNET_SLEEP_TIMER "delay"), s)
  else
    r ← api_calls (Turn.is_alive t) (Turn.now t) (LoopState.timers s);
    match r with
    | inr timers =>
        process_torrents validate_and_return_torrent_file path_exists
          FAILED_CATEGORY RECHECK_CATEGORY (Turn.queue t) (Turn.time_now t)
          (Turn.torrents t) (Turn.view t) ;;
        mret (None, LoopState.mk (LoopState.should_delay_torrent_scan s) timers)
    | inl (NoConnectionrException message) =>
        emit (log_error message) ;; mret (None, s)
    | inl _ =>
        emit (log_error "exception in process_torrents") ;; mret (None, s)
    end.

(** The body of [while True] in [run_torrent_loop]. *)
Definition run_torrent_loop_turn (t : Turn.t) (s : LoopState.t)
    : M LoopState.t :=
  '(raised, s) ←
    (if negb (Turn.qbit_is_alive t)
     then mret (Some (NoConnectionrException
                        "Could not connect to qBit client."), s)
     else process_torrents_checked t s);
  '(raised, s) ←
    match raised with
    | Some (NoConnectionrException message) =>
        emit (log_error message) ;;
        mret (Some (DelayLoopException 300 "qbit"),
              LoopState.mk true (LoopState.timers s))
    | Some (DelayLoopException length type_) =>
        mret (Some (DelayLoopException length type_), s)
    | None => emit (sleep LOOP_SLEEP_TIMER) ;; mret (None, s)
    end;
  match raised with
  | Some (DelayLoopException length _) =>
      emit (sleep length) ;;
      mret (LoopState.mk false (LoopState.timers s))
  | _ => mret s
  end.

End torrent_loop.

(** ** Properties of the periodic commands *)

(** The number of [RssSync] commands of a trace. *)
Definition rss_syncs (t : list event) : nat :=
  length (omap (λ e, match e with
                     | request_post RssSync => Some tt
                     | _ => None
                     end) t).

Lemma timed_command_spec c timer now last_checked w :
  let r := eval (timed_command c timer now last_checked) w in
  let w' := exec (timed_command c timer now last_checked) w in
  match last_checked with
  | None => r = None ∧ w' = w
  | Some last =>
      if Qltb last (now - minutes timer)
      then r = Some now ∧ w' = exec (post_command c) w
      else r = Some last ∧ w' = w
  end.
Proof.
  unfold timed_command. destruct last_checked as [last|]; [|done].
  by destruct (Qltb _ _).
Qed.

Lemma Qltb_false_2 (x y : Q) : (y <= x)%Q → Qltb x y = false.
Proof.
  intros Hle. unfold Qltb. apply negb_false_iff. by apply Qle_bool_iff.
Qed.

Lemma Qminus_le (x y m : Q) : (x <= y + m)%Q → (x - m <= y)%Q.
Proof.
  intros H. apply (Qplus_le_l _ _ m).
  assert (E : (x - m + m == x)%Q) by ring.
  rewrite E. exact H.
Qed.

Lemma rss_syncs_post_other c t :
  c ≠ RssSync → rss_syncs (t ++ [request_post c]) = rss_syncs t.
Proof.
  intros Hc. unfold rss_syncs. rewrite omap_app, length_app.
  destruct c; try done; simpl; lia.
Qed.

Lemma rss_syncs_post t :
  rss_syncs (t ++ [request_post RssSync]) = S (rss_syncs t).
Proof. unfold rss_syncs. rewrite omap_app, length_app. simpl. lia. Qed.

(** What one answered call of [api_calls] does about [RssSync]. *)
Lemma api_calls_rss_sync now timers w :
  let a := self w in
  let w' := exec (api_calls true now timers) w in
  ∃ timers',
    eval (api_calls true now timers) w = inr timers'
    ∧ self w' = self w
    ∧ match Timers.rss_sync_timer_last_checked timers with
      | None =>
          Timers.rss_sync_timer_last_checked timers' = None
          ∧ rss_syncs (trace w') = rss_syncs (trace w)
      | Some last =>
          if Qltb last (now - minutes (rss_sync_timer (Arr.config a)))
          then Timers.rss_sync_timer_last_checked timers' = Some now
               ∧ rss_syncs (trace w') = S (rss_syncs (trace w))
          else Timers.rss_sync_timer_last_checked timers' = Some last
               ∧ rss_syncs (trace w') = rss_syncs (trace w)
      end.
Proof.
  cbv zeta. unfold api_calls. cbn [negb].
  repeat (rewrite exec_bind || rewrite eval_bind).
  change (eval get_self w) with (self w). change (exec get_self w) with w.
  repeat (rewrite exec_bind || rewrite eval_bind).
  pose proof (timed_command_spec RssSync (rss_sync_timer (Arr.config (self w)))
                now (Timers.rss_sync_timer_last_checked timers) w) as Hrss.
  cbv zeta in Hrss.
  set (w1 := exec (timed_command RssSync _ now _) w) in *.
  set (r1 := eval (timed_command RssSync _ now _) w) in *.
  repeat (rewrite exec_bind || rewrite eval_bind).
  pose proof (timed_command_spec RefreshMonitoredDownloads
                (refresh_downloads_timer (Arr.config (self w))) now
                (Timers.refresh_downloads_timer_last_checked timers) w1)
    as Hrefresh.
  cbv zeta in Hrefresh.
  set (w2 := exec (timed_command RefreshMonitoredDownloads _ now _) w1) in *.
  set (r2 := eval (timed_command RefreshMonitoredDownloads _ now _) w1) in *.
  exists (Timers.mk r1 r2). split; [done|].
  change (exec (mret ?x) w2) with w2.
  assert (Hw2 : self w2 = self w1 ∧ rss_syncs (trace w2) = rss_syncs (trace w1)).
  { clearbody w2 r2 w1.
    destruct (Timers.refresh_downloads_timer_last_checked timers) as [last|];
      [destruct (Qltb _ _)|]; destruct Hrefresh as [_ ->]; try done.
    destruct w1. unfold post_command. unfold_M.
    split; [done|]. by apply rss_syncs_post_other. }
  destruct Hw2 as [Hs2 Hn2]. rewrite Hs2, Hn2. clearbody w2 r2 w1 r1.
  destruct (Timers.rss_sync_timer_last_checked timers) as [last|];
    [destruct (Qltb _ _)|]; destruct Hrss as [-> ->]; try done.
  destruct w. unfold post_command. unfold_M.
  split; [done|]. split; [done|]. apply rss_syncs_post.
Qed.

(** X20: an answered call of [api_calls] posts [RssSync] at most once; a
    timer that is switched off stays off and posts nothing, and
    [Arr.__init__] switches it off exactly when [RssSyncTimer] is not
    positive; and after a call that has posted at time [now], no call
    made up to [RssSyncTimer] minutes after [now] posts again. *)
Theorem rss_sync_is_posted_once_per_interval now timers w :
  let w1 := exec (api_calls true now timers) w in
  let timer := rss_sync_timer (Arr.config (self w)) in
  match eval (api_calls true now timers) w with
  | inr timers1 =>
      (rss_syncs (trace w1) ≤ S (rss_syncs (trace w)))%nat
      ∧ (Timers.rss_sync_timer_last_checked timers = None →
         Timers.rss_sync_timer_last_checked timers1 = None
         ∧ rss_syncs (trace w1) = rss_syncs (trace w))
      ∧ (rss_syncs (trace w1) ≠ rss_syncs (trace w) →
         ∀ now', (now' <= now + minutes timer)%Q →
           rss_syncs (trace (exec (api_calls true now' timers1) w1))
           = rss_syncs (trace w1))
      ∧ (Timers.rss_sync_timer_last_checked
           (Timers__init__ (Arr.config (self w))) = None
         ↔ timer ≤ 0)
  | inl _ => False
  end.
Proof.
  cbv zeta.
  assert (Hoff : Timers.rss_sync_timer_last_checked
                   (Timers__init__ (Arr.config (self w))) = None
                 ↔ rss_sync_timer (Arr.config (self w)) ≤ 0).
  { unfold Timers__init__. cbn [Timers.rss_sync_timer_last_checked].
    destruct (Z.ltb_spec 0 (rss_sync_timer (Arr.config (self w))));
      split; try done; lia. }
  destruct (api_calls_rss_sync now timers w) as (timers1 & -> & Hs & Hrss).
  destruct (Timers.rss_sync_timer_last_checked timers) as [last|] eqn:Hlast.
  - destruct (Qltb last _) eqn:Hold; destruct Hrss as [Ht1 Hn].
    + split; [lia|]. split; [done|]. split; [|exact Hoff].
      intros _ now' Hnow'.
      destruct (api_calls_rss_sync now' timers1
                  (exec (api_calls true now timers) w))
        as (timers2 & _ & _ & Hrss2).
      rewrite Ht1, Hs in Hrss2.
      rewrite Qltb_false_2 in Hrss2; [by destruct Hrss2|].
      by apply Qminus_le.
    + split; [lia|]. split; [done|]. split; [by intros []|exact Hoff].
  - destruct Hrss as [Ht1 Hn]. split; [lia|]. split; [done|].
    split; [by intros []|exact Hoff].
Qed.

(** ** Properties of a turn of the torrent loop *)

Definition not_sleep (e : event) : Prop :=
  match e with sleep _ => False | _ => True end.

Definition is_error_line (e : event) : Prop :=
  match e with log_error _ => True | _ => False end.

Lemma preserves_emits_impl {A} (P Q : event → Prop) (m : M A) :
  (∀ e, P e → Q e) → preserves (emits P) m → preserves (emits Q) m.
Proof. intros HPQ Hm w. eapply emits_impl; [exact HPQ|apply Hm]. Qed.

Lemma classify_all_keeps_trace FAILED_CATEGORY RECHECK_CATEGORY time_now
    torrents :
  preserves (keeps trace)
    (classify_all FAILED_CATEGORY RECHECK_CATEGORY time_now torrents).
Proof.
  apply preserves_for_each; [apply _..|]. intros t v. unfold keeps.
  rewrite classify_runs_fired.
  destruct (refresh_caches_self RECHECK_CATEGORY t v) as (_ & _ & Ht).
  rewrite <- Ht. destruct (fired _ _ _ _ _) as [r|]; [|done].
  by destruct (action_marks_only r time_now t
                 (exec (refresh_caches RECHECK_CATEGORY t) v))
    as (_ & ? & _).
Qed.

Lemma process_torrents_no_sleep validate path_exists FAILED_CATEGORY
    RECHECK_CATEGORY queue time_now torrents view :
  preserves (emits not_sleep)
    (process_torrents validate path_exists FAILED_CATEGORY RECHECK_CATEGORY
       queue time_now torrents view).
Proof.
  assert (Hweaken : ∀ (P : event → Prop) (m : M unit),
            (∀ e, P e → not_sleep e) →
            preserves (emits P) m → preserves (emits not_sleep) m).
  { intros P m. apply preserves_emits_impl. }
  unfold process_torrents, process.
  apply preserves_bind; [apply _| |intros _].
  { apply emits_silent. intros w.
    pose proof (refresh_download_queue_keeps_priority_inputs queue w) as H.
    unfold keeps, priority_inputs in H. by injection H as _ _ ? _. }
  apply preserves_bind; [apply _| |intros _].
  { apply emits_silent. intros w.
    apply (classify_all_keeps_trace FAILED_CATEGORY RECHECK_CATEGORY time_now
             torrents w). }
  apply preserves_bind; [apply _| |intros _].
  { apply (Hweaken is_pause); [by intros []|apply _process_paused_emits]. }
  apply preserves_bind; [apply _| |intros _].
  { apply (Hweaken is_recheck); [by intros []|apply _process_errored_emits]. }
  apply preserves_bind; [apply _| |intros _].
  { apply (Hweaken is_file_priority); [by intros []|].
    apply _process_file_priority_emits. }
  apply preserves_bind; [apply _| |intros _].
  { apply (Hweaken is_scan); [by intros []|apply _process_imports_emits]. }
  apply preserves_bind; [apply _| |intros _].
  { apply (Hweaken is_removal); [by intros []|apply _process_failed_emits]. }
  apply (Hweaken is_file_system); [by intros []|apply folder_cleanup_emits].
Qed.

Lemma api_calls_no_sleep is_alive now timers :
  preserves (emits not_sleep) (api_calls is_alive now timers).
Proof. unfold api_calls, timed_command, post_command. emits_tac. Qed.

Section torrent_loop_properties.

Context (validate_and_return_torrent_file : string → string).
Context (path_exists : string → bool).
Context (FAILED_CATEGORY RECHECK_CATEGORY : string).
Context (LOOP_SLEEP_TIMER NO_INTERNET_SLEEP_TIMER : Z).

#[local] Abbreviation turn :=
  (run_torrent_loop_turn validate_and_return_torrent_file path_exists
     FAILED_CATEGORY RECHECK_CATEGORY LOOP_SLEEP_TIMER NO_INTERNET_SLEEP_TIMER).

(** Whether the tick is run in a turn. *)
Definition tick_runs (t : Turn.t) (s : LoopState.t) : bool :=
  Turn.qbit_is_alive t && Turn.has_internet t
  && negb (LoopState.should_delay_torrent_scan s) && Turn.is_alive t.

(** How long the turn sleeps. *)
Definition turn_sleep (t : Turn.t) (s : LoopState.t) : Z :=
  if negb (Turn.qbit_is_alive t) then 300
  else if negb (Turn.has_internet t) || LoopState.should_delay_torrent_scan s
  then NO_INTERNET_SLEEP_TIMER
  else LOOP_SLEEP_TIMER.

(** X21: every turn of [run_torrent_loop] ends with one sleep, and makes
    no other: 300 seconds when the download client does not answer, the
    no-internet timer when there is no internet or the delay flag is
    set, the loop timer otherwise.  The delay flag is off at the end of
    every turn.  Unless the client, the internet and the manager all
    answer and the flag was off, the tick is not run: nothing but an
    error line is written before the sleep, and the reconciler, the
    supervisor caches and the time stamps are as before. *)
Theorem run_torrent_loop_turn_sleeps_once t s w :
  let s' := eval (turn t s) w in
  let w' := exec (turn t s) w in
  LoopState.should_delay_torrent_scan s' = false
  ∧ ∃ calls,
      trace w' = trace w ++ calls ++ [sleep (turn_sleep t s)]
      ∧ Forall not_sleep calls
      ∧ if tick_runs t s then True
        else Forall is_error_line calls
             ∧ self w' = self w
             ∧ qbit_manager w' = qbit_manager w
             ∧ LoopState.timers s' = LoopState.timers s.
Proof.
  cbv zeta. unfold run_torrent_loop_turn, tick_runs, turn_sleep.
  destruct t as [qbit internet alive now time_now queue torrents view].
  destruct s as [flag timers]. cbn [Turn.qbit_is_alive Turn.has_internet
    Turn.is_alive LoopState.should_delay_torrent_scan LoopState.timers
    Turn.now Turn.time_now Turn.queue Turn.torrents Turn.view].
  destruct qbit; cbn [negb andb].
  2:{ destruct w. unfold_M. split; [done|].
      exists [log_error "Could not connect to qBit client."].
      split; [by rewrite <- app_assoc|]. by repeat constructor. }
  unfold process_torrents_checked.
  cbn [Turn.qbit_is_alive Turn.has_internet
    Turn.is_alive LoopState.should_delay_torrent_scan LoopState.timers
    Turn.now Turn.time_now Turn.queue Turn.torrents Turn.view].
  destruct internet; cbn [negb andb orb].
  2:{ destruct w. unfold_M. split; [done|]. exists [].
      split; [done|]. by repeat constructor. }
  destruct flag; cbn [negb andb orb].
  { destruct w. unfold_M. split; [done|]. exists [].
    split; [done|]. by repeat constructor. }
  destruct alive; cbn [negb andb].
  2:{ destruct w. unfold api_calls. unfold_M. split; [done|].
      exists [log_error "Service did not respond"].
      split; [by rewrite <- app_assoc|]. by repeat constructor. }
  repeat (rewrite exec_bind || rewrite eval_bind).
  destruct (api_calls_rss_sync now timers w) as (timers' & Heval & _).
  rewrite Heval. cbn [LoopState.should_delay_torrent_scan].
  repeat (rewrite exec_bind || rewrite eval_bind).
  change (eval (mret ?x) ?v) with x. change (exec (mret ?x) ?v) with v.
  cbv beta iota.
  repeat (rewrite exec_bind || rewrite eval_bind).
  change (eval (mret ?x) ?v) with x. change (exec (mret ?x) ?v) with v.
  cbv beta iota. split; [done|].
  destruct (api_calls_no_sleep true now timers w) as (c1 & Ht1 & F1).
  destruct (process_torrents_no_sleep validate_and_return_torrent_file
              path_exists FAILED_CATEGORY RECHECK_CATEGORY queue time_now
              torrents view (exec (api_calls true now timers) w))
    as (c2 & Ht2 & F2).
  exists (c1 ++ c2). split; [|split; [by apply Forall_app|done]].
  change (exec (mret ?x) ?v) with v.
  match goal with
  | |- trace (exec (emit ?e) ?v) = _ =>
      transitivity (trace v ++ [e]); [by destruct v|]
  end.
  rewrite Ht2, Ht1. by rewrite <- !app_assoc.
Qed.

End torrent_loop_properties.

(** * The placeholders of the special categories ([PlaceHolderArr]) *)

(** A call made during a tick of a placeholder: to the download client,
    or by a managed reconciler (named by its category) to its manager. *)
Inductive PlaceHolderCall :=
  | qbit_torrents_recheck (torrent_hashes : list string)
  | qbit_torrents_set_category (torrent_hashes : list string)
      (category : string)
  | qbit_torrents_delete (hashes : gset string) (delete_files : bool)
  | through (category : string) (e : event).

(** The calls [arr._process_failed_individual] makes for a reconciler
    [arr]. *)
Definition failed_individual_calls (arr : Arr.t) (hash_ : string) (entry : Z)
    (skip_blacklist : gset string) : list event :=
  trace (exec (_process_failed_individual hash_ entry skip_blacklist)
           (mkWorld arr (qBitManager.mk ∅ ∅) ∅ true [] [] 0)).

Module PlaceHolder.

(** The attributes of a [PlaceHolderArr] that its methods use. *)
Record t := mk {
  _name : string;
  recheck : gset string;
  delete : gset string;
  skip_blacklist : gset string;
  timed_ignore_cache : ExpiringSet.t }.

(** The placeholder, the supervisor caches, the calls made so far, and
    what [time.time()] returns while the step at hand runs. *)
Record World := mkWorld {
  self : t;
  qbit_manager : qBitManager.t;
  calls : list PlaceHolderCall;
  clock : Q }.

(** [temp[c].append(h)] on a [defaultdict(list)], which keeps its keys in
    the order of their first use. *)
Fixpoint temp_append (c h : string) (temp : list (string * list string))
    : list (string * list string) :=
  match temp with
  | [] => [(c, [h])]
  | (k, v) :: rest =>
      if String.eqb k c then (k, v ++ [h]) :: rest
      else (k, v) :: temp_append c h rest
  end.

(** The dictionary [temp] of [_process_errored]: the hashes with a
    remembered category, by category. *)
Definition by_category (cache : gmap string string) (hashes : list string)
    : list (string * list string) :=
  foldl (λ temp h,
           match cache !! h with
           | Some c => if truthy c then temp_append c h temp else temp
           | None => temp
           end) [] hashes.

Definition _process_errored (w : World) : World :=
  let a := self w in
  if bool_decide (recheck a ≠ ∅)
  then
    let updated_recheck := elements (recheck a) in
    let temp := by_category (qBitManager.cache (qbit_manager w)) updated_recheck in
    mkWorld
      (mk (_name a) ∅ (delete a) (skip_blacklist a)
         (foldl (λ s k, ExpiringSet.add (clock w) k s)
            (timed_ignore_cache a) updated_recheck))
      (qbit_manager w)
      (calls w ++ [qbit_torrents_recheck updated_recheck]
         ++ map (λ '(k, v), qbit_torrents_set_category v k) temp)
      (clock w)
  else w.

(** What one managed object does for the hashes to delete: a reconciler
    removes from the queue of its manager the entries its own [cache]
    resolves; a placeholder has an empty [cache] and does nothing. *)
Definition managed_removals (to_delete_all skip_blacklist : gset string)
    (arr : ManagedArr) : list PlaceHolderCall :=
  match arr with
  | RealArr a =>
      let '(payload, _) := process_entries a to_delete_all in
      flat_map (λ '(entry, hash_),
        if bool_decide (is_Some (Arr.cache a !! hash_))
        then through (category (Arr.config a))
               <$> failed_individual_calls a hash_ entry skip_blacklist
        else []) payload
  | PlaceHolderArr _ => []
  end.

Definition evict_all (hashes : list string) (q : qBitManager.t)
    : qBitManager.t :=
  qBitManager.mk
    (foldl (λ m h, base.delete h m) (qBitManager.name_cache q) hashes)
    (foldl (λ m h, base.delete h m) (qBitManager.cache q) hashes).

(** [managed_objects] is [manager.managed_objects]. *)
Definition _process_failed (managed_objects : gmap string ManagedArr)
    (w : World) : World :=
  let a := self w in
  if negb (bool_decide (delete a ≠ ∅) || bool_decide (skip_blacklist a ≠ ∅))
  then w
  else
    let to_delete_all := delete a ∪ skip_blacklist a in
    let skip : gset string := set_map upper (skip_blacklist a) in
    let w :=
      if bool_decide (to_delete_all ≠ ∅)
      then
        mkWorld a
          (evict_all (elements to_delete_all) (qbit_manager w))
          (calls w
             ++ flat_map (λ kv, managed_removals to_delete_all skip kv.2)
                  (map_to_list managed_objects)
             ++ [qbit_torrents_delete to_delete_all true])
          (clock w)
      else w in
    mkWorld (mk (_name a) (recheck a) ∅ ∅ (timed_ignore_cache a))
      (qbit_manager w) (calls w) (clock w).

Definition process (managed_objects : gmap string ManagedArr) (w : World)
    : World :=
  _process_failed managed_objects (_process_errored w).

Section placeholder_classifier.

Context (FAILED_CATEGORY RECHECK_CATEGORY : string).

(** The body of the loop of [PlaceHolderArr.process_torrents]: the two
    caches are refreshed as in [Arr.process_torrents], then only the first
    two branches of the chain are there. *)
Definition classify (torrent : TorrentDictionary) (w : World) : World :=
  let q := qbit_manager w in
  let q :=
    qBitManager.mk
      (<[Torrent.hash torrent := Torrent.name torrent]> (qBitManager.name_cache q))
      (if negb (bool_decide (Torrent.category torrent = RECHECK_CATEGORY))
       then <[Torrent.hash torrent := Torrent.category torrent]> (qBitManager.cache q)
       else qBitManager.cache q) in
  let a := self w in
  let a :=
    if bool_decide (Torrent.category torrent = FAILED_CATEGORY)
    then mk (_name a) (recheck a) (delete a ∪ {[Torrent.hash torrent]})
           (skip_blacklist a) (timed_ignore_cache a)
    else if bool_decide (Torrent.category torrent = RECHECK_CATEGORY)
    then mk (_name a) (recheck a ∪ {[Torrent.hash torrent]}) (delete a)
           (skip_blacklist a) (timed_ignore_cache a)
    else a in
  mkWorld a q (calls w) (clock w).

(** The [try] block of [PlaceHolderArr.process_torrents]. *)
Definition process_torrents (managed_objects : gmap string ManagedArr)
    (torrents : list TorrentDictionary) (w : World) : World :=
  process managed_objects (foldl (λ w torrent, classify torrent w) w torrents).

End placeholder_classifier.

End PlaceHolder.

(** ** A torrent in the recheck category *)









(** ** A torrent in the failed category, under a placeholder *)






(** * What [sent_to_scan] holds *)

(** [sent_to_scan] holds paths only. *)
Definition only_paths (w : World) : Prop :=
  ∀ o, o ∈ Arr.sent_to_scan (self w) → ∃ p, o = Path p.

Definition keeps_only_paths (w w' : World) : Prop :=
  only_paths w → only_paths w'.

#[local] Instance keeps_only_paths_refl : Reflexive keeps_only_paths.
Proof. intros w H. exact H. Qed.

#[local] Instance keeps_only_paths_trans : Transitive keeps_only_paths.
Proof. intros w1 w2 w3 H1 H2 H. by apply H2, H1. Qed.

Ltac only_paths_leaf :=
  solve [ unfold preserves, keeps_only_paths, only_paths;
          intros [[] ? ? ? ? ? ?]; simpl;
          let H := fresh in
          let o := fresh in
          let Ho := fresh in
          intros H o Ho;
          first [ by apply H
                | by apply elem_of_empty in Ho
                | apply elem_of_union in Ho as [Ho|Ho%elem_of_singleton];
                  [by apply H|by eexists]
                | apply elem_of_difference in Ho as [Ho _]; by apply H ] ].

Ltac only_paths_tac := repeat first [ preserves_step | only_paths_leaf ].

Lemma filter_files_keeps_only_paths torrent files _remove_files total :
  preserves keeps_only_paths (filter_files torrent files _remove_files total).
Proof.
  revert _remove_files total.
  induction files as [|file rest IH]; intros rf total; cbn [filter_files].
  - only_paths_tac.
  - destruct (TorrentFile.priority file =? 0); [apply IH|].
    apply preserves_bind; [apply _|only_paths_tac|].
    intros a. cbv zeta.
    apply preserves_bind; [apply _|only_paths_tac|]. intros _. apply IH.
Qed.

Lemma classify_all_keeps_only_paths FAILED_CATEGORY RECHECK_CATEGORY time_now
    torrents :
  preserves keeps_only_paths
    (classify_all FAILED_CATEGORY RECHECK_CATEGORY time_now torrents).
Proof.
  apply preserves_for_each; [apply _..|]. intros t w.
  rewrite classify_runs_fired.
  assert (Hrefresh : keeps_only_paths w
                       (exec (refresh_caches RECHECK_CATEGORY t) w)).
  { destruct (refresh_caches_self RECHECK_CATEGORY t w) as (Hs & _).
    unfold keeps_only_paths, only_paths. by rewrite Hs. }
  destruct (fired _ _ _ _ _) as [r|]; [|done].
  etransitivity; [exact Hrefresh|].
  generalize (exec (refresh_caches RECHECK_CATEGORY t) w).
  change (preserves keeps_only_paths (action r time_now t)).
  destruct r; unfold action, add_delete, add_recheck, add_pause, add_resume,
    add_skip_blacklist, timed_skip_add; only_paths_tac.
  apply filter_files_keeps_only_paths.
Qed.

Lemma _remove_empty_folders_loop_only_paths entries acc w :
  (∀ o, o ∈ acc → ∃ p, o = Path p) →
  ∀ o, o ∈ eval (_remove_empty_folders_loop entries acc) w → ∃ p, o = Path p.
Proof.
  revert acc w. induction entries as [|entry entries IH]; intros acc w Hacc.
  - done.
  - cbn [_remove_empty_folders_loop]. rewrite eval_bind. apply IH.
    unfold _remove_empty_folders_entry.
    destruct (_ && _); [|done].
    rewrite eval_bind. rewrite eval_bind.
    change (eval get_self ?v) with (self v).
    case_bool_decide; [by rewrite eval_bind|].
    change (eval (mret ?x) ?v) with x.
    intros o [Ho| ->%elem_of_singleton]%elem_of_union; [by apply Hacc|].
    by eexists.
Qed.

Lemma process_keeps_only_paths validate path_exists view :
  preserves keeps_only_paths (process validate path_exists view).
Proof.
  unfold process.
  apply preserves_bind; [apply _| |intros _].
  { unfold _process_paused, set_needs_cleanup. only_paths_tac. }
  apply preserves_bind; [apply _| |intros _].
  { unfold _process_errored, set_needs_cleanup, timed_ignore_cache_add.
    only_paths_tac. }
  apply preserves_bind; [apply _| |intros _].
  { unfold _process_file_priority. only_paths_tac.
    unfold _process_file_priority_entry, set_needs_cleanup. only_paths_tac. }
  apply preserves_bind; [apply _| |intros _].
  { unfold _process_imports, set_needs_cleanup. only_paths_tac.
    unfold _process_imports_torrent, post_command. only_paths_tac. }
  apply preserves_bind; [apply _| |intros _].
  { unfold _process_failed, set_needs_cleanup, evict. only_paths_tac.
    unfold _process_failed_individual, delete_from_queue, post_command.
    only_paths_tac. }
  unfold folder_cleanup, set_needs_cleanup. only_paths_tac.
  { unfold folder_cleanup_file, file_is_probeable. only_paths_tac. }
  unfold _remove_empty_folders. intros w _.
  rewrite exec_bind.
  pose proof (_remove_empty_folders_loop_only_paths
                (FolderView.walk_after_unlink view) ∅ w) as Hloop.
  revert Hloop.
  generalize (eval (_remove_empty_folders_loop
                      (FolderView.walk_after_unlink view) ∅) w).
  generalize (exec (_remove_empty_folders_loop
                      (FolderView.walk_after_unlink view) ∅) w).
  intros [[] ? ? ? ? ? ?] acc Hloop.
  destruct (FolderView.completed_folder_empty view); unfold_M.
  - intros o Ho. by apply elem_of_empty in Ho.
  - intros o Ho. apply Hloop; [|done].
    intros o' Ho'. by apply elem_of_empty in Ho'.
Qed.

(** X24: if [sent_to_scan] holds only paths when a tick starts, it holds
    only paths when the tick ends; the first test of the import loop,
    [torrent.hash in self.sent_to_scan], which looks for a string, then
    holds for no hash. *)
Theorem sent_to_scan_holds_only_paths validate path_exists FAILED_CATEGORY
    RECHECK_CATEGORY queue time_now torrents view w :
  only_paths w →
  let w' := exec (process_torrents validate path_exists FAILED_CATEGORY
                    RECHECK_CATEGORY queue time_now torrents view) w in
  only_paths w' ∧ ∀ h, Str h ∉ Arr.sent_to_scan (self w').
Proof.
  intros Honly. cbv zeta.
  assert (Hkeeps : preserves keeps_only_paths
            (process_torrents validate path_exists FAILED_CATEGORY
               RECHECK_CATEGORY queue time_now torrents view)).
  { unfold process_torrents.
    apply preserves_bind; [apply _| |intros _].
    { unfold refresh_download_queue. only_paths_tac. }
    apply preserves_bind; [apply _| |intros _].
    { apply classify_all_keeps_only_paths. }
    apply process_keeps_only_paths. }
  pose proof (Hkeeps w Honly) as Hafter. split; [exact Hafter|].
  intros h Hh. by destruct (Hafter _ Hh).
Qed.

Lemma sent_to_scan_holds_only_paths_witness :
  let w := sample_world (sample_arr (sample_config true (λ _, false))) in
  let w' := exec (process_torrents (λ p, p) (λ _, true) "failed" "recheck" []
                    1100%Q [completed_torrent] sample_view) w in
  only_paths w ∧ only_paths w'.
Proof.
  cbv zeta.
  assert (Honly : only_paths
            (sample_world (sample_arr (sample_config true (λ _, false))))).
  { intros o Ho. by apply elem_of_empty in Ho. }
  split; [exact Honly|].
  exact (proj1 (sent_to_scan_holds_only_paths (λ p, p) (λ _, true) "failed"
                  "recheck" [] 1100%Q [completed_torrent] sample_view _ Honly)).
Defined.

(** * A completed torrent *)

(** What the conditions of the classifier read, for a torrent whose hash
    is [h]. *)
Definition guard_inputs (h : string) (w : World) :=
  (Arr.config (self w), Arr.timed_ignore_cache (self w),
   ExpiringSet.age (Arr.timed_skip (self w)),
   ExpiringSet.container (Arr.timed_skip (self w)) !! h,
   Arr.sent_to_scan_hashes (self w), managed_objects w, clock w).

Lemma guard_ext FAILED_CATEGORY RECHECK_CATEGORY r w w' time_now torrent :
  guard_inputs (Torrent.hash torrent) w' = guard_inputs (Torrent.hash torrent) w →
  guard FAILED_CATEGORY RECHECK_CATEGORY r w' time_now torrent
  = guard FAILED_CATEGORY RECHECK_CATEGORY r w time_now torrent.
Proof.
  unfold guard_inputs. intros [= Hc Hi Ha Hs Hh Hm Hck].
  unfold guard, target_sent_to_scan_hashes, ExpiringSet.contains.
  by rewrite Hc, Hi, Ha, Hs, Hh, Hm, Hck.
Qed.

Lemma fired_ext FAILED_CATEGORY RECHECK_CATEGORY w w' time_now torrent :
  guard_inputs (Torrent.hash torrent) w' = guard_inputs (Torrent.hash torrent) w →
  fired FAILED_CATEGORY RECHECK_CATEGORY w' time_now torrent
  = fired FAILED_CATEGORY RECHECK_CATEGORY w time_now torrent.
Proof.
  intros Hw. unfold fired, rules. cbn [List.find].
  by rewrite !(guard_ext _ _ _ w w' _ _ Hw).
Qed.

Lemma refresh_download_queue_keeps_guard_inputs h queue :
  preserves (keeps (guard_inputs h)) (refresh_download_queue queue).
Proof. unfold refresh_download_queue. keeps_tac. Qed.

Lemma filter_files_keeps_guard_inputs h torrent files _remove_files total :
  preserves (keeps (λ w, (guard_inputs h w, Arr.sent_to_scan (self w))))
    (filter_files torrent files _remove_files total).
Proof.
  revert _remove_files total.
  induction files as [|file rest IH]; intros rf total; cbn [filter_files].
  - keeps_tac.
  - destruct (TorrentFile.priority file =? 0); [apply IH|].
    apply preserves_bind; [apply _|keeps_tac|intros a].
    cbv zeta. apply preserves_bind; [apply _| |intros _; apply IH].
    keeps_tac.
Qed.

(** Classifying another torrent does not change what the conditions read
    for this one. *)
Lemma classify_keeps_guard_inputs FAILED_CATEGORY RECHECK_CATEGORY time_now
    t h :
  Torrent.hash t ≠ h →
  preserves (keeps (λ w, (guard_inputs h w, Arr.sent_to_scan (self w))))
    (classify FAILED_CATEGORY RECHECK_CATEGORY time_now t).
Proof.
  intros Hne. unfold classify, refresh_caches.
  apply preserves_bind; [apply _|keeps_tac|intros _].
  apply preserves_bind; [apply _|keeps_tac|intros w0].
  cbv zeta.
  repeat match goal with
         | |- preserves _ (if ?b then _ else _) => destruct b
         end;
    cbn [action]; unfold add_delete, add_recheck, add_pause, add_resume,
      add_skip_blacklist, timed_skip_add; keeps_tac.
  - unfold preserves, keeps, guard_inputs. intros [[] ? ? ? ? ? ?]. simpl.
    by rewrite lookup_insert_ne.
  - apply filter_files_keeps_guard_inputs.
Qed.

(** What is on the import list stays there, and what is to be paused
    stays so, while the snapshot is classified. *)
Definition queued_stay (w w' : World) : Prop :=
  (∀ t, t ∈ Arr.import_torrents (self w) → t ∈ Arr.import_torrents (self w'))
  ∧ Arr.pause (self w) ⊆ Arr.pause (self w').

#[local] Instance queued_stay_refl : Reflexive queued_stay.
Proof. by intros w. Qed.

#[local] Instance queued_stay_trans : Transitive queued_stay.
Proof. intros w1 w2 w3 [Hi1 Hp1] [Hi2 Hp2]. split; [auto|set_solver]. Qed.

Ltac queued_stay_leaf :=
  solve [ unfold preserves, queued_stay; intros [[] ? ? ? ? ? ?]; simpl;
          split; [intros ? ?; rewrite ?elem_of_app; auto|set_solver] ].

Ltac queued_stay_tac := repeat first [ preserves_step | queued_stay_leaf ].

Lemma filter_files_queued_stay torrent files _remove_files total :
  preserves queued_stay (filter_files torrent files _remove_files total).
Proof.
  revert _remove_files total.
  induction files as [|file rest IH]; intros rf total; cbn [filter_files].
  - queued_stay_tac.
  - destruct (TorrentFile.priority file =? 0); [apply IH|].
    apply preserves_bind; [apply _|queued_stay_tac|intros a].
    cbv zeta. apply preserves_bind; [apply _| |intros _; apply IH].
    queued_stay_tac.
Qed.

Lemma classify_queued_stay FAILED_CATEGORY RECHECK_CATEGORY time_now t :
  preserves queued_stay (classify FAILED_CATEGORY RECHECK_CATEGORY time_now t).
Proof.
  unfold classify, refresh_caches.
  apply preserves_bind; [apply _|queued_stay_tac|intros _].
  apply preserves_bind; [apply _|queued_stay_tac|intros w0].
  cbv zeta.
  repeat match goal with
         | |- preserves _ (if ?b then _ else _) => destruct b
         end;
    cbn [action]; unfold add_delete, add_recheck, add_pause, add_resume,
      add_skip_blacklist, timed_skip_add; queued_stay_tac.
  apply filter_files_queued_stay.
Qed.

(** The eighth branch: the torrent is to be paused and is put on the
    import list. *)
Lemma classify_completed FAILED_CATEGORY RECHECK_CATEGORY time_now torrent w :
  fired FAILED_CATEGORY RECHECK_CATEGORY w time_now torrent = Some completed →
  let w' := exec (classify FAILED_CATEGORY RECHECK_CATEGORY time_now torrent) w in
  torrent ∈ Arr.import_torrents (self w')
  ∧ Torrent.hash torrent ∈ Arr.pause (self w').
Proof.
  intros Hfired. cbv zeta. rewrite classify_runs_fired, Hfired.
  generalize (exec (refresh_caches RECHECK_CATEGORY torrent) w).
  intros [[] ? ? ? ? ? ?]. unfold action, add_pause. unfold_M. simpl.
  split; [apply elem_of_app; right; apply list_elem_of_here|set_solver].
Qed.

Lemma classify_all_queues_completed FAILED_CATEGORY RECHECK_CATEGORY time_now
    torrents torrent w :
  torrent ∈ torrents →
  NoDup (Torrent.hash <$> torrents) →
  fired FAILED_CATEGORY RECHECK_CATEGORY w time_now torrent = Some completed →
  let w' := exec (classify_all FAILED_CATEGORY RECHECK_CATEGORY time_now
                    torrents) w in
  torrent ∈ Arr.import_torrents (self w')
  ∧ Torrent.hash torrent ∈ Arr.pause (self w').
Proof.
  unfold classify_all. revert w.
  induction torrents as [|t rest IH]; intros w Hin Hnd Hfired; cbv zeta.
  - by apply elem_of_nil in Hin.
  - rewrite exec_for_each_cons. rewrite fmap_cons in Hnd.
    apply NoDup_cons in Hnd as [Hfresh Hnd].
    apply elem_of_cons in Hin as [->|Hin].
    + destruct (classify_completed FAILED_CATEGORY RECHECK_CATEGORY time_now
                  t w Hfired) as [Hi Hp].
      destruct (preserves_for_each queued_stay rest
                  (classify FAILED_CATEGORY RECHECK_CATEGORY time_now)
                  (classify_queued_stay FAILED_CATEGORY RECHECK_CATEGORY time_now)
                  (exec (classify FAILED_CATEGORY RECHECK_CATEGORY time_now t) w))
        as [Hi' Hp'].
      split; [by apply Hi'|by apply Hp'].
    + apply IH; [done..|].
      assert (Hne : Torrent.hash t ≠ Torrent.hash torrent).
      { intros Heq. apply Hfresh. rewrite Heq. by apply list_elem_of_fmap_2. }
      pose proof (classify_keeps_guard_inputs FAILED_CATEGORY RECHECK_CATEGORY
                    time_now t _ Hne w) as Hk.
      unfold keeps in Hk. apply (f_equal fst) in Hk. cbn [fst] in Hk.
      by rewrite (fired_ext _ _ w _ _ _ Hk).
Qed.

Lemma classify_all_keeps_sent_to_scan FAILED_CATEGORY RECHECK_CATEGORY
    time_now torrents :
  preserves (keeps (λ w, (Arr.sent_to_scan (self w), Arr.config (self w))))
    (classify_all FAILED_CATEGORY RECHECK_CATEGORY time_now torrents).
Proof.
  apply preserves_for_each; [apply _..|]. intros t.
  unfold classify, refresh_caches.
  apply preserves_bind; [apply _|keeps_tac|intros _].
  apply preserves_bind; [apply _|keeps_tac|intros w0].
  cbv zeta.
  repeat match goal with
         | |- preserves _ (if ?b then _ else _) => destruct b
         end;
    cbn [action]; unfold add_delete, add_recheck, add_pause, add_resume,
      add_skip_blacklist, timed_skip_add; keeps_tac.
  generalize (Torrent.files t) (∅ : gset Z) (Z.of_nat (length (Torrent.files t))).
  intros files. induction files as [|file rest IH]; intros rf total;
    cbn [filter_files].
  - keeps_tac.
  - destruct (TorrentFile.priority file =? 0); [apply IH|].
    apply preserves_bind; [apply _|keeps_tac|intros a].
    cbv zeta. apply preserves_bind; [apply _| |intros _; apply IH].
    keeps_tac.
Qed.

(** The scan command for a torrent. *)
Definition scan_of (validate : string → string) (a : Arr.t)
    (torrent : TorrentDictionary) : event :=
  request_post
    (DownloadedEpisodesScan (validate (Torrent.content_path torrent))
       (upper (Torrent.hash torrent)) (import_mode (Arr.config a))).

(** One torrent of the import list: a scan is posted exactly when its
    hash is not in [sent_to_scan], its path exists and is not in
    [sent_to_scan] either. *)
Lemma _process_imports_torrent_exact validate path_exists torrent w :
  let p := validate (Torrent.content_path torrent) in
  let w' := exec (_process_imports_torrent validate path_exists torrent) w in
  let posts :=
    negb (bool_decide (Str (Torrent.hash torrent) ∈ Arr.sent_to_scan (self w)))
    && path_exists p
    && negb (bool_decide (Path p ∈ Arr.sent_to_scan (self w))) in
  Arr.config (self w') = Arr.config (self w)
  ∧ trace w' = trace w ++ (if posts then [scan_of validate (self w) torrent]
                           else [])
  ∧ Arr.sent_to_scan (self w')
    = if posts then Arr.sent_to_scan (self w) ∪ {[Path p]}
      else Arr.sent_to_scan (self w).
Proof.
  cbv zeta. destruct w as [a ? ? ? ? tr ?].
  unfold _process_imports_torrent, post_command, scan_of. unfold_M.
  case_bool_decide as Hstr; simpl; [by rewrite app_nil_r|].
  destruct (path_exists _) eqn:Hexists; simpl.
  - case_bool_decide as Hpath; simpl; [by rewrite app_nil_r|].
    by destruct a.
  - rewrite app_nil_r. by destruct a.
Qed.

(** A torrent of the import list whose path exists and was not sent: the
    loop posts one scan for that path, for the first torrent of the list
    that has it and passes the test on its hash. *)
Lemma _process_imports_loop_scans_path validate path_exists torrents torrent w :
  let p := validate (Torrent.content_path torrent) in
  torrent ∈ torrents →
  Str (Torrent.hash torrent) ∉ Arr.sent_to_scan (self w) →
  path_exists p = true →
  Path p ∉ Arr.sent_to_scan (self w) →
  let w' := exec (for_each torrents
                    (_process_imports_torrent validate path_exists)) w in
  ∃ earlier later t,
    trace w' = trace w ++ earlier ++ [scan_of validate (self w) t] ++ later
    ∧ Forall is_scan earlier ∧ Forall is_scan later
    ∧ (p ∉ scan_paths earlier) ∧ (p ∉ scan_paths later)
    ∧ t ∈ torrents ∧ validate (Torrent.content_path t) = p.
Proof.
  intros p Hin Hstr Hexists Hfresh. revert w Hin Hstr Hfresh.
  induction torrents as [|t0 rest IH]; intros w Hin Hstr Hfresh; cbv zeta.
  - by apply elem_of_nil in Hin.
  - rewrite exec_for_each_cons.
    destruct (_process_imports_torrent_exact validate path_exists t0 w)
      as (Hc1 & Ht1 & Hs1). cbv zeta in Ht1, Hs1.
    destruct (decide (validate (Torrent.content_path t0) = p
                      ∧ Str (Torrent.hash t0) ∉ Arr.sent_to_scan (self w)))
      as [[Hp0 Hstr0]|Hother].
    + (* the scan for the path is posted here *)
      rewrite (bool_decide_eq_false_2 _ Hstr0), Hp0, Hexists in Ht1, Hs1.
      rewrite (bool_decide_eq_false_2 _ Hfresh) in Ht1, Hs1.
      cbn [negb andb] in Ht1, Hs1.
      destruct (_process_imports_loop_spec validate path_exists rest
                  (exec (_process_imports_torrent validate path_exists t0) w))
        as (_ & _ & _ & _ & calls & posted & Ht & Hscan & Hposted & _ & Hall & _).
      exists [], calls, t0. rewrite Ht, Ht1, <- app_assoc.
      split_and!; [done|constructor|done|by intros ?%elem_of_nil| |
                   apply list_elem_of_here|done].
      rewrite Hposted. intros Hp. destruct (Hall p Hp) as (Hnot & _).
      apply Hnot. rewrite Hs1. set_solver.
    + assert (Hrest : torrent ∈ rest).
      { apply elem_of_cons in Hin as [->|?]; [|done]. by destruct Hother. }
      assert (Hp0 : ∀ b : bool,
                (negb (bool_decide (Str (Torrent.hash t0)
                                      ∈ Arr.sent_to_scan (self w))) && b) = true →
                validate (Torrent.content_path t0) ≠ p).
      { intros b Hb Heq. apply Hother. split; [done|].
        apply andb_prop in Hb as [Hb _]. apply negb_true_iff in Hb.
        by apply bool_decide_eq_false_1 in Hb. }
      destruct (IH (exec (_process_imports_torrent validate path_exists t0) w)
                  Hrest) as (earlier & later & t & Ht & He & Hl & Hne & Hnl & Htin & Htp).
      { rewrite Hs1. destruct (_ && _ && _); [|done].
        intros [?|?%elem_of_singleton]%elem_of_union; done. }
      { rewrite Hs1. rewrite <- andb_assoc in *.
        destruct (_ && _) eqn:Hposts; [|done].
        intros [?|Heq%elem_of_singleton]%elem_of_union; [done|].
        injection Heq as Heq. by apply (Hp0 _ Hposts). }
      unfold scan_of in Ht. rewrite Hc1 in Ht.
      fold (scan_of validate (self w) t) in Ht.
      rewrite Ht, Ht1, <- app_assoc. rewrite <- andb_assoc in *.
      destruct (_ && _) eqn:Hposts.
      * exists (scan_of validate (self w) t0 :: earlier), later, t.
        split_and!; [done|by constructor|done| |done|
                     by apply list_elem_of_further|done].
        cbn. intros [?|?]%elem_of_cons; [by apply (Hp0 _ Hposts)|done].
      * exists earlier, later, t.
        split_and!; [done..|by apply list_elem_of_further|done].
Qed.

Lemma refresh_download_queue_keeps_imports queue :
  preserves (keeps (λ w, (Arr.import_torrents (self w),
                          Arr.sent_to_scan (self w), Arr.config (self w),
                          trace w)))
    (refresh_download_queue queue).
Proof. unfold refresh_download_queue. keeps_tac. Qed.

Lemma _process_paused_spec w :
  Arr.pause (self w) ≠ ∅ →
  let w' := exec _process_paused w in
  trace w' = trace w ++ [torrents_pause (Arr.pause (self w))]
  ∧ Arr.import_torrents (self w') = Arr.import_torrents (self w)
  ∧ Arr.sent_to_scan (self w') = Arr.sent_to_scan (self w)
  ∧ Arr.config (self w') = Arr.config (self w).
Proof.
  intros Hne. cbv zeta. unfold _process_paused. rewrite exec_bind.
  change (eval get_self w) with (self w). change (exec get_self w) with w.
  rewrite (bool_decide_eq_true_2 _ Hne).
  by destruct w as [[] ? ? ? ? ? ?].
Qed.

Lemma flush_middle_keeps_imports :
  preserves (keeps (λ w, (Arr.import_torrents (self w),
                          Arr.sent_to_scan (self w), Arr.config (self w))))
    (_process_errored ;; _process_file_priority).
Proof.
  unfold _process_errored, _process_file_priority, set_needs_cleanup,
    timed_ignore_cache_add.
  keeps_tac.
  unfold _process_file_priority_entry, set_needs_cleanup. keeps_tac.
Qed.

Lemma not_scan_removal e : is_removal e → ¬ is_scan e.
Proof. unfold is_scan. repeat case_match; simpl; tauto. Qed.

Lemma not_scan_file_system e : is_file_system e → ¬ is_scan e.
Proof. unfold is_scan. repeat case_match; simpl; tauto. Qed.

(** X25: a torrent of the snapshot that the classifier takes for
    completed (the eighth branch is the first whose condition holds) is,
    in the same tick, paused in the download client and handed to the
    manager.  For a snapshot whose hashes are pairwise different, a content
    path that exists and is not in [sent_to_scan], and a hash that is not
    in it as a string ([sent_to_scan] holds paths): the tick
    first makes a pause call, with the hash among its hashes; after it, and
    after calls none of which is a scan, it posts the scan commands; exactly one
    of them is for the path of the torrent, with the configured import
    mode and the upper-cased hash of a torrent that has this path, which
    is the torrent itself when no other torrent on the import list or in
    the snapshot has its path; no scan command follows them. *)
Theorem completed_torrent_is_paused_and_scanned validate path_exists
    FAILED_CATEGORY RECHECK_CATEGORY queue time_now torrents torrent view w :
  let p := validate (Torrent.content_path torrent) in
  torrent ∈ torrents →
  NoDup (Torrent.hash <$> torrents) →
  fired FAILED_CATEGORY RECHECK_CATEGORY w time_now torrent = Some completed →
  Str (Torrent.hash torrent) ∉ Arr.sent_to_scan (self w) →
  path_exists p = true →
  Path p ∉ Arr.sent_to_scan (self w) →
  let w' := exec (process_torrents validate path_exists FAILED_CATEGORY
                    RECHECK_CATEGORY queue time_now torrents view) w in
  ∃ paused before earlier id_ later after,
    trace w'
    = trace w ++ [torrents_pause paused] ++ before ++ earlier
        ++ [request_post
              (DownloadedEpisodesScan p id_ (import_mode (Arr.config (self w))))]
        ++ later ++ after
    ∧ Torrent.hash torrent ∈ paused
    ∧ Forall (λ e, ¬ is_scan e) before
    ∧ Forall is_scan earlier ∧ (p ∉ scan_paths earlier)
    ∧ Forall is_scan later ∧ (p ∉ scan_paths later)
    ∧ Forall (λ e, ¬ is_scan e) after
    ∧ (∃ t, t ∈ Arr.import_torrents (self w) ++ torrents
            ∧ validate (Torrent.content_path t) = p
            ∧ id_ = upper (Torrent.hash t))
    ∧ ((∀ t, t ∈ Arr.import_torrents (self w) ++ torrents →
          validate (Torrent.content_path t) = p → t = torrent) →
       id_ = upper (Torrent.hash torrent)).
Proof.
  intros p Hin Hnd Hfired Hstr Hexists Hfresh. cbv zeta.
  assert (Hsplit :
    exec (process_torrents validate path_exists FAILED_CATEGORY
            RECHECK_CATEGORY queue time_now torrents view) w
    = exec (folder_cleanup view)
        (exec _process_failed
           (exec (_process_imports validate path_exists)
              (exec (_process_errored ;; _process_file_priority)
                 (exec _process_paused
                    (exec (classify_all FAILED_CATEGORY RECHECK_CATEGORY
                             time_now torrents)
                       (exec (refresh_download_queue queue) w))))))).
  { unfold process_torrents, process. by rewrite !exec_bind. }
  rewrite Hsplit. clear Hsplit.
  (* the queue is fetched *)
  pose proof (refresh_download_queue_keeps_guard_inputs
                (Torrent.hash torrent) queue w) as Hg0.
  unfold keeps in Hg0.
  pose proof (refresh_download_queue_keeps_imports queue w) as Hq.
  unfold keeps in Hq. injection Hq as Hi0 Hs0 Hc0 Ht0.
  rewrite <- (fired_ext _ _ w _ _ _ Hg0) in Hfired. clear Hg0.
  revert Hi0 Hs0 Hc0 Ht0 Hfired.
  generalize (exec (refresh_download_queue queue) w).
  intros w0 Hi0 Hs0 Hc0 Ht0 Hfired.
  (* the snapshot is classified *)
  destruct (classify_all_queues_completed FAILED_CATEGORY RECHECK_CATEGORY
              time_now torrents torrent w0 Hin Hnd Hfired) as [Hi1 Hp1].
  destruct (classify_all_imports FAILED_CATEGORY RECHECK_CATEGORY time_now
              torrents w0) as (_ & _ & queued & Hq1 & Hqueued).
  pose proof (classify_all_keeps_sent_to_scan FAILED_CATEGORY RECHECK_CATEGORY
                time_now torrents w0) as Hk1.
  unfold keeps in Hk1. injection Hk1 as Hs1 Hc1.
  pose proof (classify_all_keeps_trace FAILED_CATEGORY RECHECK_CATEGORY
                time_now torrents w0) as Ht1. unfold keeps in Ht1.
  rewrite Hi0 in Hq1. rewrite Hs0 in Hs1. rewrite Hc0 in Hc1.
  rewrite Ht0 in Ht1. clear Hi0 Hs0 Hc0 Ht0 Hfired.
  revert Hi1 Hp1 Hq1 Hs1 Hc1 Ht1.
  generalize (exec (classify_all FAILED_CATEGORY RECHECK_CATEGORY time_now
                      torrents) w0).
  intros w1 Hi1 Hp1 Hq1 Hs1 Hc1 Ht1.
  (* the pause *)
  destruct (_process_paused_spec w1) as (Ht2 & Hi2 & Hs2 & Hc2);
    [intros Hempty; rewrite Hempty in Hp1; by apply elem_of_empty in Hp1|].
  rewrite Hs1 in Hs2. rewrite Hc1 in Hc2. rewrite Ht1 in Ht2.
  revert Ht2 Hi2 Hs2 Hc2. generalize (exec _process_paused w1).
  intros w2 Ht2 Hi2 Hs2 Hc2.
  (* rechecks and file priorities *)
  pose proof (flush_middle_keeps_imports w2) as Hkeep.
  unfold keeps in Hkeep. injection Hkeep as Hi3 Hs3 Hc3.
  assert (Hmiddle : emits (λ e, ¬ is_scan e) w2
            (exec (_process_errored ;; _process_file_priority) w2)).
  { assert (H : preserves (emits (λ e, ¬ is_scan e))
                  (_process_errored ;; _process_file_priority)).
    { unfold _process_errored, _process_file_priority, set_needs_cleanup,
        timed_ignore_cache_add.
      emits_tac.
      unfold _process_file_priority_entry, set_needs_cleanup. emits_tac. }
    apply H. }
  destruct Hmiddle as (before & Ht3 & Hbefore).
  rewrite Hi2 in Hi3. rewrite Hs2 in Hs3. rewrite Hc2 in Hc3.
  revert Hi3 Hs3 Hc3 Ht3.
  generalize (exec (_process_errored ;; _process_file_priority) w2).
  intros w3 Hi3 Hs3 Hc3 Ht3.
  (* the imports *)
  assert (Himports : ∃ earlier later t,
    trace (exec (_process_imports validate path_exists) w3)
    = trace w3 ++ earlier ++ [scan_of validate (self w) t] ++ later
    ∧ Forall is_scan earlier ∧ Forall is_scan later
    ∧ (p ∉ scan_paths earlier) ∧ (p ∉ scan_paths later)
    ∧ t ∈ Arr.import_torrents (self w1)
    ∧ validate (Torrent.content_path t) = p).
  { unfold _process_imports. rewrite exec_bind.
    change (eval get_self w3) with (self w3). change (exec get_self w3) with w3.
    rewrite Hi3.
    destruct (Arr.import_torrents (self w1)) as [|t0 ts] eqn:Hlist;
      [by apply elem_of_nil in Hi1|].
    rewrite !exec_bind.
    destruct (_process_imports_loop_scans_path validate path_exists (t0 :: ts)
                torrent (exec (set_needs_cleanup true) w3) Hi1)
      as (earlier & later & t & Ht & Hrest).
    { by destruct w3 as [[] ? ? ? ? ? ?]; simpl in *; rewrite Hs3. }
    { exact Hexists. }
    { by destruct w3 as [[] ? ? ? ? ? ?]; simpl in *; rewrite Hs3. }
    exists earlier, later, t. split; [|exact Hrest].
    transitivity
      (trace (exec (for_each (t0 :: ts)
                      (_process_imports_torrent validate path_exists))
                (exec (set_needs_cleanup true) w3))).
    { by destruct (exec (for_each (t0 :: ts) _) _) as [[] ? ? ? ? ? ?]. }
    rewrite Ht. unfold scan_of.
    destruct w3 as [[] ? ? ? ? ? ?]. simpl in *. by rewrite Hc3. }
  destruct Himports as (earlier & later & t & Ht4 & Hearlier & Hlater
                        & Hne & Hnl & Htin & Htp).
  revert Ht4. generalize (exec (_process_imports validate path_exists) w3).
  intros w4 Ht4.
  (* the removals and the cleanup *)
  destruct (_process_failed_emits w4) as (c5 & Ht5 & Hc5).
  destruct (folder_cleanup_emits view (exec _process_failed w4))
    as (c6 & Ht6 & Hc6).
  exists (Arr.pause (self w1)), before, earlier, (upper (Torrent.hash t)),
    later, (c5 ++ c6).
  assert (Hfrom : t ∈ Arr.import_torrents (self w) ++ torrents).
  { rewrite Hq1 in Htin. apply elem_of_app in Htin as [?|Hq].
    - apply elem_of_app. by left.
    - apply elem_of_app. right. by apply Hqueued. }
  split_and!; try done.
  - rewrite Ht6, Ht5, Ht4, Ht3, Ht2. unfold scan_of. rewrite Htp.
    by rewrite <- !app_assoc.
  - apply Forall_app. split.
    + eapply Forall_impl; [exact Hc5|]. apply not_scan_removal.
    + eapply Forall_impl; [exact Hc6|]. apply not_scan_file_system.
  - by exists t.
  - intros Honly. by rewrite (Honly t Hfrom Htp).
Qed.

(** A snapshot of two torrents, the second one completed. *)
Lemma completed_torrent_is_paused_and_scanned_witness :
  let w := sample_world (sample_arr (sample_config false (λ _, false))) in
  let torrents := [downloading_torrent; completed_torrent] in
  let w' := exec (process_torrents (λ p, p) (λ _, true) "failed" "recheck" []
                    1100%Q torrents (FolderView.mk [] [] false)) w in
  completed_torrent ∈ torrents
  ∧ NoDup (Torrent.hash <$> torrents)
  ∧ fired "failed" "recheck" w 1100%Q completed_torrent = Some completed
  ∧ ∃ paused before earlier id_ later after,
      trace w'
      = trace w ++ [torrents_pause paused] ++ before ++ earlier
          ++ [request_post
                (DownloadedEpisodesScan "/downloads/radarr-movies/Movie" id_
                   "Move")]
          ++ later ++ after
      ∧ Torrent.hash completed_torrent ∈ paused.
Proof.
  cbv zeta.
  set (w := sample_world (sample_arr (sample_config false (λ _, false)))).
  assert (Hin : completed_torrent ∈ [downloading_torrent; completed_torrent]).
  { apply list_elem_of_further, list_elem_of_here. }
  assert (Hnd : NoDup (Torrent.hash <$> [downloading_torrent; completed_torrent])).
  { apply (bool_decide_unpack _). vm_compute. exact I. }
  assert (Hfired : fired "failed" "recheck" w 1100%Q completed_torrent
                   = Some completed)
    by (vm_compute; reflexivity).
  split; [exact Hin|]. split; [exact Hnd|]. split; [exact Hfired|].
  destruct (completed_torrent_is_paused_and_scanned (λ p, p) (λ _, true)
              "failed" "recheck" [] 1100%Q [downloading_torrent; completed_torrent]
              completed_torrent (FolderView.mk [] [] false) w Hin Hnd Hfired)
    as (paused & before & earlier & id_ & later & after & Ht & Hp & _).
  - apply (bool_decide_unpack _). vm_compute. exact I.
  - reflexivity.
  - apply (bool_decide_unpack _). vm_compute. exact I.
  - exists paused, before, earlier, id_, later, after.
    split; [exact Ht|exact Hp].
Defined.
